(** * Electric Field Hockey: a shallow embedding of [main.py]

    The physics core of the game (geometry helpers, force model, collision
    test, kinematic integrator) and the part of the game loop that drives it
    are transcribed from [main.py] and the properties of the specification
    are proved about the transcription.

    Number model.  Python [int]s that stay integers in the program (charge,
    mass, radius, slider and obstacle geometry, mouse coordinates) are [Z].
    Python [float]s are modelled by the real numbers [R]: rounding, overflow
    and NaN are not represented, [x ** 0.5] is [sqrt x], and [math.asin],
    [math.cos], [math.sin] are the real functions.  An [int] that meets a
    [float] is injected with [IZR].

    Exceptions.  [/] raises [ZeroDivisionError] on a zero divisor,
    [math.asin] raises [ValueError] outside [[-1, 1]], list indexing raises
    [IndexError] and [exit()] raises [SystemExit]; a computation that may
    raise returns a [result].

    Rendering ([draw], [show_text], [pygame.draw.*]) has no effect on the
    state that the properties talk about and is left out.  Its one way to
    fail, reading the [color] that a charge of value 0 does not have
    ([AttributeError]), is modelled for [net_force_calc] by
    [net_force_calc_drawn]. *)

From Stdlib Require Import Reals.Reals ZArith.ZArith Lists.List Strings.String.
From Stdlib Require Import Bool.Bool micromega.Lra micromega.Lia.
Import ListNotations.

Open Scope R_scope.

(** ** Exceptions and the two monads of the embedding *)

Inductive exn : Type :=
| ZeroDivisionError
| ValueError
| IndexError
| SystemExit
| AttributeError.

Inductive result (A : Type) : Type :=
| Ok (a : A)
| Raise (e : exn).

Arguments Ok {A} a.
Arguments Raise {A} e.

Definition rbind {A B : Type} (c : result A) (k : A -> result B) : result B :=
  match c with
  | Ok a => k a
  | Raise e => Raise e
  end.

Declare Scope result_scope.
Delimit Scope result_scope with result.
Notation "x <- c ;; k" := (rbind c (fun x => k))
  (at level 61, c at next level, right associativity) : result_scope.

(** A method that mutates [self] in place: the object after the call is
    returned whether or not the call raised, as a Python caller that catches
    the exception would observe it. *)
Definition method (S A : Type) : Type := S -> S * result A.

Definition mret {S A : Type} (a : A) : method S A := fun s => (s, Ok a).

Definition mbind {S A B : Type} (c : method S A) (k : A -> method S B)
  : method S B :=
  fun s => match c s with
           | (s', Ok a) => k a s'
           | (s', Raise e) => (s', Raise e)
           end.

Definition assign {S : Type} (f : S -> S) : method S unit :=
  fun s => (f s, Ok tt).

Definition eval {S A : Type} (f : S -> result A) : method S A :=
  fun s => (s, f s).

Declare Scope method_scope.
Delimit Scope method_scope with method.
Notation "x <- c ;; k" := (mbind c (fun x => k))
  (at level 61, c at next level, right associativity) : method_scope.
Notation "c ;; k" := (mbind c (fun _ => k))
  (at level 61, right associativity) : method_scope.

(** ** Python arithmetic on floats *)

(** [x <= y], [x < y], ... as Python booleans. *)
Definition Rleb (x y : R) : bool := if Rle_dec x y then true else false.
Definition Rltb (x y : R) : bool := if Rlt_dec x y then true else false.
Definition Rgeb (x y : R) : bool := Rleb y x.
Definition Rgtb (x y : R) : bool := Rltb y x.

(** [x / y]. *)
Definition truediv (x y : R) : result R :=
  if Req_dec_T y 0 then Raise ZeroDivisionError else Ok (x / y).

(** [math.asin(x)]. *)
Definition math_asin (x : R) : result R :=
  if Rleb (-1) x && Rleb x 1 then Ok (asin x) else Raise ValueError.

(** [round(q)] for the quotient [q = n / d] of two [int]s, [d <> 0]: the
    nearest integer, a tie going to the even neighbour. *)
Definition round_div (n d : Z) : Z :=
  let n' := (if d <? 0 then - n else n)%Z in
  let d' := Z.abs d in
  let q := (n' / d')%Z in
  let r := (n' mod d')%Z in
  if (2 * r <? d')%Z then q
  else if (d' <? 2 * r)%Z then (q + 1)%Z
  else if Z.even q then q else (q + 1)%Z.

(** Two-element lists [[x, y]]. *)
Definition vec : Type := (R * R)%type.
Definition set0 {A : Type} (v : A * A) (x : A) : A * A := (x, snd v).
Definition set1 {A : Type} (v : A * A) (y : A) : A * A := (fst v, y).

Definition SCREEN_SIZE : Z * Z := (1200, 600)%Z.

(** ** Classes *)

Module Obstacle.

Record t : Type := mk {
  position : Z * Z;
  dimensions : Z * Z;
  color : Z * Z * Z
}.

(** [Obstacle(x, y, w, h, color)] *)
Definition init (x y w h : Z) (c : Z * Z * Z) : t :=
  {| position := (x, y); dimensions := (w, h); color := c |}.

End Obstacle.

Module StationaryCharge.

Record t : Type := mk {
  position : vec;
  charge : Z;
  mass : Z;
  radius : Z;
  clicked : bool;
  color : option (Z * Z * Z)   (* unset when the charge is 0 *)
}.

(** [StationaryCharge(charge_val, position)] *)
Definition init (charge_val : Z) (pos : vec) : t :=
  {| position := pos;
     charge := charge_val;
     mass := 1;
     radius := 10;
     clicked := true;
     color := if (charge_val >? 0)%Z then Some (255, 0, 0)%Z
              else if (charge_val <? 0)%Z then Some (0, 0, 255)%Z
              else None |}.

Definition with_position (self : t) (v : vec) : t :=
  mk v (charge self) (mass self) (radius self) (clicked self) (color self).
Definition with_clicked (self : t) (b : bool) : t :=
  mk (position self) (charge self) (mass self) (radius self) b (color self).

Definition detect_click (self : t) (click_position : Z * Z) : bool :=
  (Rleb (fst (position self) - IZR (radius self)) (IZR (fst click_position))
   && Rleb (IZR (fst click_position)) (fst (position self) + IZR (radius self)))
  && (Rleb (snd (position self) - IZR (radius self)) (IZR (snd click_position))
      && Rleb (IZR (snd click_position)) (snd (position self) + IZR (radius self))).

End StationaryCharge.

Module DynamicCharge.

(** The fields of [StationaryCharge] and the two kinematic vectors. *)
Record t : Type := mk {
  position : vec;
  charge : Z;
  mass : Z;
  radius : Z;
  clicked : bool;
  color : option (Z * Z * Z);
  velocity : vec;
  acceleration : vec
}.

(** A [DynamicCharge] used where a [StationaryCharge] is expected. *)
Definition upcast (self : t) : StationaryCharge.t :=
  {| StationaryCharge.position := position self;
     StationaryCharge.charge := charge self;
     StationaryCharge.mass := mass self;
     StationaryCharge.radius := radius self;
     StationaryCharge.clicked := clicked self;
     StationaryCharge.color := color self |}.

Definition with_position (self : t) (v : vec) : t :=
  mk v (charge self) (mass self) (radius self) (clicked self) (color self)
     (velocity self) (acceleration self).
Definition with_velocity (self : t) (v : vec) : t :=
  mk (position self) (charge self) (mass self) (radius self) (clicked self)
     (color self) v (acceleration self).
Definition with_acceleration (self : t) (v : vec) : t :=
  mk (position self) (charge self) (mass self) (radius self) (clicked self)
     (color self) (velocity self) v.
Definition with_mass (self : t) (m : Z) : t :=
  mk (position self) (charge self) m (radius self) (clicked self)
     (color self) (velocity self) (acceleration self).
Definition with_charge (self : t) (q : Z) : t :=
  mk (position self) q (mass self) (radius self) (clicked self)
     (color self) (velocity self) (acceleration self).

(** [DynamicCharge()] *)
Definition init : t :=
  let s := StationaryCharge.init 1 (50, IZR (snd SCREEN_SIZE / 2)) in
  {| position := StationaryCharge.position s;
     charge := StationaryCharge.charge s;
     mass := StationaryCharge.mass s;
     radius := StationaryCharge.radius s;
     clicked := StationaryCharge.clicked s;
     color := Some (0, 0, 0)%Z;
     velocity := (0, 0);
     acceleration := (0, 0) |}.

Local Open Scope method_scope.

Definition move (force : vec) : method t unit :=
  assign (fun self => with_position self
            (set0 (position self) (fst (position self) + fst (velocity self)))) ;;
  assign (fun self => with_position self
            (set1 (position self) (snd (position self) + snd (velocity self)))) ;;
  assign (fun self => with_velocity self
            (set0 (velocity self) (fst (velocity self) + fst (acceleration self)))) ;;
  assign (fun self => with_velocity self
            (set1 (velocity self) (snd (velocity self) + snd (acceleration self)))) ;;
  a0 <- eval (fun self => truediv (fst force) (IZR (mass self))) ;;
  assign (fun self => with_acceleration self (set0 (acceleration self) a0)) ;;
  a1 <- eval (fun self => truediv (snd force) (IZR (mass self))) ;;
  assign (fun self => with_acceleration self (set1 (acceleration self) a1)).

Local Close Scope method_scope.

Definition detect_collision (self : t) (obstacle : Obstacle.t) : bool :=
  (Rgeb (fst (position self) + IZR (radius self))
        (IZR (fst (Obstacle.position obstacle)))
   && Rleb (fst (position self) - IZR (radius self))
           (IZR (fst (Obstacle.position obstacle)
                 + fst (Obstacle.dimensions obstacle))))
  && (Rgeb (snd (position self) + IZR (radius self))
           (IZR (snd (Obstacle.position obstacle)))
      && Rleb (snd (position self) - IZR (radius self))
              (IZR (snd (Obstacle.position obstacle)
                    + snd (Obstacle.dimensions obstacle)))).

Definition reset (self : t) : t :=
  with_acceleration
    (with_velocity
       (with_position self (50, IZR (snd SCREEN_SIZE / 2)))
       (0, 0))
    (0, 0).

End DynamicCharge.

(** ** Geometry helpers *)

Definition hyp_calc (vector1 vector2 : vec) : R :=
  sqrt ((fst vector1 - fst vector2) ^ 2 + (snd vector1 - snd vector2) ^ 2).

Definition angle_calc (vector1 vector2 : vec) : result R :=
  (q <- truediv (snd vector1 - snd vector2) (hyp_calc vector1 vector2) ;;
   math_asin q)%result.

(** ** Force model *)

Definition electrostatic_force_calc (particle1 particle2 : StationaryCharge.t)
  : result R :=
  let k := 20%Z in
  let proximity := 4%Z in
  let charge_squared :=
    (k * Z.abs (StationaryCharge.charge particle1)
       * Z.abs (StationaryCharge.charge particle2))%Z in
  let distance :=
    hyp_calc (StationaryCharge.position particle1)
             (StationaryCharge.position particle2) in
  if Rltb distance (IZR (proximity * StationaryCharge.radius particle1))
  then truediv (IZR charge_squared)
               (IZR ((proximity * StationaryCharge.radius particle1) ^ 2))
  else truediv (IZR charge_squared) (distance ^ 2).

Definition gravitational_force_calc (particle1 particle2 : StationaryCharge.t)
  : result R :=
  let g := 2 / 100 in
  let proximity := 4%Z in
  let mass_squared :=
    g * IZR (StationaryCharge.mass particle1)
      * IZR (StationaryCharge.mass particle2) in
  let distance :=
    hyp_calc (StationaryCharge.position particle1)
             (StationaryCharge.position particle2) in
  if Rltb distance (IZR (proximity * StationaryCharge.radius particle1))
  then truediv mass_squared
               (IZR ((proximity * StationaryCharge.radius particle1) ^ 2))
  else truediv mass_squared (distance ^ 2).

(** [for x in l: s = body(s, x)], stopping at the first exception. *)
Fixpoint for_each {A S : Type} (body : S -> A -> result S) (l : list A) (s : S)
  : result S :=
  match l with
  | [] => Ok s
  | x :: l' => (s' <- body s x ;; for_each body l' s')%result
  end.

(** The magnitude and the attraction flag that one pass of the loop of
    [net_force_calc] computes for [charge]. *)
Definition magnitude_and_attraction (force_type : string)
    (primary_charge : DynamicCharge.t) (charge : StationaryCharge.t)
  : result (R * bool) :=
  if (force_type =? "gravitational")%string then
    (m <- gravitational_force_calc (DynamicCharge.upcast primary_charge) charge ;;
     Ok (m, true))%result
  else if (force_type =? "electrostatic")%string then
    (m <- electrostatic_force_calc (DynamicCharge.upcast primary_charge) charge ;;
     Ok (m, negb (((DynamicCharge.charge primary_charge >? 0)%Z
                   && (StationaryCharge.charge charge >? 0)%Z)
                  || ((DynamicCharge.charge primary_charge <? 0)%Z
                      && (StationaryCharge.charge charge <? 0)%Z))))%result
  else Ok (0, false).

(** The way the loop resolves one contribution on the two axes. *)
Definition resolve (attraction : bool) (angle magnitude : R)
    (primary_position charge_position total : vec) : vec :=
  if attraction then
    let total :=
      if Rgtb (fst primary_position) (fst charge_position)
      then set0 total (fst total - Rabs (cos angle * magnitude))
      else set0 total (fst total + Rabs (cos angle * magnitude)) in
    if Rgtb (snd primary_position) (snd charge_position)
    then set1 total (snd total - Rabs (sin angle * magnitude))
    else set1 total (snd total + Rabs (sin angle * magnitude))
  else
    let total :=
      if Rgtb (fst primary_position) (fst charge_position)
      then set0 total (fst total + Rabs (cos angle * magnitude))
      else set0 total (fst total - Rabs (cos angle * magnitude)) in
    if Rgtb (snd primary_position) (snd charge_position)
    then set1 total (snd total + Rabs (sin angle * magnitude))
    else set1 total (snd total - Rabs (sin angle * magnitude)).

(** One pass of the loop of [net_force_calc]. *)
Definition net_force_body (force_type : string)
    (primary_charge : DynamicCharge.t) (total : vec)
    (charge : StationaryCharge.t) : result vec :=
  (angle <- angle_calc (DynamicCharge.position primary_charge)
                       (StationaryCharge.position charge) ;;
   ma <- magnitude_and_attraction force_type primary_charge charge ;;
   Ok (resolve (snd ma) angle (fst ma)
         (DynamicCharge.position primary_charge)
         (StationaryCharge.position charge) total))%result.

(** [net_force_calc(force_type)]; the globals [primary_charge] and [charges]
    it reads are parameters. *)
Definition net_force_calc (force_type : string)
    (primary_charge : DynamicCharge.t) (charges : list StationaryCharge.t)
  : result vec :=
  for_each (net_force_body force_type primary_charge) charges (0, 0).

(** ** Widgets *)

Module Button.

(** A [Button] is an [Obstacle] with a text. *)
Record t : Type := mk {
  position : Z * Z;
  dimensions : Z * Z;
  color : Z * Z * Z;
  text : string
}.

(** [Button(text, x, y, color)] *)
Definition init (txt : string) (x y : Z) (c : Z * Z * Z) : t :=
  {| position := (x, y);
     dimensions := (Z.of_nat (String.length txt) * 25, 50)%Z;
     color := c;
     text := txt |}.

Definition detect_click (self : t) (click_position : Z * Z) : bool :=
  ((fst (position self) <=? fst click_position)%Z
   && (fst click_position <=? fst (position self) + fst (dimensions self))%Z)
  && ((snd (position self) <=? snd click_position)%Z
      && (snd click_position <=? snd (position self) + snd (dimensions self))%Z).

End Button.

(** [range(start, stop, step)] *)
Record range : Type := mk_range { start : Z; stop : Z; step : Z }.

Module Slider.

Record t : Type := mk {
  label : string;
  position : Z * Z;
  width : Z;
  current_position : Z;
  domain : range;
  clicked : bool;
  radius : Z
}.

(** [Slider(label, position, domain, width=100)] *)
Definition init (lbl : string) (pos : Z * Z) (dom : range) (w : Z) : t :=
  {| label := lbl;
     position := pos;
     width := w;
     current_position := fst pos;
     domain := dom;
     clicked := false;
     radius := 10 |}.

Definition with_clicked (self : t) (b : bool) : t :=
  mk (label self) (position self) (width self) (current_position self)
     (domain self) b (radius self).
Definition with_current_position (self : t) (x : Z) : t :=
  mk (label self) (position self) (width self) x
     (domain self) (clicked self) (radius self).

Definition get_val (self : t) : result Z :=
  if (width self =? 0)%Z then Raise ZeroDivisionError
  else Ok (round_div ((stop (domain self) - start (domain self))
                      * (current_position self - fst (position self)))
                     (width self)
           + start (domain self))%Z.

Definition detect_click (self : t) (click_position : Z * Z) : bool :=
  ((current_position self - radius self <=? fst click_position)%Z
   && (fst click_position <=? current_position self + radius self)%Z)
  && ((snd (position self) - radius self <=? snd click_position)%Z
      && (snd click_position <=? snd (position self) + radius self)%Z).

(** The guard of the [MOUSEMOTION] handlers: the slider is held and the
    mouse is over its track. *)
Definition drag (self : t) (pos : Z * Z) : t :=
  if clicked self
     && ((fst (position self) <=? fst pos)%Z
         && (fst pos <=? fst (position self) + width self)%Z)
  then with_current_position self (fst pos)
  else self.

End Slider.

(** ** Variables and setup *)

Definition play_button : Button.t :=
  Button.init "play" (fst SCREEN_SIZE / 2 - 70) 300 (0, 0, 255)%Z.
Definition quit_button : Button.t :=
  Button.init "quit" (fst SCREEN_SIZE / 2 - 70) 500 (255, 0, 0)%Z.
Definition add_positive_charges : Button.t :=
  Button.init "+" 50 (snd SCREEN_SIZE + 50) (255, 0, 0)%Z.
Definition add_negative_charge : Button.t :=
  Button.init "-" 100 (snd SCREEN_SIZE + 50) (0, 0, 255)%Z.
Definition run_button : Button.t :=
  Button.init "run" 650 (snd SCREEN_SIZE + 50) (0, 0, 0)%Z.
Definition reset_button : Button.t :=
  Button.init "reset" 750 (snd SCREEN_SIZE + 50) (0, 0, 0)%Z.
Definition home_button : Button.t :=
  Button.init "home" 1050 (snd SCREEN_SIZE + 50) (0, 0, 0)%Z.
Definition clear_button : Button.t :=
  Button.init "clear" 900 (snd SCREEN_SIZE + 50) (0, 0, 0)%Z.

Definition level_slider_init : Slider.t :=
  Slider.init "level" (fst SCREEN_SIZE / 2 - 75, 200)%Z (mk_range 0 3 1) 100.
Definition mass_slider_init : Slider.t :=
  Slider.init "mass" (315, snd SCREEN_SIZE + 50)%Z (mk_range 1 100 1) 100.
Definition charge_slider_init : Slider.t :=
  Slider.init "charge" (500, snd SCREEN_SIZE + 50)%Z (mk_range (-25) 25 1) 100.

Definition goal : Obstacle.t :=
  Obstacle.init (fst SCREEN_SIZE - 50) (snd SCREEN_SIZE / 2 - 30) 20 60
                (150, 0, 150)%Z.

Definition levels : list (list Obstacle.t) :=
  [ [];
    [Obstacle.init 300 (snd SCREEN_SIZE / 2 - 75) 20 150 (0, 0, 0)]%Z;
    [Obstacle.init (fst SCREEN_SIZE / 3) (snd SCREEN_SIZE / 4 - 75) 20 150 (0, 0, 0);
     Obstacle.init (2 * fst SCREEN_SIZE / 3) (snd SCREEN_SIZE / 2 - 75) 20 150 (0, 0, 0)]%Z;
    [Obstacle.init (fst SCREEN_SIZE / 5) (snd SCREEN_SIZE / 3) 20
                   (2 * snd SCREEN_SIZE / 3) (0, 0, 0);
     Obstacle.init (3 * fst SCREEN_SIZE / 7) 0 20 (snd SCREEN_SIZE / 2) (0, 0, 0);
     Obstacle.init (3 * fst SCREEN_SIZE / 4) (snd SCREEN_SIZE / 3) 20
                   (2 * snd SCREEN_SIZE / 3) (0, 0, 0)]%Z ].

(** [l[i]] on a Python list: a negative index counts from the end. *)
Definition getitem {A : Type} (l : list A) (i : Z) : result A :=
  let n := Z.of_nat (List.length l) in
  let j := (if i <? 0 then i + n else i)%Z in
  if (j <? 0)%Z then Raise IndexError
  else match nth_error l (Z.to_nat j) with
       | Some x => Ok x
       | None => Raise IndexError
       end.

(** ** Game variables *)

Inductive event : Type :=
| QUIT
| MOUSEBUTTONDOWN (pos : Z * Z) (button : Z)
| MOUSEBUTTONUP (pos : Z * Z) (button : Z)
| MOUSEMOTION (pos : Z * Z)
| OTHER.

Record state : Type := mk_state {
  play : bool;
  run : bool;
  charges : list StationaryCharge.t;
  primary_charge : DynamicCharge.t;
  level_slider : Slider.t;
  mass_slider : Slider.t;
  charge_slider : Slider.t;
  g_force : list R;
  e_force : list R;
  active_level : Z
}.

Definition initial_state : state :=
  {| play := false;
     run := false;
     charges := [];
     primary_charge := DynamicCharge.init;
     level_slider := level_slider_init;
     mass_slider := mass_slider_init;
     charge_slider := charge_slider_init;
     g_force := [];
     e_force := [];
     active_level := 0 |}.

Definition set_play (s : state) (b : bool) : state :=
  mk_state b (run s) (charges s) (primary_charge s) (level_slider s)
           (mass_slider s) (charge_slider s) (g_force s) (e_force s)
           (active_level s).
Definition set_run (s : state) (b : bool) : state :=
  mk_state (play s) b (charges s) (primary_charge s) (level_slider s)
           (mass_slider s) (charge_slider s) (g_force s) (e_force s)
           (active_level s).
Definition set_charges (s : state) (l : list StationaryCharge.t) : state :=
  mk_state (play s) (run s) l (primary_charge s) (level_slider s)
           (mass_slider s) (charge_slider s) (g_force s) (e_force s)
           (active_level s).
Definition set_primary_charge (s : state) (p : DynamicCharge.t) : state :=
  mk_state (play s) (run s) (charges s) p (level_slider s)
           (mass_slider s) (charge_slider s) (g_force s) (e_force s)
           (active_level s).
Definition set_level_slider (s : state) (w : Slider.t) : state :=
  mk_state (play s) (run s) (charges s) (primary_charge s) w
           (mass_slider s) (charge_slider s) (g_force s) (e_force s)
           (active_level s).
Definition set_mass_slider (s : state) (w : Slider.t) : state :=
  mk_state (play s) (run s) (charges s) (primary_charge s) (level_slider s)
           w (charge_slider s) (g_force s) (e_force s) (active_level s).
Definition set_charge_slider (s : state) (w : Slider.t) : state :=
  mk_state (play s) (run s) (charges s) (primary_charge s) (level_slider s)
           (mass_slider s) w (g_force s) (e_force s) (active_level s).
Definition set_g_force (s : state) (f : list R) : state :=
  mk_state (play s) (run s) (charges s) (primary_charge s) (level_slider s)
           (mass_slider s) (charge_slider s) f (e_force s) (active_level s).
Definition set_e_force (s : state) (f : list R) : state :=
  mk_state (play s) (run s) (charges s) (primary_charge s) (level_slider s)
           (mass_slider s) (charge_slider s) (g_force s) f (active_level s).
Definition set_active_level (s : state) (n : Z) : state :=
  mk_state (play s) (run s) (charges s) (primary_charge s) (level_slider s)
           (mass_slider s) (charge_slider s) (g_force s) (e_force s) n.

(** ** Game loop, home screen *)

Definition home_event (s : state) (ev : event) : result state :=
  match ev with
  | QUIT => Raise SystemExit
  | MOUSEBUTTONDOWN pos button =>
      if (button =? 1)%Z then
        if Button.detect_click play_button pos then
          (v <- Slider.get_val (level_slider s) ;;
           Ok (set_play (set_active_level s v) true))%result
        else if Button.detect_click quit_button pos then Raise SystemExit
        else if Slider.detect_click (level_slider s) pos then
          Ok (set_level_slider s (Slider.with_clicked (level_slider s) true))
        else Ok s
      else Ok s
  | MOUSEBUTTONUP _ _ =>
      Ok (set_level_slider s (Slider.with_clicked (level_slider s) false))
  | MOUSEMOTION pos =>
      Ok (set_level_slider s (Slider.drag (level_slider s) pos))
  | OTHER => Ok s
  end.

(** ** Game loop, game screen *)

(** [for obs in levels[active_level]: if collision: run = False] *)
Definition check_obstacles (p : DynamicCharge.t) (obstacles : list Obstacle.t)
    (running : bool) : bool :=
  fold_left (fun r obs => if DynamicCharge.detect_collision p obs then false else r)
            obstacles running.

(** [for charge in charges: if ...: charges.remove(charge)].  The list is
    mutated while it is iterated by index: after a removal the element that
    followed takes the freed index and is stepped over. *)
Fixpoint remove_fallen (l : list StationaryCharge.t) : list StationaryCharge.t :=
  match l with
  | [] => []
  | charge :: rest =>
      if Rgtb (snd (StationaryCharge.position charge)) (IZR (snd SCREEN_SIZE))
         && negb (StationaryCharge.clicked charge)
      then match rest with
           | [] => []
           | next :: rest' => next :: remove_fallen rest'
           end
      else charge :: remove_fallen rest
  end.

(** [if run: ...] *)
Definition integrate (s : state) : result state :=
  if run s then
    (g <- net_force_calc "gravitational" (primary_charge s) (charges s) ;;
     let s := set_g_force s [fst g; snd g] in
     e <- net_force_calc "electrostatic" (primary_charge s) (charges s) ;;
     let s := set_e_force s [fst e; snd e] in
     match DynamicCharge.move (fst g + fst e, snd g + snd e) (primary_charge s) with
     | (p, Ok _) => Ok (set_primary_charge s p)
     | (_, Raise x) => Raise x
     end)%result
  else Ok s.

(** The game screen of one iteration, from the obstacle loop to the goal
    check that precedes the event handler. *)
Definition game_update (s : state) : result state :=
  (obstacles <- getitem levels (active_level s) ;;
   let s := set_run s (check_obstacles (primary_charge s) obstacles (run s)) in
   let s := set_charges s (remove_fallen (charges s)) in
   s <- integrate s ;;
   m <- Slider.get_val (mass_slider s) ;;
   let s := set_primary_charge s (DynamicCharge.with_mass (primary_charge s) m) in
   q <- Slider.get_val (charge_slider s) ;;
   let s := set_primary_charge s (DynamicCharge.with_charge (primary_charge s) q) in
   Ok (if DynamicCharge.detect_collision (primary_charge s) goal
       then set_run s false else s))%result.

(** [list(event.pos)] as a position. *)
Definition pos_to_vec (pos : Z * Z) : vec := (IZR (fst pos), IZR (snd pos)).

(** A block of statements that do not raise, run in order. *)
Definition block (statements : list (state -> state)) (s : state) : state :=
  fold_left (fun s statement => statement s) statements s.

(** The body of the [MOUSEBUTTONDOWN] branch for the left button. *)
Definition left_click (pos : Z * Z) : state -> state :=
  block
    [ (fun s => set_charges s
                  (map (fun charge =>
                          if StationaryCharge.detect_click charge pos
                          then StationaryCharge.with_clicked charge true
                          else charge)
                       (charges s)));
      (fun s => if Button.detect_click add_positive_charges pos
                then set_charges s
                       (charges s ++ [StationaryCharge.init 1 (pos_to_vec pos)])
                else s);
      (fun s => if Button.detect_click add_negative_charge pos
                then set_charges s
                       (charges s ++ [StationaryCharge.init (-1) (pos_to_vec pos)])
                else s);
      (fun s => if Button.detect_click run_button pos
                then set_run s true else s);
      (fun s => if Slider.detect_click (mass_slider s) pos
                then set_mass_slider s (Slider.with_clicked (mass_slider s) true)
                else s);
      (fun s => if Slider.detect_click (charge_slider s) pos
                then set_charge_slider s
                       (Slider.with_clicked (charge_slider s) true)
                else s);
      (fun s => if Button.detect_click home_button pos
                then set_play
                       (set_run
                          (set_primary_charge s
                             (DynamicCharge.reset (primary_charge s)))
                          false)
                       false
                else s);
      (fun s => if Button.detect_click reset_button pos
                then set_run
                       (set_primary_charge s
                          (DynamicCharge.reset (primary_charge s)))
                       false
                else s);
      (fun s => if Button.detect_click clear_button pos
                then set_charges s [] else s) ].

(** The body of the [MOUSEBUTTONUP] branch. *)
Definition release : state -> state :=
  block
    [ (fun s => set_charges s
                  (map (fun charge => StationaryCharge.with_clicked charge false)
                       (charges s)));
      (fun s => set_mass_slider s (Slider.with_clicked (mass_slider s) false));
      (fun s => set_charge_slider s
                  (Slider.with_clicked (charge_slider s) false)) ].

(** The body of the [MOUSEMOTION] branch. *)
Definition motion (pos : Z * Z) : state -> state :=
  block
    [ (fun s => set_charges s
                  (map (fun charge =>
                          if StationaryCharge.clicked charge
                          then StationaryCharge.with_position charge (pos_to_vec pos)
                          else charge)
                       (charges s)));
      (fun s => set_mass_slider s (Slider.drag (mass_slider s) pos));
      (fun s => set_charge_slider s (Slider.drag (charge_slider s) pos)) ].

Definition game_event (s : state) (ev : event) : result state :=
  match ev with
  | QUIT => Raise SystemExit
  | MOUSEBUTTONDOWN pos button =>
      if (button =? 1)%Z then Ok (left_click pos s) else Ok s
  | MOUSEBUTTONUP _ _ => Ok (release s)
  | MOUSEMOTION pos => Ok (motion pos s)
  | OTHER => Ok s
  end.

(** One iteration of [while True]; [events] is what [pygame.event.get()]
    returns in it. *)
Definition iteration (s : state) (events : list event) : result state :=
  if negb (play s) then for_each home_event events s
  else (s' <- game_update s ;; for_each game_event events s')%result.

(** The loop over the event queues of successive iterations. *)
Definition game_loop (queues : list (list event)) (s : state) : result state :=
  for_each iteration queues s.

(** ** What the specification calls overlap *)

(** Two closed intervals overlap when they share a point. *)
Definition intervals_overlap (lo1 hi1 lo2 hi2 : R) : Prop :=
  exists x : R, (lo1 <= x <= hi1) /\ (lo2 <= x <= hi2).

(** The bounding square of the particle (centre plus and minus radius)
    overlaps the box of the rectangle on both axes. *)
Definition bounding_boxes_overlap (p : DynamicCharge.t) (obs : Obstacle.t)
  : Prop :=
  intervals_overlap
    (fst (DynamicCharge.position p) - IZR (DynamicCharge.radius p))
    (fst (DynamicCharge.position p) + IZR (DynamicCharge.radius p))
    (IZR (fst (Obstacle.position obs)))
    (IZR (fst (Obstacle.position obs) + fst (Obstacle.dimensions obs)))
  /\ intervals_overlap
       (snd (DynamicCharge.position p) - IZR (DynamicCharge.radius p))
       (snd (DynamicCharge.position p) + IZR (DynamicCharge.radius p))
       (IZR (snd (Obstacle.position obs)))
       (IZR (snd (Obstacle.position obs) + snd (Obstacle.dimensions obs))).

(** ** What the specification calls attraction and repulsion *)

(** What one pass of the loop adds to the running total. *)
Definition contribution (before after : vec) : vec :=
  (fst after - fst before, snd after - snd before).

(** A force [f] on the particle at [p] is attractive towards [c] when it is
    a positive multiple of the vector from [p] to [c], and repulsive when it
    is a positive multiple of the vector from [c] to [p]. *)
Definition attractive (p c f : vec) : Prop :=
  exists l : R, 0 < l /\ fst f = l * (fst c - fst p) /\ snd f = l * (snd c - snd p).

Definition repulsive (p c f : vec) : Prop :=
  exists l : R, 0 < l /\ fst f = l * (fst p - fst c) /\ snd f = l * (snd p - snd c).

Definition like_sign (q1 q2 : Z) : Prop :=
  (0 < q1 /\ 0 < q2)%Z \/ (q1 < 0 /\ q2 < 0)%Z.

Definition opposite_sign (q1 q2 : Z) : Prop :=
  (0 < q1 /\ q2 < 0)%Z \/ (q1 < 0 /\ 0 < q2)%Z.

(** ** Well-formed states *)

(** The knob of a slider lies on its track. *)
Definition on_track (w : Slider.t) : Prop :=
  (fst (Slider.position w) <= Slider.current_position w
   <= fst (Slider.position w) + Slider.width w)%Z.

(** [w] is the slider [w0] of the setup, moved along its track. *)
Definition slider_of (w0 w : Slider.t) : Prop :=
  Slider.position w = Slider.position w0
  /\ Slider.width w = Slider.width w0
  /\ Slider.domain w = Slider.domain w0
  /\ Slider.radius w = Slider.radius w0
  /\ on_track w.

(** A stationary charge as the game builds it. *)
Definition placed (c : StationaryCharge.t) : Prop :=
  StationaryCharge.radius c = 10%Z
  /\ StationaryCharge.mass c = 1%Z
  /\ (StationaryCharge.charge c = 1%Z \/ StationaryCharge.charge c = (-1)%Z).

Record well_formed (s : state) : Prop := {
  wf_level_slider : slider_of level_slider_init (level_slider s);
  wf_mass_slider : slider_of mass_slider_init (mass_slider s);
  wf_charge_slider : slider_of charge_slider_init (charge_slider s);
  wf_active_level : (0 <= active_level s <= 3)%Z;
  wf_mass : (1 <= DynamicCharge.mass (primary_charge s) <= 100)%Z;
  wf_charge : (-25 <= DynamicCharge.charge (primary_charge s) <= 25)%Z;
  wf_radius : DynamicCharge.radius (primary_charge s) = 10%Z;
  wf_charges : Forall placed (charges s)
}.

(** A left click on the run button. *)
Definition run_click (ev : event) : bool :=
  match ev with
  | MOUSEBUTTONDOWN pos button =>
      (button =? 1)%Z && Button.detect_click run_button pos
  | _ => false
  end.

(** A running game on level 0 without charges, the particle at rest on the
    goal. *)
Definition at_goal : state :=
  set_primary_charge
    (set_run (set_play initial_state true) true)
    (DynamicCharge.with_position DynamicCharge.init (1150, 300)).

(** ** Further notions for the physics *)

(** The threshold below which the distance is replaced, and the distance
    that the magnitude functions divide by. *)
Definition soft_core (particle1 : StationaryCharge.t) : R :=
  IZR (4 * StationaryCharge.radius particle1).

Definition softened_distance (particle1 particle2 : StationaryCharge.t) : R :=
  Rmax (hyp_calc (StationaryCharge.position particle1)
                 (StationaryCharge.position particle2))
       (soft_core particle1).

(** Successive calls of [move], one force per frame; the first exception
    stops the sequence. *)
Fixpoint moves (forces : list vec) : method DynamicCharge.t unit :=
  match forces with
  | [] => mret tt
  | force :: rest => (DynamicCharge.move force ;; moves rest)%method
  end.

(** The launch point of the particle. *)
Definition launch_point : vec := (50, IZR (snd SCREEN_SIZE / 2)).

(** The force that Coulomb's law, with the softened distance, puts on the
    particle [p] in the field of the charge [c]: along the line from [c] to
    [p], outwards when the product of the charges is positive. *)
Definition coulomb (p : DynamicCharge.t) (c : StationaryCharge.t) : vec :=
  let d := hyp_calc (DynamicCharge.position p) (StationaryCharge.position c) in
  let k := 20 * IZR (DynamicCharge.charge p) * IZR (StationaryCharge.charge c)
           / softened_distance (DynamicCharge.upcast p) c ^ 2 in
  (k * ((fst (DynamicCharge.position p) - fst (StationaryCharge.position c)) / d),
   k * ((snd (DynamicCharge.position p) - snd (StationaryCharge.position c)) / d)).

(** The pull of Newton's law, with the softened distance, of [c] on [p]. *)
Definition newton (p : DynamicCharge.t) (c : StationaryCharge.t) : vec :=
  let d := hyp_calc (DynamicCharge.position p) (StationaryCharge.position c) in
  let k := Rabs (2 / 100 * IZR (DynamicCharge.mass p)
                 * IZR (StationaryCharge.mass c))
           / softened_distance (DynamicCharge.upcast p) c ^ 2 in
  (k * ((fst (StationaryCharge.position c) - fst (DynamicCharge.position p)) / d),
   k * ((snd (StationaryCharge.position c) - snd (DynamicCharge.position p)) / d)).

Definition vadd (u v : vec) : vec := (fst u + fst v, snd u + snd v).

Definition vsum (l : list vec) : vec := fold_left vadd l (0, 0).

(** The test of the loop that removes charges: below the play field and
    not held. *)
Definition fallen (charge : StationaryCharge.t) : bool :=
  Rgtb (snd (StationaryCharge.position charge)) (IZR (snd SCREEN_SIZE))
  && negb (StationaryCharge.clicked charge).

Definition live (charge : StationaryCharge.t) : bool := negb (fallen charge).

(** The widgets of the game screen that answer a click at [pos]: the six
    buttons and the knobs of the two sliders. *)
Definition widgets_hit (s : state) (pos : Z * Z) : list bool :=
  [ Button.detect_click add_positive_charges pos;
    Button.detect_click add_negative_charge pos;
    Button.detect_click run_button pos;
    Button.detect_click reset_button pos;
    Button.detect_click clear_button pos;
    Button.detect_click home_button pos;
    Slider.detect_click (mass_slider s) pos;
    Slider.detect_click (charge_slider s) pos ].

(** The widgets of the home screen that answer a click at [pos]. *)
Definition home_widgets_hit (s : state) (pos : Z * Z) : list bool :=
  [ Button.detect_click play_button pos;
    Button.detect_click quit_button pos;
    Slider.detect_click (level_slider s) pos ].

Definition count_true (l : list bool) : nat :=
  List.length (filter (fun b => b) l).

(** ** The loop of [net_force_calc] with its drawing call *)

(** [pygame.draw.line(screen, charge.color, ...)], the last statement of a
    pass: reading [charge.color] raises [AttributeError] for a charge that
    was built with value 0 and so has no colour. *)
Definition draw_force_line (charge : StationaryCharge.t) : result unit :=
  match StationaryCharge.color charge with
  | Some _ => Ok tt
  | None => Raise AttributeError
  end.

(** One pass of the loop, the drawing call included. *)
Definition net_force_pass (force_type : string)
    (primary_charge : DynamicCharge.t) (total : vec)
    (charge : StationaryCharge.t) : result vec :=
  (after <- net_force_body force_type primary_charge total charge ;;
   drawn <- draw_force_line charge ;;
   Ok after)%result.

Definition net_force_calc_drawn (force_type : string)
    (primary_charge : DynamicCharge.t) (charges : list StationaryCharge.t)
  : result vec :=
  for_each (net_force_pass force_type primary_charge) charges (0, 0).

(** A charge on which a pass succeeds: away from the particle, with a
    colour. *)
Definition passable (primary_charge : DynamicCharge.t)
    (charge : StationaryCharge.t) : Prop :=
  StationaryCharge.position charge <> DynamicCharge.position primary_charge
  /\ StationaryCharge.color charge <> None.

(** ** Notions for the exceptions of the game loop *)

(** Every charge of the state has a colour, so that drawing it reads an
    attribute that exists. *)
Definition coloured (s : state) : Prop :=
  Forall (fun charge => StationaryCharge.color charge <> None) (charges s).

(** An event that ends the program: closing the window on either screen, a
    left click on the quit button on the home screen. *)
Definition quit_event (playing : bool) (ev : event) : bool :=
  match ev with
  | QUIT => true
  | MOUSEBUTTONDOWN pos button =>
      negb playing && (button =? 1)%Z && Button.detect_click quit_button pos
  | _ => false
  end.

(** ** Comparisons *)

Lemma Rleb_true_iff (x y : R) : Rleb x y = true <-> x <= y.
Proof. unfold Rleb. destruct (Rle_dec x y); split; intros; try easy. Qed.

Lemma Rleb_false_iff (x y : R) : Rleb x y = false <-> y < x.
Proof.
  unfold Rleb. destruct (Rle_dec x y); split; intros; try easy; lra.
Qed.

Lemma Rltb_true_iff (x y : R) : Rltb x y = true <-> x < y.
Proof. unfold Rltb. destruct (Rlt_dec x y); split; intros; try easy. Qed.

Lemma Rltb_false_iff (x y : R) : Rltb x y = false <-> y <= x.
Proof.
  unfold Rltb. destruct (Rlt_dec x y); split; intros; try easy; lra.
Qed.

Lemma truediv_ok (x y : R) : y <> 0 -> truediv x y = Ok (x / y).
Proof. intros H. unfold truediv. destruct (Req_dec_T y 0); easy. Qed.

Lemma truediv_zero (x : R) : truediv x 0 = Raise ZeroDivisionError.
Proof. unfold truediv. destruct (Req_dec_T 0 0); easy. Qed.

(** ** The kinematic integrator *)

Section Move.

Variable self : DynamicCharge.t.
Variable force : vec.

Let after : DynamicCharge.t := fst (DynamicCharge.move force self).

Lemma move_position :
  DynamicCharge.position after
  = (fst (DynamicCharge.position self) + fst (DynamicCharge.velocity self),
     snd (DynamicCharge.position self) + snd (DynamicCharge.velocity self)).
Proof.
  unfold after, DynamicCharge.move, mbind, assign, eval, truediv. simpl.
  destruct (Req_dec_T _ 0); reflexivity.
Qed.

Lemma move_velocity :
  DynamicCharge.velocity after
  = (fst (DynamicCharge.velocity self) + fst (DynamicCharge.acceleration self),
     snd (DynamicCharge.velocity self) + snd (DynamicCharge.acceleration self)).
Proof.
  unfold after, DynamicCharge.move, mbind, assign, eval, truediv. simpl.
  destruct (Req_dec_T _ 0); reflexivity.
Qed.

Lemma move_acceleration :
  DynamicCharge.mass self <> 0%Z ->
  snd (DynamicCharge.move force self) = Ok tt
  /\ DynamicCharge.acceleration after
     = (fst force / IZR (DynamicCharge.mass self),
        snd force / IZR (DynamicCharge.mass self)).
Proof.
  intros Hm.
  unfold after, DynamicCharge.move, mbind, assign, eval, truediv. simpl.
  destruct (Req_dec_T _ 0) as [E | _].
  - apply eq_IZR_R0 in E. contradiction.
  - split; reflexivity.
Qed.

Lemma move_raises_on_zero_mass :
  DynamicCharge.mass self = 0%Z ->
  snd (DynamicCharge.move force self) = Raise ZeroDivisionError
  /\ DynamicCharge.acceleration after = DynamicCharge.acceleration self.
Proof.
  intros Hm.
  unfold after, DynamicCharge.move, mbind, assign, eval. simpl.
  rewrite Hm, truediv_zero. split; reflexivity.
Qed.

End Move.

Lemma move_keeps (self : DynamicCharge.t) (force : vec) :
  DynamicCharge.charge (fst (DynamicCharge.move force self))
  = DynamicCharge.charge self
  /\ DynamicCharge.mass (fst (DynamicCharge.move force self))
     = DynamicCharge.mass self
  /\ DynamicCharge.radius (fst (DynamicCharge.move force self))
     = DynamicCharge.radius self.
Proof.
  unfold DynamicCharge.move, mbind, assign, eval, truediv. simpl.
  destruct (Req_dec_T _ 0); simpl; repeat split; reflexivity.
Qed.

(** C1.  One call of [move] advances the position by the velocity the
    particle had before the call, then the velocity by the acceleration it
    had before the call, and last sets the acceleration to the force divided
    by the mass; the new position and velocity are the same whatever the
    force.  The mass is not zero (it is 1 at construction and afterwards a
    value of the mass slider), otherwise the division raises. *)
Theorem move_order (self : DynamicCharge.t) (force : vec) :
  let after := fst (DynamicCharge.move force self) in
  DynamicCharge.position after
  = (fst (DynamicCharge.position self) + fst (DynamicCharge.velocity self),
     snd (DynamicCharge.position self) + snd (DynamicCharge.velocity self))
  /\ DynamicCharge.velocity after
     = (fst (DynamicCharge.velocity self) + fst (DynamicCharge.acceleration self),
        snd (DynamicCharge.velocity self) + snd (DynamicCharge.acceleration self))
  /\ (forall force' : vec,
        DynamicCharge.position (fst (DynamicCharge.move force' self))
        = DynamicCharge.position after
        /\ DynamicCharge.velocity (fst (DynamicCharge.move force' self))
           = DynamicCharge.velocity after)
  /\ (DynamicCharge.mass self <> 0%Z ->
      snd (DynamicCharge.move force self) = Ok tt
      /\ DynamicCharge.acceleration after
         = (fst force / IZR (DynamicCharge.mass self),
            snd force / IZR (DynamicCharge.mass self))).
Proof.
  intros after. unfold after.
  split; [apply move_position |].
  split; [apply move_velocity |].
  split.
  - intros force'. now rewrite !move_position, !move_velocity.
  - apply move_acceleration.
Qed.

(** C10.  [move] leaves the charge, the mass, the radius, the colour and the
    clicked flag of the particle as they were, also when it raises. *)
Theorem move_frame (self : DynamicCharge.t) (force : vec) :
  let after := fst (DynamicCharge.move force self) in
  DynamicCharge.charge after = DynamicCharge.charge self
  /\ DynamicCharge.mass after = DynamicCharge.mass self
  /\ DynamicCharge.radius after = DynamicCharge.radius self
  /\ DynamicCharge.color after = DynamicCharge.color self
  /\ DynamicCharge.clicked after = DynamicCharge.clicked self.
Proof.
  unfold DynamicCharge.move, mbind, assign, eval, truediv. simpl.
  destruct (Req_dec_T _ 0); simpl; repeat split; reflexivity.
Qed.

Lemma move_order_witness :
  snd (DynamicCharge.move (3, 4) DynamicCharge.init) = Ok tt
  /\ DynamicCharge.acceleration (fst (DynamicCharge.move (3, 4) DynamicCharge.init))
     = (3 / IZR 1, 4 / IZR 1).
Proof.
  destruct (move_order DynamicCharge.init (3, 4)) as (_ & _ & _ & H).
  apply H. simpl. discriminate.
Defined.

(** With zero force and zero velocity the position does not change. *)
Lemma move_at_rest (self : DynamicCharge.t) :
  DynamicCharge.velocity self = (0, 0) ->
  DynamicCharge.position (fst (DynamicCharge.move (0, 0) self))
  = DynamicCharge.position self.
Proof.
  intros Hv. rewrite move_position, Hv. simpl.
  destruct (DynamicCharge.position self) as [x y]. simpl.
  f_equal; lra.
Qed.

(** ** Collision detection *)

Lemma detect_collision_true_iff (p : DynamicCharge.t) (obs : Obstacle.t) :
  DynamicCharge.detect_collision p obs = true
  <-> (IZR (fst (Obstacle.position obs))
         <= fst (DynamicCharge.position p) + IZR (DynamicCharge.radius p)
       /\ fst (DynamicCharge.position p) - IZR (DynamicCharge.radius p)
          <= IZR (fst (Obstacle.position obs) + fst (Obstacle.dimensions obs)))
      /\ (IZR (snd (Obstacle.position obs))
            <= snd (DynamicCharge.position p) + IZR (DynamicCharge.radius p)
          /\ snd (DynamicCharge.position p) - IZR (DynamicCharge.radius p)
             <= IZR (snd (Obstacle.position obs) + snd (Obstacle.dimensions obs))).
Proof.
  unfold DynamicCharge.detect_collision, Rgeb.
  rewrite !andb_true_iff, !Rleb_true_iff. tauto.
Qed.

Lemma intervals_overlap_iff (lo1 hi1 lo2 hi2 : R) :
  lo1 <= hi1 -> lo2 <= hi2 ->
  (intervals_overlap lo1 hi1 lo2 hi2 <-> lo2 <= hi1 /\ lo1 <= hi2).
Proof.
  intros H1 H2. unfold intervals_overlap. split.
  - intros [x [Hx1 Hx2]]. lra.
  - intros [Ha Hb]. exists (Rmax lo1 lo2).
    unfold Rmax. destruct (Rle_dec lo1 lo2); lra.
Qed.

(** C5.  [detect_collision] holds exactly when the bounding square of the
    particle and the box of the rectangle overlap on both axes, bounds
    included (for a radius and dimensions that are not negative); a particle
    of radius 10 at (100, 100) collides with the rectangle at (95, 95) of
    size (20, 20), and the same particle at (200, 200) does not. *)
Theorem detect_collision_aabb :
  (forall (p : DynamicCharge.t) (obs : Obstacle.t),
      (0 <= DynamicCharge.radius p)%Z ->
      (0 <= fst (Obstacle.dimensions obs))%Z ->
      (0 <= snd (Obstacle.dimensions obs))%Z ->
      DynamicCharge.detect_collision p obs = true
      <-> bounding_boxes_overlap p obs)
  /\ (forall (p : DynamicCharge.t) (c : Z * Z * Z),
        DynamicCharge.radius p = 10%Z ->
        (DynamicCharge.position p = (100, 100) ->
         DynamicCharge.detect_collision p (Obstacle.init 95 95 20 20 c) = true)
        /\ (DynamicCharge.position p = (200, 200) ->
            DynamicCharge.detect_collision p (Obstacle.init 95 95 20 20 c) = false)).
Proof.
  split.
  - intros p obs Hr Hw Hh.
    rewrite detect_collision_true_iff. unfold bounding_boxes_overlap.
    apply IZR_le in Hr, Hw, Hh.
    rewrite !intervals_overlap_iff; rewrite ?plus_IZR in *; try lra.
  - intros p c Hr. split; intros Hp.
    + apply detect_collision_true_iff. rewrite Hr, Hp. simpl. lra.
    + apply not_true_is_false. intros H.
      apply detect_collision_true_iff in H. rewrite Hr, Hp in H. simpl in H. lra.
Qed.

Lemma detect_collision_aabb_witness :
  DynamicCharge.detect_collision
    (DynamicCharge.with_position DynamicCharge.init (100, 100))
    (Obstacle.init 95 95 20 20 (0, 0, 0)%Z) = true
  /\ bounding_boxes_overlap
       (DynamicCharge.with_position DynamicCharge.init (100, 100))
       (Obstacle.init 95 95 20 20 (0, 0, 0)%Z)
  /\ DynamicCharge.detect_collision
       (DynamicCharge.with_position DynamicCharge.init (200, 200))
       (Obstacle.init 95 95 20 20 (0, 0, 0)%Z) = false.
Proof.
  destruct detect_collision_aabb as [Hiff Hex].
  destruct (Hex (DynamicCharge.with_position DynamicCharge.init (100, 100))
                (0, 0, 0)%Z eq_refl) as [Hin _].
  destruct (Hex (DynamicCharge.with_position DynamicCharge.init (200, 200))
                (0, 0, 0)%Z eq_refl) as [_ Hout].
  split; [exact (Hin eq_refl) |].
  split; [| exact (Hout eq_refl)].
  apply (Hiff (DynamicCharge.with_position DynamicCharge.init (100, 100))
              (Obstacle.init 95 95 20 20 (0, 0, 0)%Z)).
  - simpl. lia.
  - simpl. lia.
  - simpl. lia.
  - exact (Hin eq_refl).
Defined.

(** ** Net force over no charge *)

(** C6.  Over an empty list of charges [net_force_calc] returns the zero
    vector and raises nothing, for the gravitational and for the
    electrostatic force type (and for any other string). *)
Theorem net_force_calc_empty (primary_charge : DynamicCharge.t) :
  net_force_calc "gravitational" primary_charge [] = Ok (0, 0)
  /\ net_force_calc "electrostatic" primary_charge [] = Ok (0, 0)
  /\ forall force_type : string,
       net_force_calc force_type primary_charge [] = Ok (0, 0).
Proof. repeat split. Qed.

(** The loop handles the charges in order, each pass starting from the
    total left by the passes before it. *)
Lemma net_force_calc_app (force_type : string) (primary_charge : DynamicCharge.t)
    (before : list StationaryCharge.t) (charge : StationaryCharge.t) :
  net_force_calc force_type primary_charge (before ++ [charge])
  = (total <- net_force_calc force_type primary_charge before ;;
     net_force_body force_type primary_charge total charge)%result.
Proof.
  unfold net_force_calc. generalize (0, 0).
  induction before as [| c l IH]; intros total; simpl.
  - now destruct (net_force_body force_type primary_charge total charge).
  - destruct (net_force_body force_type primary_charge total c); simpl.
    + apply IH.
    + reflexivity.
Qed.

(** ** Distance *)

Lemma hyp_calc_nonneg (a b : vec) : 0 <= hyp_calc a b.
Proof. apply sqrt_pos. Qed.

Lemma hyp_calc_sqr (a b : vec) :
  hyp_calc a b ^ 2 = (fst a - fst b) ^ 2 + (snd a - snd b) ^ 2.
Proof.
  unfold hyp_calc. apply pow2_sqrt.
  apply Rplus_le_le_0_compat; apply pow2_ge_0.
Qed.

Lemma hyp_calc_sym (a b : vec) : hyp_calc a b = hyp_calc b a.
Proof. unfold hyp_calc. f_equal. ring. Qed.

Lemma hyp_calc_same (a : vec) : hyp_calc a a = 0.
Proof.
  unfold hyp_calc.
  replace ((fst a - fst a) ^ 2 + (snd a - snd a) ^ 2) with 0 by ring.
  apply sqrt_0.
Qed.

Lemma hyp_calc_pos (a b : vec) : a <> b -> 0 < hyp_calc a b.
Proof.
  intros Hab.
  destruct (hyp_calc_nonneg a b) as [H | H]; [exact H |].
  exfalso. apply Hab.
  assert (Hs := hyp_calc_sqr a b). rewrite <- H in Hs.
  destruct a as [ax ay], b as [bx by_]. simpl in Hs.
  destruct (Rplus_sqr_eq_0 (ax - bx) (ay - by_)) as [Hx Hy].
  { unfold Rsqr. lra. }
  f_equal; lra.
Qed.

(** ** Force magnitudes *)

Lemma IZR_sqr (z : Z) : IZR (z ^ 2) = IZR z ^ 2.
Proof. now rewrite (pow_IZR z 2). Qed.

Lemma IZR_charge_squared (q1 q2 : Z) :
  IZR (20 * Z.abs q1 * Z.abs q2) = 20 * Rabs (IZR q1) * Rabs (IZR q2).
Proof. now rewrite !mult_IZR, !abs_IZR. Qed.

Section Magnitudes.

Variables particle1 particle2 : StationaryCharge.t.

Let d : R :=
  hyp_calc (StationaryCharge.position particle1)
           (StationaryCharge.position particle2).
Let threshold : R := IZR (4 * StationaryCharge.radius particle1).

Lemma electrostatic_below :
  d < threshold ->
  electrostatic_force_calc particle1 particle2
  = Ok (20 * Rabs (IZR (StationaryCharge.charge particle1))
           * Rabs (IZR (StationaryCharge.charge particle2)) / threshold ^ 2).
Proof.
  intros Hd. unfold electrostatic_force_calc. fold d. fold threshold.
  apply Rltb_true_iff in Hd. rewrite Hd.
  apply Rltb_true_iff in Hd.
  assert (0 <= d) by apply hyp_calc_nonneg.
  rewrite IZR_sqr, IZR_charge_squared. fold threshold.
  apply truediv_ok, pow_nonzero. lra.
Qed.

Lemma gravitational_below :
  d < threshold ->
  gravitational_force_calc particle1 particle2
  = Ok (2 / 100 * IZR (StationaryCharge.mass particle1)
          * IZR (StationaryCharge.mass particle2) / threshold ^ 2).
Proof.
  intros Hd. unfold gravitational_force_calc. fold d. fold threshold.
  apply Rltb_true_iff in Hd. rewrite Hd.
  apply Rltb_true_iff in Hd.
  assert (0 <= d) by apply hyp_calc_nonneg.
  rewrite IZR_sqr. fold threshold.
  apply truediv_ok, pow_nonzero. lra.
Qed.

Lemma electrostatic_above :
  threshold <= d -> 0 < d ->
  electrostatic_force_calc particle1 particle2
  = Ok (20 * Rabs (IZR (StationaryCharge.charge particle1))
           * Rabs (IZR (StationaryCharge.charge particle2)) / d ^ 2).
Proof.
  intros Hd Hpos. unfold electrostatic_force_calc. fold d. fold threshold.
  apply Rltb_false_iff in Hd. rewrite Hd.
  rewrite IZR_charge_squared.
  apply truediv_ok, pow_nonzero. lra.
Qed.

Lemma gravitational_above :
  threshold <= d -> 0 < d ->
  gravitational_force_calc particle1 particle2
  = Ok (2 / 100 * IZR (StationaryCharge.mass particle1)
          * IZR (StationaryCharge.mass particle2) / d ^ 2).
Proof.
  intros Hd Hpos. unfold gravitational_force_calc. fold d. fold threshold.
  apply Rltb_false_iff in Hd. rewrite Hd.
  apply truediv_ok, pow_nonzero. lra.
Qed.

End Magnitudes.

(** C3.  Below the threshold of four radii both magnitudes are the constant
    obtained with the threshold in place of the distance: they do not depend
    on the distance any more, and equal the value at the threshold itself.
    At or above the threshold they are [20 |q1| |q2| / d ^ 2] and
    [0.02 m1 m2 / d ^ 2]. *)
Theorem soft_core_clamp (particle1 particle2 : StationaryCharge.t) :
  let d := hyp_calc (StationaryCharge.position particle1)
                    (StationaryCharge.position particle2) in
  let threshold := IZR (4 * StationaryCharge.radius particle1) in
  (d < threshold ->
   electrostatic_force_calc particle1 particle2
   = Ok (20 * Rabs (IZR (StationaryCharge.charge particle1))
            * Rabs (IZR (StationaryCharge.charge particle2)) / threshold ^ 2)
   /\ gravitational_force_calc particle1 particle2
      = Ok (2 / 100 * IZR (StationaryCharge.mass particle1)
              * IZR (StationaryCharge.mass particle2) / threshold ^ 2)
   /\ forall other : StationaryCharge.t,
        StationaryCharge.charge other = StationaryCharge.charge particle2 ->
        StationaryCharge.mass other = StationaryCharge.mass particle2 ->
        hyp_calc (StationaryCharge.position particle1)
                 (StationaryCharge.position other) <= threshold ->
        electrostatic_force_calc particle1 other
        = electrostatic_force_calc particle1 particle2
        /\ gravitational_force_calc particle1 other
           = gravitational_force_calc particle1 particle2)
  /\ (threshold <= d ->
      (0 < StationaryCharge.radius particle1)%Z ->
      electrostatic_force_calc particle1 particle2
      = Ok (20 * Rabs (IZR (StationaryCharge.charge particle1))
               * Rabs (IZR (StationaryCharge.charge particle2)) / d ^ 2)
      /\ gravitational_force_calc particle1 particle2
         = Ok (2 / 100 * IZR (StationaryCharge.mass particle1)
                 * IZR (StationaryCharge.mass particle2) / d ^ 2)).
Proof.
  intros d threshold. split.
  - intros Hd.
    assert (Hd0 : 0 <= d) by apply hyp_calc_nonneg.
    split; [now apply electrostatic_below |].
    split; [now apply gravitational_below |].
    intros other Hq Hm [Hlt | Heq].
    + rewrite (electrostatic_below particle1 other Hlt).
      rewrite (gravitational_below particle1 other Hlt).
      rewrite (electrostatic_below particle1 particle2 Hd).
      rewrite (gravitational_below particle1 particle2 Hd).
      now rewrite Hq, Hm.
    + rewrite (electrostatic_above particle1 other);
        [| fold threshold; lra | fold threshold; lra].
      rewrite (gravitational_above particle1 other);
        [| fold threshold; lra | fold threshold; lra].
      rewrite (electrostatic_below particle1 particle2 Hd).
      rewrite (gravitational_below particle1 particle2 Hd).
      fold threshold. now rewrite Heq, Hq, Hm.
  - intros Hd Hr.
    assert (0 < threshold).
    { unfold threshold. apply IZR_lt. lia. }
    split.
    + apply electrostatic_above; fold d; fold threshold; lra.
    + apply gravitational_above; fold d; fold threshold; lra.
Qed.

Lemma hyp_calc_3_4 : hyp_calc (0, 0) (3, 4) = 5.
Proof.
  unfold hyp_calc. simpl. apply sqrt_lem_1; lra.
Qed.

Lemma hyp_calc_30_40 : hyp_calc (0, 0) (30, 40) = 50.
Proof.
  unfold hyp_calc. simpl. apply sqrt_lem_1; lra.
Qed.

Lemma soft_core_clamp_witness :
  (electrostatic_force_calc (StationaryCharge.init 1 (0, 0))
                            (StationaryCharge.init (-1) (3, 4))
   = Ok (20 * Rabs 1 * Rabs (-1) / IZR (4 * 10) ^ 2))
  /\ (electrostatic_force_calc (StationaryCharge.init 1 (0, 0))
                               (StationaryCharge.init (-1) (30, 40))
      = Ok (20 * Rabs 1 * Rabs (-1) / hyp_calc (0, 0) (30, 40) ^ 2)).
Proof.
  split.
  - apply (soft_core_clamp (StationaryCharge.init 1 (0, 0))
                           (StationaryCharge.init (-1) (3, 4))).
    simpl. rewrite hyp_calc_3_4. lra.
  - apply (soft_core_clamp (StationaryCharge.init 1 (0, 0))
                           (StationaryCharge.init (-1) (30, 40))).
    + simpl. rewrite hyp_calc_30_40. lra.
    + simpl. lia.
Defined.

(** C7.  Both magnitude functions give the same result when their two
    arguments are exchanged.  The threshold is taken from the radius of the
    first argument, and every particle is built with radius 10. *)
Theorem force_calc_symmetric :
  (forall particle1 particle2 : StationaryCharge.t,
      StationaryCharge.radius particle1 = StationaryCharge.radius particle2 ->
      electrostatic_force_calc particle1 particle2
      = electrostatic_force_calc particle2 particle1
      /\ gravitational_force_calc particle1 particle2
         = gravitational_force_calc particle2 particle1)
  /\ (forall (q1 q2 : Z) (pos1 pos2 : vec),
        electrostatic_force_calc (StationaryCharge.init q1 pos1)
                                 (StationaryCharge.init q2 pos2)
        = electrostatic_force_calc (StationaryCharge.init q2 pos2)
                                   (StationaryCharge.init q1 pos1)
        /\ gravitational_force_calc (StationaryCharge.init q1 pos1)
                                    (StationaryCharge.init q2 pos2)
           = gravitational_force_calc (StationaryCharge.init q2 pos2)
                                      (StationaryCharge.init q1 pos1)).
Proof.
  assert (Hsym : forall particle1 particle2 : StationaryCharge.t,
             StationaryCharge.radius particle1 = StationaryCharge.radius particle2 ->
             electrostatic_force_calc particle1 particle2
             = electrostatic_force_calc particle2 particle1
             /\ gravitational_force_calc particle1 particle2
                = gravitational_force_calc particle2 particle1).
  { intros particle1 particle2 Hr.
    unfold electrostatic_force_calc, gravitational_force_calc.
    rewrite Hr.
    rewrite (hyp_calc_sym (StationaryCharge.position particle1)
                          (StationaryCharge.position particle2)).
    replace (20 * Z.abs (StationaryCharge.charge particle1)
             * Z.abs (StationaryCharge.charge particle2))%Z
      with (20 * Z.abs (StationaryCharge.charge particle2)
            * Z.abs (StationaryCharge.charge particle1))%Z by ring.
    replace (2 / 100 * IZR (StationaryCharge.mass particle1)
             * IZR (StationaryCharge.mass particle2))
      with (2 / 100 * IZR (StationaryCharge.mass particle2)
            * IZR (StationaryCharge.mass particle1)) by ring.
    split; reflexivity. }
  split; [exact Hsym |].
  intros q1 q2 pos1 pos2. apply Hsym. reflexivity.
Qed.

Lemma force_calc_symmetric_witness :
  electrostatic_force_calc (StationaryCharge.init 1 (0, 0))
                           (StationaryCharge.init (-1) (3, 4))
  = electrostatic_force_calc (StationaryCharge.init (-1) (3, 4))
                             (StationaryCharge.init 1 (0, 0)).
Proof.
  apply (proj1 force_calc_symmetric (StationaryCharge.init 1 (0, 0))
               (StationaryCharge.init (-1) (3, 4))).
  reflexivity.
Defined.

(** ** Angle *)

Lemma sine_ratio_bounds (a b : vec) :
  a <> b -> -1 <= (snd a - snd b) / hyp_calc a b <= 1.
Proof.
  intros Hab.
  assert (Hd := hyp_calc_pos a b Hab).
  assert (Hs := hyp_calc_sqr a b).
  set (d := hyp_calc a b) in *.
  set (dx := fst a - fst b) in *.
  set (dy := snd a - snd b) in *.
  assert (Hq : dy = dy / d * d) by (field; lra).
  set (q := dy / d) in *.
  assert (Hdx : 0 <= dx ^ 2) by apply pow2_ge_0.
  assert (Hq2 : q ^ 2 * d ^ 2 <= d ^ 2).
  { rewrite Hs at 2. rewrite Hq. nra. }
  assert (Hd2 : 0 < d ^ 2) by nra.
  assert (q ^ 2 <= 1) by nra.
  split; nra.
Qed.

Lemma math_asin_ok (x : R) : -1 <= x <= 1 -> math_asin x = Ok (asin x).
Proof.
  intros [H1 H2]. unfold math_asin.
  apply Rleb_true_iff in H1, H2. now rewrite H1, H2.
Qed.

Lemma angle_calc_ok (a b : vec) :
  a <> b -> angle_calc a b = Ok (asin ((snd a - snd b) / hyp_calc a b)).
Proof.
  intros Hab. unfold angle_calc.
  rewrite truediv_ok.
  - simpl. apply math_asin_ok, sine_ratio_bounds, Hab.
  - assert (H := hyp_calc_pos a b Hab). lra.
Qed.

Lemma angle_calc_same (a : vec) : angle_calc a a = Raise ZeroDivisionError.
Proof.
  unfold angle_calc. rewrite hyp_calc_same, truediv_zero. reflexivity.
Qed.

(** C8.  For two distinct points the argument given to [asin] lies in
    [[-1, 1]], [angle_calc] returns an angle, and the sine of that angle is
    [(a.y - b.y) / hyp_calc a b]; for two equal points the division raises
    [ZeroDivisionError]. *)
Theorem angle_calc_defined (a b : vec) :
  (a <> b ->
   -1 <= (snd a - snd b) / hyp_calc a b <= 1
   /\ exists theta : R,
        angle_calc a b = Ok theta
        /\ sin theta = (snd a - snd b) / hyp_calc a b)
  /\ (a = b -> angle_calc a b = Raise ZeroDivisionError).
Proof.
  split.
  - intros Hab.
    assert (Hq := sine_ratio_bounds a b Hab).
    split; [exact Hq |].
    exists (asin ((snd a - snd b) / hyp_calc a b)).
    split; [now apply angle_calc_ok | now apply sin_asin].
  - intros ->. apply angle_calc_same.
Qed.

Lemma angle_calc_defined_witness :
  (exists theta : R,
      angle_calc (0, 0) (3, 4) = Ok theta
      /\ sin theta = (snd (0, 0) - snd (3, 4)) / hyp_calc (0, 0) (3, 4))
  /\ angle_calc (3, 4) (3, 4) = Raise ZeroDivisionError.
Proof.
  split.
  - apply (angle_calc_defined (0, 0) (3, 4)).
    intros H. apply (f_equal fst) in H. simpl in H. lra.
  - apply (angle_calc_defined (3, 4) (3, 4)). reflexivity.
Defined.

(** ** Direction of the contributions *)

Lemma direction_sign (p c f : vec) (k : R) :
  p <> c ->
  fst f = k * (fst c - fst p) -> snd f = k * (snd c - snd p) ->
  (attractive p c f <-> 0 < k) /\ (repulsive p c f <-> k < 0).
Proof.
  intros Hpc Hx Hy.
  assert (Hne : fst c - fst p <> 0 \/ snd c - snd p <> 0).
  { destruct (Req_dec_T (fst c - fst p) 0) as [E1 | N1]; [| now left].
    destruct (Req_dec_T (snd c - snd p) 0) as [E2 | N2]; [| now right].
    exfalso. apply Hpc. destruct p, c. simpl in *. f_equal; lra. }
  split; split.
  - intros (l & Hl & Hlx & Hly).
    assert (k = l); [| lra].
    destruct Hne as [N | N].
    + apply (Rmult_eq_reg_r (fst c - fst p)); [lra | exact N].
    + apply (Rmult_eq_reg_r (snd c - snd p)); [lra | exact N].
  - intros Hk. exists k. auto.
  - intros (l & Hl & Hlx & Hly).
    assert (k = - l); [| lra].
    destruct Hne as [N | N].
    + apply (Rmult_eq_reg_r (fst c - fst p)); [lra | exact N].
    + apply (Rmult_eq_reg_r (snd c - snd p)); [lra | exact N].
  - intros Hk. exists (- k). repeat split; lra.
Qed.

Section Resolve.

Variables p c : vec.
Hypothesis Hpc : p <> c.

Let d : R := hyp_calc p c.
Let angle : R := asin ((snd p - snd c) / d).

Lemma abs_sin_angle (m : R) :
  Rabs (sin angle * m) = Rabs (snd p - snd c) / d * Rabs m.
Proof.
  unfold angle, d. rewrite sin_asin by now apply sine_ratio_bounds.
  assert (Hd := hyp_calc_pos p c Hpc).
  rewrite Rabs_mult. unfold Rdiv at 1. rewrite Rabs_mult.
  rewrite (Rabs_pos_eq (/ hyp_calc p c)).
  - reflexivity.
  - left. now apply Rinv_0_lt_compat.
Qed.

Lemma abs_cos_angle (m : R) :
  Rabs (cos angle * m) = Rabs (fst p - fst c) / d * Rabs m.
Proof.
  unfold angle. rewrite cos_asin by now apply sine_ratio_bounds.
  assert (Hd : 0 < d) by now apply hyp_calc_pos.
  assert (Hs : d ^ 2 = (fst p - fst c) ^ 2 + (snd p - snd c) ^ 2)
    by apply hyp_calc_sqr.
  assert (Hroot : sqrt (1 - ((snd p - snd c) / d)²)
                  = Rabs (fst p - fst c) / d).
  { apply sqrt_lem_1.
    - assert (Hq := sine_ratio_bounds p c Hpc). fold d in Hq.
      unfold Rsqr. nra.
    - apply Rmult_le_pos; [apply Rabs_pos | left; now apply Rinv_0_lt_compat].
    - unfold Rsqr.
      replace (Rabs (fst p - fst c) / d * (Rabs (fst p - fst c) / d))
        with (Rabs (fst p - fst c) ^ 2 / d ^ 2) by (field; lra).
      rewrite pow2_abs.
      replace ((fst p - fst c) ^ 2) with (d ^ 2 - (snd p - snd c) ^ 2) by lra.
      field. lra. }
  rewrite Hroot, Rabs_mult. f_equal.
  apply Rabs_pos_eq.
  apply Rmult_le_pos; [apply Rabs_pos | left; now apply Rinv_0_lt_compat].
Qed.

End Resolve.

Lemma axis_toward (a b t w : R) :
  (if Rgtb a b then t - Rabs (a - b) / w else t + Rabs (a - b) / w) - t
  = (b - a) / w.
Proof.
  unfold Rgtb, Rltb, Rdiv.
  destruct (Rlt_dec b a).
  - rewrite Rabs_pos_eq by lra. ring.
  - rewrite Rabs_left1 by lra. ring.
Qed.

Lemma axis_away (a b t w : R) :
  (if Rgtb a b then t + Rabs (a - b) / w else t - Rabs (a - b) / w) - t
  = (a - b) / w.
Proof.
  unfold Rgtb, Rltb, Rdiv.
  destruct (Rlt_dec b a).
  - rewrite Rabs_pos_eq by lra. ring.
  - rewrite Rabs_left1 by lra. ring.
Qed.

Lemma resolve_contribution (attraction : bool) (m : R) (p c total : vec) :
  p <> c ->
  let k := (if attraction then 1 else -1) * (Rabs m / hyp_calc p c) in
  let after :=
    resolve attraction (asin ((snd p - snd c) / hyp_calc p c)) m p c total in
  fst (contribution total after) = k * (fst c - fst p)
  /\ snd (contribution total after) = k * (snd c - snd p).
Proof.
  intros Hpc k after. unfold after, k, resolve, contribution.
  rewrite (abs_cos_angle p c Hpc), (abs_sin_angle p c Hpc).
  assert (Hd := hyp_calc_pos p c Hpc).
  set (d := hyp_calc p c) in *.
  assert (Hx := axis_toward (fst p) (fst c) (fst total) d).
  assert (Hy := axis_toward (snd p) (snd c) (snd total) d).
  assert (Hx' := axis_away (fst p) (fst c) (fst total) d).
  assert (Hy' := axis_away (snd p) (snd c) (snd total) d).
  destruct attraction;
    destruct (Rgtb (fst p) (fst c));
    destruct (Rgtb (snd p) (snd c));
    simpl; split.
  all: try (replace (fst total - Rabs (fst p - fst c) / d * Rabs m - fst total)
             with ((fst total - Rabs (fst p - fst c) / d - fst total) * Rabs m)
             by ring).
  all: try (replace (fst total + Rabs (fst p - fst c) / d * Rabs m - fst total)
             with ((fst total + Rabs (fst p - fst c) / d - fst total) * Rabs m)
             by ring).
  all: try (replace (snd total - Rabs (snd p - snd c) / d * Rabs m - snd total)
             with ((snd total - Rabs (snd p - snd c) / d - snd total) * Rabs m)
             by ring).
  all: try (replace (snd total + Rabs (snd p - snd c) / d * Rabs m - snd total)
             with ((snd total + Rabs (snd p - snd c) / d - snd total) * Rabs m)
             by ring).
  all: rewrite ?Hx, ?Hy, ?Hx', ?Hy'; field; lra.
Qed.

Lemma gravitational_ok (particle1 particle2 : StationaryCharge.t) :
  StationaryCharge.position particle1 <> StationaryCharge.position particle2 ->
  exists D : R,
    0 < D
    /\ gravitational_force_calc particle1 particle2
       = Ok (2 / 100 * IZR (StationaryCharge.mass particle1)
               * IZR (StationaryCharge.mass particle2) / D).
Proof.
  intros Hpos. apply hyp_calc_pos in Hpos.
  destruct (Rlt_dec (hyp_calc (StationaryCharge.position particle1)
                              (StationaryCharge.position particle2))
                    (IZR (4 * StationaryCharge.radius particle1))) as [Hlt | Hge].
  - eexists. split; [| now apply gravitational_below].
    apply pow_lt. lra.
  - eexists. split; [| apply gravitational_above; lra].
    apply pow_lt. lra.
Qed.

Lemma electrostatic_ok (particle1 particle2 : StationaryCharge.t) :
  StationaryCharge.position particle1 <> StationaryCharge.position particle2 ->
  exists D : R,
    0 < D
    /\ electrostatic_force_calc particle1 particle2
       = Ok (20 * Rabs (IZR (StationaryCharge.charge particle1))
                * Rabs (IZR (StationaryCharge.charge particle2)) / D).
Proof.
  intros Hpos. apply hyp_calc_pos in Hpos.
  destruct (Rlt_dec (hyp_calc (StationaryCharge.position particle1)
                              (StationaryCharge.position particle2))
                    (IZR (4 * StationaryCharge.radius particle1))) as [Hlt | Hge].
  - eexists. split; [| now apply electrostatic_below].
    apply pow_lt. lra.
  - eexists. split; [| apply electrostatic_above; lra].
    apply pow_lt. lra.
Qed.

(** The flag computed for the electrostatic force. *)
Lemma attraction_flag (q1 q2 : Z) :
  negb ((q1 >? 0)%Z && (q2 >? 0)%Z || (q1 <? 0)%Z && (q2 <? 0)%Z) = false
  <-> like_sign q1 q2.
Proof.
  unfold like_sign.
  rewrite negb_false_iff, orb_true_iff, !andb_true_iff.
  rewrite !Z.gtb_ltb, !Z.ltb_lt. tauto.
Qed.

Lemma Rabs_IZR_pos (q : Z) : 0 < Rabs (IZR q) <-> q <> 0%Z.
Proof.
  split.
  - intros H Hq. subst q. rewrite Rabs_R0 in H. lra.
  - intros Hq. apply Rabs_pos_lt. now apply not_0_IZR.
Qed.

Lemma electrostatic_strength (q1 q2 : Z) (D : R) :
  0 < D ->
  0 < Rabs (20 * Rabs (IZR q1) * Rabs (IZR q2) / D)
  <-> (q1 <> 0 /\ q2 <> 0)%Z.
Proof.
  intros HD.
  assert (H1 := Rabs_pos (IZR q1)). assert (H2 := Rabs_pos (IZR q2)).
  assert (HD' : 0 < / D) by now apply Rinv_0_lt_compat.
  rewrite Rabs_pos_eq.
  - rewrite <- !Rabs_IZR_pos. unfold Rdiv. split.
    + intros H. split.
      * destruct H1 as [H1 | H1]; [exact H1 |]. rewrite <- H1 in H. lra.
      * destruct H2 as [H2 | H2]; [exact H2 |]. rewrite <- H2 in H. lra.
    + intros [Ha Hb].
      apply Rmult_lt_0_compat; [| exact HD'].
      apply Rmult_lt_0_compat; [lra | exact Hb].
  - unfold Rdiv. apply Rmult_le_pos; [| lra].
    apply Rmult_le_pos; [lra | exact H2].
Qed.

Lemma gravitational_strength (m1 m2 : Z) (D : R) :
  0 < D -> m1 <> 0%Z -> m2 <> 0%Z ->
  0 < Rabs (2 / 100 * IZR m1 * IZR m2 / D).
Proof.
  intros HD H1 H2. apply Rabs_pos_lt.
  apply not_0_IZR in H1, H2.
  unfold Rdiv. repeat apply Rmult_integral_contrapositive_currified;
    try lra.
  apply Rinv_neq_0_compat. lra.
Qed.

Lemma net_force_body_gravitational (primary_charge : DynamicCharge.t)
    (total : vec) (charge : StationaryCharge.t) :
  DynamicCharge.position primary_charge <> StationaryCharge.position charge ->
  exists D : R,
    0 < D
    /\ net_force_body "gravitational" primary_charge total charge
       = Ok (resolve true
               (asin ((snd (DynamicCharge.position primary_charge)
                       - snd (StationaryCharge.position charge))
                      / hyp_calc (DynamicCharge.position primary_charge)
                                 (StationaryCharge.position charge)))
               (2 / 100 * IZR (DynamicCharge.mass primary_charge)
                  * IZR (StationaryCharge.mass charge) / D)
               (DynamicCharge.position primary_charge)
               (StationaryCharge.position charge) total).
Proof.
  intros Hpos.
  destruct (gravitational_ok (DynamicCharge.upcast primary_charge) charge Hpos)
    as (D & HD & Hg).
  exists D. split; [exact HD |].
  unfold net_force_body. rewrite (angle_calc_ok _ _ Hpos).
  unfold magnitude_and_attraction.
  change ("gravitational" =? "gravitational")%string with true.
  cbv iota. rewrite Hg. reflexivity.
Qed.

Lemma net_force_body_electrostatic (primary_charge : DynamicCharge.t)
    (total : vec) (charge : StationaryCharge.t) :
  DynamicCharge.position primary_charge <> StationaryCharge.position charge ->
  exists D : R,
    0 < D
    /\ net_force_body "electrostatic" primary_charge total charge
       = Ok (resolve
               (negb ((DynamicCharge.charge primary_charge >? 0)%Z
                      && (StationaryCharge.charge charge >? 0)%Z
                      || (DynamicCharge.charge primary_charge <? 0)%Z
                         && (StationaryCharge.charge charge <? 0)%Z))
               (asin ((snd (DynamicCharge.position primary_charge)
                       - snd (StationaryCharge.position charge))
                      / hyp_calc (DynamicCharge.position primary_charge)
                                 (StationaryCharge.position charge)))
               (20 * Rabs (IZR (DynamicCharge.charge primary_charge))
                   * Rabs (IZR (StationaryCharge.charge charge)) / D)
               (DynamicCharge.position primary_charge)
               (StationaryCharge.position charge) total).
Proof.
  intros Hpos.
  destruct (electrostatic_ok (DynamicCharge.upcast primary_charge) charge Hpos)
    as (D & HD & He).
  exists D. split; [exact HD |].
  unfold net_force_body. rewrite (angle_calc_ok _ _ Hpos).
  unfold magnitude_and_attraction.
  change ("electrostatic" =? "gravitational")%string with false.
  change ("electrostatic" =? "electrostatic")%string with true.
  cbv iota. rewrite He. reflexivity.
Qed.

Lemma net_force_body_ok_electrostatic (primary_charge : DynamicCharge.t)
    (total : vec) (charge : StationaryCharge.t) :
  DynamicCharge.position primary_charge <> StationaryCharge.position charge ->
  exists after : vec,
    net_force_calc "electrostatic" primary_charge [charge] = Ok after.
Proof.
  intros Hpos.
  destruct (net_force_body_electrostatic primary_charge (0, 0) charge Hpos)
    as (D & _ & H).
  eexists. unfold net_force_calc. cbn [for_each]. rewrite H. reflexivity.
Qed.

(** The direction of what one pass of the loop adds to the total. *)
Lemma net_force_body_direction (primary_charge : DynamicCharge.t)
    (charge : StationaryCharge.t) (total : vec) :
  DynamicCharge.position primary_charge <> StationaryCharge.position charge ->
  (exists after : vec,
      net_force_body "gravitational" primary_charge total charge = Ok after
      /\ ~ repulsive (DynamicCharge.position primary_charge)
                     (StationaryCharge.position charge)
                     (contribution total after)
      /\ (DynamicCharge.mass primary_charge <> 0%Z ->
          StationaryCharge.mass charge <> 0%Z ->
          attractive (DynamicCharge.position primary_charge)
                     (StationaryCharge.position charge)
                     (contribution total after)))
  /\ (exists after : vec,
         net_force_body "electrostatic" primary_charge total charge = Ok after
         /\ (attractive (DynamicCharge.position primary_charge)
                        (StationaryCharge.position charge)
                        (contribution total after)
             <-> opposite_sign (DynamicCharge.charge primary_charge)
                               (StationaryCharge.charge charge))
         /\ (repulsive (DynamicCharge.position primary_charge)
                       (StationaryCharge.position charge)
                       (contribution total after)
             <-> like_sign (DynamicCharge.charge primary_charge)
                           (StationaryCharge.charge charge))).
Proof.
  intros Hpos.
  assert (Hd := hyp_calc_pos _ _ Hpos).
  split.
  - destruct (net_force_body_gravitational primary_charge total charge Hpos)
      as (D & HD & Hbody).
    eexists. split; [exact Hbody |].
    destruct (resolve_contribution true
                (2 / 100 * IZR (DynamicCharge.mass primary_charge)
                   * IZR (StationaryCharge.mass charge) / D)
                _ _ total Hpos) as [Hx Hy].
    destruct (direction_sign _ _ _ _ Hpos Hx Hy) as [Hatt Hrep].
    split.
    + rewrite Hrep.
      assert (H := Rabs_pos (2 / 100 * IZR (DynamicCharge.mass primary_charge)
                               * IZR (StationaryCharge.mass charge) / D)).
      assert (0 <= Rabs (2 / 100 * IZR (DynamicCharge.mass primary_charge)
                           * IZR (StationaryCharge.mass charge) / D)
                   / hyp_calc (DynamicCharge.position primary_charge)
                              (StationaryCharge.position charge)).
      { apply Rmult_le_pos; [exact H |].
        left. now apply Rinv_0_lt_compat. }
      lra.
    + intros Hm1 Hm2. apply Hatt.
      assert (H := gravitational_strength _ _ D HD Hm1 Hm2).
      rewrite Rmult_1_l. now apply Rdiv_lt_0_compat.
  - destruct (net_force_body_electrostatic primary_charge total charge Hpos)
      as (D & HD & Hbody).
    eexists. split; [exact Hbody |].
    set (qp := DynamicCharge.charge primary_charge) in *.
    set (qc := StationaryCharge.charge charge) in *.
    assert (Hs := electrostatic_strength qp qc D HD).
    assert (Hnn := Rabs_pos (20 * Rabs (IZR qp) * Rabs (IZR qc) / D)).
    assert (Hflag := attraction_flag qp qc).
    destruct (negb ((qp >? 0)%Z && (qc >? 0)%Z || (qp <? 0)%Z && (qc <? 0)%Z))
      eqn:Eflag.
    + assert (Hlike : ~ like_sign qp qc).
      { intros H. apply Hflag in H. discriminate. }
      destruct (resolve_contribution true
                  (20 * Rabs (IZR qp) * Rabs (IZR qc) / D) _ _ total Hpos)
        as [Hx Hy].
      destruct (direction_sign _ _ _ _ Hpos Hx Hy) as [Hatt Hrep].
      rewrite Hatt, Hrep, Rmult_1_l. split.
      * split.
        -- intros Hk.
           assert (Hne : (qp <> 0 /\ qc <> 0)%Z).
           { apply Hs.
             destruct Hnn as [Hnn | Hnn]; [exact Hnn |].
             rewrite <- Hnn in Hk. unfold Rdiv in Hk. lra. }
           unfold like_sign in Hlike. unfold opposite_sign. lia.
        -- intros Hopp. apply Rdiv_lt_0_compat; [| exact Hd].
           apply Hs. unfold opposite_sign in Hopp. lia.
      * split; [| intros H; contradiction].
        intros Hk. exfalso.
        assert (0 <= Rabs (20 * Rabs (IZR qp) * Rabs (IZR qc) / D)
                     / hyp_calc (DynamicCharge.position primary_charge)
                                (StationaryCharge.position charge)).
        { apply Rmult_le_pos; [exact Hnn |]. left. now apply Rinv_0_lt_compat. }
        lra.
    + assert (Hlike : like_sign qp qc) by now apply Hflag.
      destruct (resolve_contribution false
                  (20 * Rabs (IZR qp) * Rabs (IZR qc) / D) _ _ total Hpos)
        as [Hx Hy].
      destruct (direction_sign _ _ _ _ Hpos Hx Hy) as [Hatt Hrep].
      rewrite Hatt, Hrep.
      assert (Hk : 0 < Rabs (20 * Rabs (IZR qp) * Rabs (IZR qc) / D)
                       / hyp_calc (DynamicCharge.position primary_charge)
                                  (StationaryCharge.position charge)).
      { apply Rdiv_lt_0_compat; [| exact Hd].
        apply Hs. unfold like_sign in Hlike. lia. }
      split.
      * split.
        -- intros H. lra.
        -- intros Hopp. exfalso.
           unfold like_sign in Hlike. unfold opposite_sign in Hopp. lia.
      * split; [intros _; exact Hlike | intros _; lra].
Qed.

(** C4.  In the aggregation of [net_force_calc], a stationary charge (at a
    position other than the particle's) that comes behind the charges
    [before] changes the result by its contribution: the gravitational
    contribution is never repulsive and is attractive when both masses are
    not zero; the electrostatic contribution is attractive exactly when the
    two charges have opposite signs and repulsive exactly when they have
    like signs.  For a single charge the net electrostatic force itself is
    attractive or repulsive in this way. *)
Theorem net_force_direction (primary_charge : DynamicCharge.t)
    (before : list StationaryCharge.t) (charge : StationaryCharge.t) :
  DynamicCharge.position primary_charge <> StationaryCharge.position charge ->
  (forall total : vec,
      net_force_calc "gravitational" primary_charge before = Ok total ->
      exists after : vec,
        net_force_calc "gravitational" primary_charge (before ++ [charge])
        = Ok after
        /\ ~ repulsive (DynamicCharge.position primary_charge)
                       (StationaryCharge.position charge)
                       (contribution total after)
        /\ (DynamicCharge.mass primary_charge <> 0%Z ->
            StationaryCharge.mass charge <> 0%Z ->
            attractive (DynamicCharge.position primary_charge)
                       (StationaryCharge.position charge)
                       (contribution total after)))
  /\ (forall total : vec,
         net_force_calc "electrostatic" primary_charge before = Ok total ->
         exists after : vec,
           net_force_calc "electrostatic" primary_charge (before ++ [charge])
           = Ok after
           /\ (attractive (DynamicCharge.position primary_charge)
                          (StationaryCharge.position charge)
                          (contribution total after)
               <-> opposite_sign (DynamicCharge.charge primary_charge)
                                 (StationaryCharge.charge charge))
           /\ (repulsive (DynamicCharge.position primary_charge)
                         (StationaryCharge.position charge)
                         (contribution total after)
               <-> like_sign (DynamicCharge.charge primary_charge)
                             (StationaryCharge.charge charge)))
  /\ (exists force : vec,
         net_force_calc "electrostatic" primary_charge [charge] = Ok force
         /\ (attractive (DynamicCharge.position primary_charge)
                        (StationaryCharge.position charge) force
             <-> opposite_sign (DynamicCharge.charge primary_charge)
                               (StationaryCharge.charge charge))
         /\ (repulsive (DynamicCharge.position primary_charge)
                       (StationaryCharge.position charge) force
             <-> like_sign (DynamicCharge.charge primary_charge)
                           (StationaryCharge.charge charge))).
Proof.
  intros Hpos. split; [| split].
  - intros total Hbefore.
    destruct (net_force_body_direction primary_charge charge total Hpos)
      as [(after & Hbody & Hrest) _].
    exists after. split; [| exact Hrest].
    rewrite net_force_calc_app, Hbefore. exact Hbody.
  - intros total Hbefore.
    destruct (net_force_body_direction primary_charge charge total Hpos)
      as [_ (after & Hbody & Hrest)].
    exists after. split; [| exact Hrest].
    rewrite net_force_calc_app, Hbefore. exact Hbody.
  - destruct (net_force_body_direction primary_charge charge (0, 0) Hpos)
      as [_ (force & Hbody & Hatt & Hrep)].
    exists force.
    split; [unfold net_force_calc; cbn [for_each]; now rewrite Hbody |].
    assert (Hsame : forall P : vec -> Prop,
               (forall f g : vec, fst f = fst g -> snd f = snd g -> P f -> P g) ->
               (P (contribution (0, 0) force) <-> P force)).
    { intros P HP. split; apply HP; unfold contribution; cbn [fst snd]; ring. }
    split.
    + rewrite <- Hatt. symmetry. apply Hsame.
      intros f g Hx Hy (l & Hl & Hfx & Hfy). exists l. rewrite <- Hx, <- Hy.
      auto.
    + rewrite <- Hrep. symmetry. apply Hsame.
      intros f g Hx Hy (l & Hl & Hfx & Hfy). exists l. rewrite <- Hx, <- Hy.
      auto.
Qed.

Lemma net_force_direction_witness :
  exists total after : vec,
    net_force_calc "electrostatic" DynamicCharge.init
                   [StationaryCharge.init (-1) (20, 300)] = Ok total
    /\ net_force_calc "electrostatic" DynamicCharge.init
                      ([StationaryCharge.init (-1) (20, 300)]
                       ++ [StationaryCharge.init 1 (100, 300)]) = Ok after
    /\ repulsive (DynamicCharge.position DynamicCharge.init) (100, 300)
                 (contribution total after).
Proof.
  assert (H20 : DynamicCharge.position DynamicCharge.init
                <> StationaryCharge.position
                     (StationaryCharge.init (-1) (20, 300))).
  { simpl. intros H. apply (f_equal fst) in H. simpl in H. lra. }
  assert (H100 : DynamicCharge.position DynamicCharge.init
                 <> StationaryCharge.position
                      (StationaryCharge.init 1 (100, 300))).
  { simpl. intros H. apply (f_equal fst) in H. simpl in H. lra. }
  destruct (net_force_body_ok_electrostatic DynamicCharge.init (0, 0)
              (StationaryCharge.init (-1) (20, 300)) H20) as (total & Htotal).
  destruct (net_force_direction DynamicCharge.init
              [StationaryCharge.init (-1) (20, 300)]
              (StationaryCharge.init 1 (100, 300)) H100)
    as (_ & Helec & _).
  destruct (Helec total Htotal) as (after & Hafter & _ & Hrep).
  exists total, after. split; [exact Htotal |]. split; [exact Hafter |].
  apply Hrep. left. simpl. lia.
Defined.

(** ** Sliders *)

Lemma round_div_bounds (n d lo hi : Z) :
  (0 < d)%Z -> (lo * d <= n <= hi * d)%Z ->
  (lo <= round_div n d <= hi)%Z.
Proof.
  intros Hd [Hlo Hhi]. unfold round_div.
  replace (d <? 0)%Z with false by (symmetry; apply Z.ltb_ge; lia).
  rewrite (Z.abs_eq d) by lia.
  assert (Hdiv := Z.div_mod n d ltac:(lia)).
  assert (Hmod := Z.mod_pos_bound n d Hd).
  set (q := (n / d)%Z) in *. set (r := (n mod d)%Z) in *.
  assert (lo <= q)%Z by nia.
  assert (q <= hi)%Z by nia.
  destruct (2 * r <? d)%Z eqn:E1; [lia |].
  apply Z.ltb_ge in E1.
  assert (q + 1 <= hi)%Z by nia.
  destruct (d <? 2 * r)%Z; [lia |].
  destruct (Z.even q); lia.
Qed.

Lemma get_val_bounds (w : Slider.t) :
  (0 < Slider.width w)%Z ->
  (start (Slider.domain w) <= stop (Slider.domain w))%Z ->
  on_track w ->
  exists v : Z,
    Slider.get_val w = Ok v
    /\ (start (Slider.domain w) <= v <= stop (Slider.domain w))%Z.
Proof.
  intros Hw Hdom Htrack. unfold on_track in Htrack. unfold Slider.get_val.
  replace (Slider.width w =? 0)%Z with false by (symmetry; apply Z.eqb_neq; lia).
  eexists. split; [reflexivity |].
  assert (H := round_div_bounds
                 ((stop (Slider.domain w) - start (Slider.domain w))
                  * (Slider.current_position w - fst (Slider.position w)))
                 (Slider.width w) 0
                 (stop (Slider.domain w) - start (Slider.domain w)) Hw).
  assert (0 * Slider.width w
          <= (stop (Slider.domain w) - start (Slider.domain w))
             * (Slider.current_position w - fst (Slider.position w))
          <= (stop (Slider.domain w) - start (Slider.domain w)) * Slider.width w)%Z
    by nia.
  lia.
Qed.

Lemma get_val_of (w0 w : Slider.t) :
  (0 < Slider.width w0)%Z ->
  (start (Slider.domain w0) <= stop (Slider.domain w0))%Z ->
  slider_of w0 w ->
  exists v : Z,
    Slider.get_val w = Ok v
    /\ (start (Slider.domain w0) <= v <= stop (Slider.domain w0))%Z.
Proof.
  intros Hw Hdom (_ & Hwidth & Hd & _ & Htrack).
  rewrite <- Hwidth in Hw. rewrite <- Hd in Hdom |- *.
  now apply get_val_bounds.
Qed.

Lemma slider_of_clicked (w0 w : Slider.t) (b : bool) :
  slider_of w0 w -> slider_of w0 (Slider.with_clicked w b).
Proof. intros H. exact H. Qed.

Lemma slider_of_drag (w0 w : Slider.t) (pos : Z * Z) :
  slider_of w0 w -> slider_of w0 (Slider.drag w pos).
Proof.
  intros H. unfold Slider.drag.
  destruct (Slider.clicked w); simpl; [| exact H].
  destruct (fst (Slider.position w) <=? fst pos)%Z eqn:E1; simpl; [| exact H].
  destruct (fst pos <=? fst (Slider.position w) + Slider.width w)%Z eqn:E2;
    simpl; [| exact H].
  apply Z.leb_le in E1, E2.
  destruct H as (Hp & Hw & Hd & Hr & Ht).
  repeat split; simpl; try assumption; lia.
Qed.

(** ** Well-formed states are preserved *)

Lemma for_each_invariant {A S : Type} (P : S -> Prop)
    (body : S -> A -> result S) :
  (forall s x s', body s x = Ok s' -> P s -> P s') ->
  forall (l : list A) (s s' : S), for_each body l s = Ok s' -> P s -> P s'.
Proof.
  intros Hbody l. induction l as [| x l IH]; intros s s' H Hs; simpl in H.
  - now inversion H; subst.
  - destruct (body s x) as [s1 | e] eqn:E; simpl in H; [| discriminate].
    apply (IH s1 s' H). now apply (Hbody s x).
Qed.

Lemma well_formed_initial : well_formed initial_state.
Proof.
  constructor; simpl; try lia; try constructor;
    repeat split; unfold on_track; simpl; lia.
Qed.

Lemma wf_set_play (s : state) (b : bool) :
  well_formed s -> well_formed (set_play s b).
Proof. intros []. now constructor. Qed.

Lemma wf_set_run (s : state) (b : bool) :
  well_formed s -> well_formed (set_run s b).
Proof. intros []. now constructor. Qed.

Lemma wf_set_g_force (s : state) (f : list R) :
  well_formed s -> well_formed (set_g_force s f).
Proof. intros []. now constructor. Qed.

Lemma wf_set_e_force (s : state) (f : list R) :
  well_formed s -> well_formed (set_e_force s f).
Proof. intros []. now constructor. Qed.

Lemma wf_set_charges (s : state) (l : list StationaryCharge.t) :
  Forall placed l -> well_formed s -> well_formed (set_charges s l).
Proof. intros Hl []. now constructor. Qed.

Lemma wf_set_level_slider (s : state) (w : Slider.t) :
  slider_of level_slider_init w -> well_formed s ->
  well_formed (set_level_slider s w).
Proof. intros Hw []. now constructor. Qed.

Lemma wf_set_mass_slider (s : state) (w : Slider.t) :
  slider_of mass_slider_init w -> well_formed s ->
  well_formed (set_mass_slider s w).
Proof. intros Hw []. now constructor. Qed.

Lemma wf_set_charge_slider (s : state) (w : Slider.t) :
  slider_of charge_slider_init w -> well_formed s ->
  well_formed (set_charge_slider s w).
Proof. intros Hw []. now constructor. Qed.

Lemma wf_set_active_level (s : state) (n : Z) :
  (0 <= n <= 3)%Z -> well_formed s -> well_formed (set_active_level s n).
Proof. intros Hn []. now constructor. Qed.

Lemma wf_set_primary_charge (s : state) (p : DynamicCharge.t) :
  (1 <= DynamicCharge.mass p <= 100)%Z ->
  (-25 <= DynamicCharge.charge p <= 25)%Z ->
  DynamicCharge.radius p = 10%Z ->
  well_formed s -> well_formed (set_primary_charge s p).
Proof. intros Hm Hq Hr []. now constructor. Qed.

Lemma wf_reset (s : state) :
  well_formed s ->
  well_formed (set_primary_charge s (DynamicCharge.reset (primary_charge s))).
Proof. intros H. destruct H. now apply wf_set_primary_charge; [| | | constructor]. Qed.

Lemma wf_cond (c : bool) (s1 s2 : state) :
  well_formed s1 -> well_formed s2 -> well_formed (if c then s1 else s2).
Proof. now destruct c. Qed.

Lemma placed_init (pos : vec) :
  placed (StationaryCharge.init 1 pos) /\ placed (StationaryCharge.init (-1) pos).
Proof. unfold placed. simpl. auto. Qed.

Lemma remove_fallen_placed (l : list StationaryCharge.t) :
  Forall placed l -> Forall placed (remove_fallen l).
Proof.
  assert (H : forall (n : nat) (l : list StationaryCharge.t),
             (List.length l <= n)%nat ->
             Forall placed l -> Forall placed (remove_fallen l)).
  { intros n. induction n as [| n IH]; intros l' Hlen Hl.
    - destruct l'; [constructor | simpl in Hlen; lia].
    - destruct l' as [| c rest]; [constructor |].
      simpl in Hlen. inversion Hl as [| ? ? Hc Hrest]; subst. simpl.
      destruct (_ && _).
      + destruct rest as [| next rest']; [constructor |].
        inversion Hrest; subst. constructor; [assumption |].
        apply IH; [simpl in Hlen; lia | assumption].
      + constructor; [assumption |]. apply IH; [lia | assumption]. }
  apply (H (List.length l)). lia.
Qed.

Lemma home_event_well_formed (s : state) (ev : event) (s' : state) :
  home_event s ev = Ok s' -> well_formed s -> well_formed s'.
Proof.
  intros H Hs. assert (Hl := wf_level_slider s Hs).
  destruct ev as [| pos button | pos button | pos |]; simpl in H.
  - discriminate.
  - destruct (button =? 1)%Z; [| now inversion H; subst].
    destruct (Button.detect_click play_button pos).
    + destruct (get_val_of level_slider_init (level_slider s)) as (v & Hv & Hb);
        [simpl; lia | simpl; lia | exact Hl |].
      rewrite Hv in H. simpl in H. inversion H; subst.
      apply wf_set_play, wf_set_active_level; [exact Hb | exact Hs].
    + destruct (Button.detect_click quit_button pos); [discriminate |].
      destruct (Slider.detect_click (level_slider s) pos);
        inversion H; subst; [| exact Hs].
      apply wf_set_level_slider; [now apply slider_of_clicked | exact Hs].
  - inversion H; subst.
    apply wf_set_level_slider; [now apply slider_of_clicked | exact Hs].
  - inversion H; subst.
    apply wf_set_level_slider; [now apply slider_of_drag | exact Hs].
  - now inversion H; subst.
Qed.

Lemma block_invariant (P : state -> Prop) (statements : list (state -> state)) :
  Forall (fun statement => forall s, P s -> P (statement s)) statements ->
  forall s : state, P s -> P (block statements s).
Proof.
  unfold block. induction 1 as [| statement l Hst _ IH]; intros s Hs; simpl.
  - exact Hs.
  - apply IH, Hst, Hs.
Qed.

Lemma left_click_well_formed (pos : Z * Z) (s : state) :
  well_formed s -> well_formed (left_click pos s).
Proof.
  apply block_invariant. clear s.
  repeat apply Forall_cons; try apply Forall_nil; intros s Hs.
  - apply wf_set_charges; [| exact Hs].
    apply Forall_map. eapply Forall_impl; [| exact (wf_charges s Hs)].
    intros c Hc. now destruct (StationaryCharge.detect_click c pos).
  - apply wf_cond; [| exact Hs]. apply wf_set_charges; [| exact Hs].
    apply Forall_app. split; [exact (wf_charges s Hs) |].
    constructor; [apply placed_init | constructor].
  - apply wf_cond; [| exact Hs]. apply wf_set_charges; [| exact Hs].
    apply Forall_app. split; [exact (wf_charges s Hs) |].
    constructor; [apply placed_init | constructor].
  - apply wf_cond; [| exact Hs]. now apply wf_set_run.
  - apply wf_cond; [| exact Hs]. apply wf_set_mass_slider; [| exact Hs].
    apply slider_of_clicked, (wf_mass_slider s Hs).
  - apply wf_cond; [| exact Hs]. apply wf_set_charge_slider; [| exact Hs].
    apply slider_of_clicked, (wf_charge_slider s Hs).
  - apply wf_cond; [| exact Hs]. now apply wf_set_play, wf_set_run, wf_reset.
  - apply wf_cond; [| exact Hs]. now apply wf_set_run, wf_reset.
  - apply wf_cond; [| exact Hs]. apply wf_set_charges; [constructor | exact Hs].
Qed.

Lemma release_well_formed (s : state) :
  well_formed s -> well_formed (release s).
Proof.
  apply block_invariant. clear s.
  repeat apply Forall_cons; try apply Forall_nil; intros s Hs.
  - apply wf_set_charges; [| exact Hs].
    apply Forall_map. eapply Forall_impl; [| exact (wf_charges s Hs)].
    intros c Hc. exact Hc.
  - apply wf_set_mass_slider; [| exact Hs].
    apply slider_of_clicked, (wf_mass_slider s Hs).
  - apply wf_set_charge_slider; [| exact Hs].
    apply slider_of_clicked, (wf_charge_slider s Hs).
Qed.

Lemma motion_well_formed (pos : Z * Z) (s : state) :
  well_formed s -> well_formed (motion pos s).
Proof.
  apply block_invariant. clear s.
  repeat apply Forall_cons; try apply Forall_nil; intros s Hs.
  - apply wf_set_charges; [| exact Hs].
    apply Forall_map. eapply Forall_impl; [| exact (wf_charges s Hs)].
    intros c Hc. now destruct (StationaryCharge.clicked c).
  - apply wf_set_mass_slider; [| exact Hs].
    apply slider_of_drag, (wf_mass_slider s Hs).
  - apply wf_set_charge_slider; [| exact Hs].
    apply slider_of_drag, (wf_charge_slider s Hs).
Qed.

Lemma game_event_well_formed (s : state) (ev : event) (s' : state) :
  game_event s ev = Ok s' -> well_formed s -> well_formed s'.
Proof.
  intros H Hs.
  destruct ev as [| pos button | pos button | pos |]; simpl in H.
  - discriminate.
  - destruct (button =? 1)%Z; inversion H; subst;
      [now apply left_click_well_formed | exact Hs].
  - inversion H; subst. now apply release_well_formed.
  - inversion H; subst. now apply motion_well_formed.
  - now inversion H; subst.
Qed.

Lemma integrate_well_formed (s s' : state) :
  integrate s = Ok s' -> well_formed s -> well_formed s'.
Proof.
  unfold integrate. intros H Hs.
  destruct (run s); [| now inversion H; subst].
  destruct (net_force_calc "gravitational" _ _) as [g | e];
    cbn [rbind] in H; [| discriminate].
  cbv zeta in H.
  destruct (net_force_calc "electrostatic" _ _) as [e | e'];
    cbn [rbind] in H; [| discriminate].
  destruct (DynamicCharge.move _ _) as [p [u | x]] eqn:Em; [| discriminate].
  inversion H; subst; clear H.
  assert (Hp : p = fst (DynamicCharge.move (fst g + fst e, snd g + snd e)
                          (primary_charge s))).
  { simpl in Em. now rewrite Em. }
  destruct (move_keeps (primary_charge s) (fst g + fst e, snd g + snd e))
    as (Hq & Hm & Hr).
  rewrite <- Hp in Hq, Hm, Hr.
  apply wf_set_primary_charge.
  - rewrite Hm. apply (wf_mass s Hs).
  - rewrite Hq. apply (wf_charge s Hs).
  - rewrite Hr. apply (wf_radius s Hs).
  - now apply wf_set_e_force, wf_set_g_force.
Qed.

Lemma game_update_well_formed (s s' : state) :
  game_update s = Ok s' -> well_formed s -> well_formed s'.
Proof.
  unfold game_update. intros H Hs.
  destruct (getitem levels (active_level s)) as [obstacles | e];
    cbn [rbind] in H; [| discriminate].
  cbv zeta in H.
  destruct (integrate _) as [s1 | e] eqn:E1; cbn [rbind] in H; [| discriminate].
  assert (Hs1 : well_formed s1).
  { apply (integrate_well_formed _ _ E1).
    apply wf_set_charges.
    - apply remove_fallen_placed. simpl. apply (wf_charges s Hs).
    - now apply wf_set_run. }
  destruct (get_val_of mass_slider_init (mass_slider s1)) as (m & Hm & Hmb);
    [simpl; lia | simpl; lia | apply (wf_mass_slider s1 Hs1) |].
  rewrite Hm in H. cbn [rbind] in H.
  destruct (get_val_of charge_slider_init (charge_slider s1)) as (q & Hq & Hqb);
    [simpl; lia | simpl; lia | apply (wf_charge_slider s1 Hs1) |].
  simpl in Hmb, Hqb.
  change (charge_slider
            (set_primary_charge s1
               (DynamicCharge.with_mass (primary_charge s1) m)))
    with (charge_slider s1) in H.
  rewrite Hq in H. cbn [rbind] in H.
  inversion H; subst; clear H.
  apply wf_cond; [apply wf_set_run |];
    (apply wf_set_primary_charge;
     [ simpl; lia | simpl; lia | simpl; apply (wf_radius s1 Hs1)
     | apply wf_set_primary_charge;
       [ simpl; lia | simpl; apply (wf_charge s1 Hs1)
       | simpl; apply (wf_radius s1 Hs1) | exact Hs1 ] ]).
Qed.

Lemma iteration_well_formed (s : state) (events : list event) (s' : state) :
  iteration s events = Ok s' -> well_formed s -> well_formed s'.
Proof.
  unfold iteration. intros H Hs.
  destruct (negb (play s)).
  - revert H Hs. apply for_each_invariant. exact home_event_well_formed.
  - destruct (game_update s) as [s1 | e] eqn:E; cbn [rbind] in H; [| discriminate].
    assert (Hs1 := game_update_well_formed _ _ E Hs).
    revert H Hs1. apply for_each_invariant. exact game_event_well_formed.
Qed.

(** Every state that the game reaches is well formed. *)
Lemma game_loop_well_formed (queues : list (list event)) (s : state) :
  game_loop queues initial_state = Ok s -> well_formed s.
Proof.
  intros H.
  apply (for_each_invariant well_formed iteration iteration_well_formed
           queues initial_state s H well_formed_initial).
Qed.

Lemma levels_getitem (i : Z) :
  (0 <= i <= 3)%Z -> exists obstacles, getitem levels i = Ok obstacles.
Proof.
  intros Hi.
  assert (Hc : i = 0%Z \/ i = 1%Z \/ i = 2%Z \/ i = 3%Z) by lia.
  destruct Hc as [-> | [-> | [-> | ->]]]; eexists; reflexivity.
Qed.

(** C9.  A slider (of positive width, over a domain whose start does not
    exceed its stop) whose knob is on its track has a value between the
    start and the stop of its domain; in every state that the game reaches
    the knob of the level slider is on its track, its value is between 0
    and 3, and the active level is an index of the table of levels. *)
Theorem level_index_valid :
  (forall w : Slider.t,
      (0 < Slider.width w)%Z ->
      (start (Slider.domain w) <= stop (Slider.domain w))%Z ->
      on_track w ->
      exists v : Z,
        Slider.get_val w = Ok v
        /\ (start (Slider.domain w) <= v <= stop (Slider.domain w))%Z)
  /\ (forall (queues : list (list event)) (s : state),
         game_loop queues initial_state = Ok s ->
         on_track (level_slider s)
         /\ (exists v : Z,
                Slider.get_val (level_slider s) = Ok v /\ (0 <= v <= 3)%Z
                /\ exists obstacles, getitem levels v = Ok obstacles)
         /\ (0 <= active_level s <= 3)%Z
         /\ exists obstacles, getitem levels (active_level s) = Ok obstacles).
Proof.
  split; [exact get_val_bounds |].
  intros queues s H. apply game_loop_well_formed in H.
  assert (Hl := wf_level_slider s H).
  split; [apply Hl |].
  split.
  - destruct (get_val_of level_slider_init (level_slider s)) as (v & Hv & Hb);
      [simpl; lia | simpl; lia | exact Hl |].
    exists v. split; [exact Hv |]. split; [exact Hb |].
    apply levels_getitem, Hb.
  - split; [apply (wf_active_level s H) |].
    apply levels_getitem, (wf_active_level s H).
Qed.

Lemma level_index_valid_witness :
  (exists v : Z,
      Slider.get_val (Slider.with_current_position level_slider_init 575) = Ok v
      /\ (0 <= v <= 3)%Z)
  /\ (exists s : state,
         game_loop [[MOUSEBUTTONDOWN (525, 200)%Z 1; MOUSEMOTION (575, 200)%Z;
                     MOUSEBUTTONDOWN (540, 310)%Z 1]] initial_state = Ok s
         /\ active_level s = 2%Z
         /\ exists obstacles, getitem levels (active_level s) = Ok obstacles).
Proof.
  split.
  - apply (proj1 level_index_valid
             (Slider.with_current_position level_slider_init 575)).
    + simpl. lia.
    + simpl. lia.
    + unfold on_track. simpl. lia.
  - eexists. split; [reflexivity |]. split; [reflexivity |].
    apply (proj2 level_index_valid
             [[MOUSEBUTTONDOWN (525, 200)%Z 1; MOUSEMOTION (575, 200)%Z;
               MOUSEBUTTONDOWN (540, 310)%Z 1]]).
    reflexivity.
Defined.

(** ** The goal stops the run *)


Lemma move_ok (self : DynamicCharge.t) (force : vec) :
  DynamicCharge.mass self <> 0%Z ->
  DynamicCharge.move force self
  = (DynamicCharge.mk
       (fst (DynamicCharge.position self) + fst (DynamicCharge.velocity self),
        snd (DynamicCharge.position self) + snd (DynamicCharge.velocity self))
       (DynamicCharge.charge self) (DynamicCharge.mass self)
       (DynamicCharge.radius self) (DynamicCharge.clicked self)
       (DynamicCharge.color self)
       (fst (DynamicCharge.velocity self) + fst (DynamicCharge.acceleration self),
        snd (DynamicCharge.velocity self) + snd (DynamicCharge.acceleration self))
       (fst force / IZR (DynamicCharge.mass self),
        snd force / IZR (DynamicCharge.mass self)),
     Ok tt).
Proof.
  intros Hm.
  unfold DynamicCharge.move, mbind, assign, eval, truediv. simpl.
  destruct (Req_dec_T _ 0) as [E | _].
  - apply eq_IZR_R0 in E. contradiction.
  - reflexivity.
Qed.



(** The events handled after the goal check leave the run flag false unless
    one of them is a left click on the run button. *)
Lemma events_keep_stopped (events : list event) (s s' : state) :
  forallb (fun ev => negb (run_click ev)) events = true ->
  run s = false ->
  for_each game_event events s = Ok s' ->
  run s' = false.
Proof.
  revert s. induction events as [| ev events IH]; intros s Hev Hrun H; simpl in *.
  - now inversion H; subst.
  - apply andb_true_iff in Hev. destruct Hev as [Hev Hevs].
    destruct (game_event s ev) as [s1 | e] eqn:E; cbn [rbind] in H; [| discriminate].
    apply (IH s1 Hevs); [| exact H].
    destruct ev as [| pos button | pos button | pos |]; simpl in E.
    + discriminate.
    + simpl in Hev. destruct (button =? 1)%Z; inversion E; subst; [| exact Hrun].
      simpl in Hev. apply negb_true_iff in Hev.
      unfold left_click.
      apply (block_invariant (fun s => run s = false)); [| exact Hrun].
      repeat apply Forall_cons; try apply Forall_nil; intros s0 Hs0;
        try rewrite Hev;
        repeat match goal with
               | |- context [if ?c then _ else _] => destruct c
               end; simpl; auto.
    + inversion E; subst. unfold release.
      apply (block_invariant (fun s => run s = false)); [| exact Hrun].
      repeat apply Forall_cons; try apply Forall_nil; intros s0 Hs0; simpl; auto.
    + inversion E; subst. unfold motion.
      apply (block_invariant (fun s => run s = false)); [| exact Hrun].
      repeat apply Forall_cons; try apply Forall_nil; intros s0 Hs0; simpl; auto.
    + now inversion E; subst.
Qed.


(** * Further properties of the code *)

(** ** The distance is a metric *)

Lemma dot_le_norms (u1 u2 v1 v2 A B : R) :
  0 <= A -> 0 <= B ->
  A * A = u1 * u1 + u2 * u2 -> B * B = v1 * v1 + v2 * v2 ->
  u1 * v1 + u2 * v2 <= A * B.
Proof.
  intros HA HB HA2 HB2.
  assert (Hdet : 0 <= (u1 * v2 - u2 * v1) * (u1 * v2 - u2 * v1))
    by apply Rle_0_sqr.
  assert (Hcs : (u1 * v1 + u2 * v2) * (u1 * v1 + u2 * v2) <= (A * B) * (A * B)).
  { replace (A * B * (A * B)) with ((A * A) * (B * B)) by ring.
    rewrite HA2, HB2. lra. }
  apply Rsqr_incr_0_var; [exact Hcs | now apply Rmult_le_pos].
Qed.

(** X1.  [hyp_calc] is a distance: it is not negative, it is zero exactly
    for equal points, it does not depend on the order of its arguments, and
    it satisfies the triangle inequality. *)
Theorem hyp_calc_metric (a b c : vec) :
  0 <= hyp_calc a b
  /\ (hyp_calc a b = 0 <-> a = b)
  /\ hyp_calc a b = hyp_calc b a
  /\ hyp_calc a c <= hyp_calc a b + hyp_calc b c.
Proof.
  split; [apply hyp_calc_nonneg |].
  split.
  { split.
    - intros H0. destruct (Req_dec_T (fst a) (fst b)) as [Ex | Nx].
      + destruct (Req_dec_T (snd a) (snd b)) as [Ey | Ny].
        * destruct a, b. simpl in *. now subst.
        * assert (Hab : a <> b) by (intros ->; now apply Ny).
          apply hyp_calc_pos in Hab. lra.
      + assert (Hab : a <> b) by (intros ->; now apply Nx).
        apply hyp_calc_pos in Hab. lra.
    - intros ->. apply hyp_calc_same. }
  split; [apply hyp_calc_sym |].
  assert (HA := hyp_calc_nonneg a b). assert (HB := hyp_calc_nonneg b c).
  assert (HC := hyp_calc_nonneg a c).
  assert (HA2 := hyp_calc_sqr a b). assert (HB2 := hyp_calc_sqr b c).
  assert (HC2 := hyp_calc_sqr a c).
  set (A := hyp_calc a b) in *. set (B := hyp_calc b c) in *.
  set (C := hyp_calc a c) in *.
  set (u1 := fst a - fst b) in *. set (u2 := snd a - snd b) in *.
  set (v1 := fst b - fst c) in *. set (v2 := snd b - snd c) in *.
  replace (fst a - fst c) with (u1 + v1) in HC2 by (unfold u1, v1; ring).
  replace (snd a - snd c) with (u2 + v2) in HC2 by (unfold u2, v2; ring).
  simpl pow in HA2, HB2, HC2. rewrite !Rmult_1_r in HA2, HB2, HC2.
  assert (Hdot := dot_le_norms u1 u2 v1 v2 A B HA HB HA2 HB2).
  apply Rsqr_incr_0_var; [| lra].
  unfold Rsqr. nra.
Qed.

(** ** The angle *)

(** X2.  For two distinct points [angle_calc] returns an angle between
    [-PI/2] and [PI/2] whose cosine is [|a.x - b.x| / hyp_calc a b], so it
    does not tell left from right; exchanging the points negates it. *)
Theorem angle_calc_range (a b : vec) :
  a <> b ->
  exists theta : R,
    angle_calc a b = Ok theta
    /\ - (PI / 2) <= theta <= PI / 2
    /\ cos theta = Rabs (fst a - fst b) / hyp_calc a b
    /\ angle_calc b a = Ok (- theta).
Proof.
  intros Hab.
  exists (asin ((snd a - snd b) / hyp_calc a b)).
  split; [now apply angle_calc_ok |].
  assert (Hbound := asin_bound ((snd a - snd b) / hyp_calc a b)).
  split; [exact Hbound |].
  split.
  - assert (Hcos := abs_cos_angle a b Hab 1).
    rewrite Rabs_R1, !Rmult_1_r in Hcos.
    rewrite <- Hcos. symmetry. apply Rabs_pos_eq.
    apply cos_ge_0; lra.
  - rewrite angle_calc_ok by (intros E; now apply Hab).
    rewrite <- asin_opp, (hyp_calc_sym b a).
    do 2 f_equal. field.
    assert (H := hyp_calc_pos a b Hab). lra.
Qed.

Lemma angle_calc_range_witness :
  exists theta : R,
    angle_calc (0, 0) (3, 4) = Ok theta
    /\ - (PI / 2) <= theta <= PI / 2
    /\ cos theta = Rabs (fst (0, 0) - fst (3, 4)) / hyp_calc (0, 0) (3, 4)
    /\ angle_calc (3, 4) (0, 0) = Ok (- theta).
Proof.
  apply (angle_calc_range (0, 0) (3, 4)).
  intros H. apply (f_equal fst) in H. simpl in H. lra.
Defined.

(** ** Bounds on the force magnitudes *)

Lemma softened_distance_pos (particle1 particle2 : StationaryCharge.t) :
  (0 < StationaryCharge.radius particle1)%Z ->
  0 < soft_core particle1 <= softened_distance particle1 particle2.
Proof.
  intros Hr. unfold softened_distance.
  assert (0 < soft_core particle1) by (unfold soft_core; apply IZR_lt; lia).
  split; [assumption | apply Rmax_r].
Qed.

Lemma electrostatic_softened (particle1 particle2 : StationaryCharge.t) :
  (0 < StationaryCharge.radius particle1)%Z ->
  electrostatic_force_calc particle1 particle2
  = Ok (20 * Rabs (IZR (StationaryCharge.charge particle1))
           * Rabs (IZR (StationaryCharge.charge particle2))
        / softened_distance particle1 particle2 ^ 2).
Proof.
  intros Hr.
  destruct (softened_distance_pos particle1 particle2 Hr) as [HT _].
  unfold softened_distance, soft_core in *.
  destruct (Rlt_dec (hyp_calc (StationaryCharge.position particle1)
                              (StationaryCharge.position particle2))
                    (IZR (4 * StationaryCharge.radius particle1))) as [Hlt | Hge].
  - rewrite Rmax_right by lra. now apply electrostatic_below.
  - rewrite Rmax_left by lra. apply electrostatic_above; lra.
Qed.

Lemma gravitational_softened (particle1 particle2 : StationaryCharge.t) :
  (0 < StationaryCharge.radius particle1)%Z ->
  gravitational_force_calc particle1 particle2
  = Ok (2 / 100 * IZR (StationaryCharge.mass particle1)
          * IZR (StationaryCharge.mass particle2)
        / softened_distance particle1 particle2 ^ 2).
Proof.
  intros Hr.
  destruct (softened_distance_pos particle1 particle2 Hr) as [HT _].
  unfold softened_distance, soft_core in *.
  destruct (Rlt_dec (hyp_calc (StationaryCharge.position particle1)
                              (StationaryCharge.position particle2))
                    (IZR (4 * StationaryCharge.radius particle1))) as [Hlt | Hge].
  - rewrite Rmax_right by lra. now apply gravitational_below.
  - rewrite Rmax_left by lra. apply gravitational_above; lra.
Qed.

Lemma inverse_square_antitone (K x y : R) :
  0 <= K -> 0 < x -> x <= y -> 0 <= K / y ^ 2 <= K / x ^ 2.
Proof.
  intros HK Hx Hxy.
  assert (Hx2 : 0 < x ^ 2) by (apply pow_lt; lra).
  assert (Hy2 : 0 < y ^ 2) by (apply pow_lt; lra).
  assert (Hle : x ^ 2 <= y ^ 2) by (apply pow_incr; lra).
  split.
  - apply Rmult_le_pos; [exact HK | left; now apply Rinv_0_lt_compat].
  - unfold Rdiv. apply Rmult_le_compat_l; [exact HK |].
    now apply Rinv_le_contravar.
Qed.

(** X3.  With a positive radius [electrostatic_force_calc] never raises,
    not even for two particles at the same place; its value is not negative
    and never exceeds the value at the threshold of four radii, and a
    partner of the same charge that is farther away never feels more. *)
Theorem electrostatic_bounded (particle1 particle2 : StationaryCharge.t) :
  (0 < StationaryCharge.radius particle1)%Z ->
  exists m : R,
    electrostatic_force_calc particle1 particle2 = Ok m
    /\ 0 <= m
       <= 20 * Rabs (IZR (StationaryCharge.charge particle1))
             * Rabs (IZR (StationaryCharge.charge particle2))
          / soft_core particle1 ^ 2
    /\ forall farther : StationaryCharge.t,
         StationaryCharge.charge farther = StationaryCharge.charge particle2 ->
         hyp_calc (StationaryCharge.position particle1)
                  (StationaryCharge.position particle2)
         <= hyp_calc (StationaryCharge.position particle1)
                     (StationaryCharge.position farther) ->
         exists m' : R,
           electrostatic_force_calc particle1 farther = Ok m' /\ m' <= m.
Proof.
  intros Hr. eexists. split; [now apply electrostatic_softened |].
  destruct (softened_distance_pos particle1 particle2 Hr) as [HT Hsoft].
  assert (HK : 0 <= 20 * Rabs (IZR (StationaryCharge.charge particle1))
                     * Rabs (IZR (StationaryCharge.charge particle2))).
  { assert (H1 := Rabs_pos (IZR (StationaryCharge.charge particle1))).
    assert (H2 := Rabs_pos (IZR (StationaryCharge.charge particle2))).
    apply Rmult_le_pos; [lra | exact H2]. }
  split; [now apply inverse_square_antitone |].
  intros farther Hq Hd.
  eexists. split; [now apply electrostatic_softened |].
  rewrite Hq. apply inverse_square_antitone; [exact HK | lra |].
  unfold softened_distance. apply Rle_max_compat_r. exact Hd.
Qed.

Lemma electrostatic_bounded_witness :
  exists m : R,
    electrostatic_force_calc (StationaryCharge.init 1 (0, 0))
                             (StationaryCharge.init (-1) (0, 0)) = Ok m
    /\ 0 <= m <= 20 * Rabs 1 * Rabs (-1)
                 / soft_core (StationaryCharge.init 1 (0, 0)) ^ 2.
Proof.
  destruct (electrostatic_bounded (StationaryCharge.init 1 (0, 0))
                                  (StationaryCharge.init (-1) (0, 0)))
    as (m & Hm & Hb & _).
  - simpl. lia.
  - exists m. split; [exact Hm | exact Hb].
Defined.

(** X4.  With a positive radius and masses that are not negative
    [gravitational_force_calc] never raises, its value is not negative and
    never exceeds the value at the threshold, and a partner of the same mass
    that is farther away never feels more. *)
Theorem gravitational_bounded (particle1 particle2 : StationaryCharge.t) :
  (0 < StationaryCharge.radius particle1)%Z ->
  (0 <= StationaryCharge.mass particle1)%Z ->
  (0 <= StationaryCharge.mass particle2)%Z ->
  exists m : R,
    gravitational_force_calc particle1 particle2 = Ok m
    /\ 0 <= m
       <= 2 / 100 * IZR (StationaryCharge.mass particle1)
            * IZR (StationaryCharge.mass particle2)
          / soft_core particle1 ^ 2
    /\ forall farther : StationaryCharge.t,
         StationaryCharge.mass farther = StationaryCharge.mass particle2 ->
         hyp_calc (StationaryCharge.position particle1)
                  (StationaryCharge.position particle2)
         <= hyp_calc (StationaryCharge.position particle1)
                     (StationaryCharge.position farther) ->
         exists m' : R,
           gravitational_force_calc particle1 farther = Ok m' /\ m' <= m.
Proof.
  intros Hr Hm1 Hm2. eexists. split; [now apply gravitational_softened |].
  destruct (softened_distance_pos particle1 particle2 Hr) as [HT Hsoft].
  apply IZR_le in Hm1, Hm2.
  assert (HK : 0 <= 2 / 100 * IZR (StationaryCharge.mass particle1)
                     * IZR (StationaryCharge.mass particle2)).
  { apply Rmult_le_pos; [| exact Hm2]. apply Rmult_le_pos; [lra | exact Hm1]. }
  split; [now apply inverse_square_antitone |].
  intros farther Hq Hd.
  eexists. split; [now apply gravitational_softened |].
  rewrite Hq. apply inverse_square_antitone; [exact HK | lra |].
  unfold softened_distance. apply Rle_max_compat_r. exact Hd.
Qed.

Lemma gravitational_bounded_witness :
  exists m : R,
    gravitational_force_calc (StationaryCharge.init 1 (0, 0))
                             (StationaryCharge.init (-1) (0, 0)) = Ok m
    /\ 0 <= m <= 2 / 100 * 1 * 1
                 / soft_core (StationaryCharge.init 1 (0, 0)) ^ 2.
Proof.
  destruct (gravitational_bounded (StationaryCharge.init 1 (0, 0))
                                  (StationaryCharge.init (-1) (0, 0)))
    as (m & Hm & Hb & _).
  - simpl. lia.
  - simpl. lia.
  - simpl. lia.
  - exists m. split; [exact Hm | exact Hb].
Defined.

(** ** When the net force raises *)

Lemma net_force_body_ok (force_type : string) (primary_charge : DynamicCharge.t)
    (total : vec) (charge : StationaryCharge.t) :
  DynamicCharge.position primary_charge <> StationaryCharge.position charge ->
  exists after : vec,
    net_force_body force_type primary_charge total charge = Ok after.
Proof.
  intros Hpos.
  destruct (force_type =? "gravitational")%string eqn:Eg.
  - apply String.eqb_eq in Eg. subst force_type.
    destruct (net_force_body_gravitational primary_charge total charge Hpos)
      as (D & _ & H).
    eexists. exact H.
  - destruct (force_type =? "electrostatic")%string eqn:Ee.
    + apply String.eqb_eq in Ee. subst force_type.
      destruct (net_force_body_electrostatic primary_charge total charge Hpos)
        as (D & _ & H).
      eexists. exact H.
    + unfold net_force_body. rewrite (angle_calc_ok _ _ Hpos).
      unfold magnitude_and_attraction. rewrite Eg, Ee.
      eexists. reflexivity.
Qed.

Lemma net_force_body_coincident (force_type : string)
    (primary_charge : DynamicCharge.t) (total : vec)
    (charge : StationaryCharge.t) :
  StationaryCharge.position charge = DynamicCharge.position primary_charge ->
  net_force_body force_type primary_charge total charge
  = Raise ZeroDivisionError.
Proof.
  intros Hpos. unfold net_force_body.
  rewrite Hpos, angle_calc_same. reflexivity.
Qed.

Lemma vec_eq_dec (a b : vec) : {a = b} + {a <> b}.
Proof.
  destruct a as [ax ay], b as [bx by_].
  destruct (Req_dec_T ax bx) as [Ex | Nx].
  - destruct (Req_dec_T ay by_) as [Ey | Ny].
    + left. now subst.
    + right. intros H. apply Ny. now inversion H.
  - right. intros H. apply Nx. now inversion H.
Qed.

Lemma net_force_calc_outcome (force_type : string)
    (primary_charge : DynamicCharge.t) (charges : list StationaryCharge.t) :
  (Forall (fun charge => StationaryCharge.position charge
                         <> DynamicCharge.position primary_charge) charges ->
   exists total : vec,
     net_force_calc force_type primary_charge charges = Ok total)
  /\ (Exists (fun charge => StationaryCharge.position charge
                            = DynamicCharge.position primary_charge) charges ->
      net_force_calc force_type primary_charge charges
      = Raise ZeroDivisionError).
Proof.
  unfold net_force_calc. generalize (0, 0) as total.
  induction charges as [| c l IH]; intros total.
  - split.
    + intros _. eexists. reflexivity.
    + intros H. inversion H.
  - split.
    + intros H. inversion H as [| ? ? Hc Hl]; subst. simpl.
      destruct (net_force_body_ok force_type primary_charge total c)
        as (after & Hafter); [intros E; now apply Hc |].
      rewrite Hafter. simpl. now apply IH.
    + intros H. simpl.
      destruct (vec_eq_dec (StationaryCharge.position c)
                           (DynamicCharge.position primary_charge)) as [E | N].
      * now rewrite (net_force_body_coincident _ _ _ _ E).
      * destruct (net_force_body_ok force_type primary_charge total c)
          as (after & Hafter); [intros E; now apply N |].
        rewrite Hafter. simpl. apply IH.
        inversion H; subst; [contradiction | assumption].
Qed.

(** ** The net force in closed form *)

Lemma Rabs_IZR_sign (q : Z) :
  ((0 <= q)%Z -> Rabs (IZR q) = IZR q) /\ ((q <= 0)%Z -> Rabs (IZR q) = - IZR q).
Proof.
  split; intros H; apply IZR_le in H.
  - now apply Rabs_pos_eq.
  - now apply Rabs_left1.
Qed.

Lemma signed_product (q1 q2 : Z) :
  (if negb ((q1 >? 0)%Z && (q2 >? 0)%Z || (q1 <? 0)%Z && (q2 <? 0)%Z)
   then 1 else -1) * (Rabs (IZR q1) * Rabs (IZR q2))
  = - (IZR q1 * IZR q2).
Proof.
  destruct (Rabs_IZR_sign q1) as [P1 N1], (Rabs_IZR_sign q2) as [P2 N2].
  destruct (Z.lt_trichotomy q1 0) as [H1 | [H1 | H1]];
    destruct (Z.lt_trichotomy q2 0) as [H2 | [H2 | H2]];
    repeat match goal with
           | |- context [(?x >? 0)%Z] =>
               let E := fresh in
               destruct (x >? 0)%Z eqn:E;
               [apply Z.gtb_lt in E | rewrite Z.gtb_ltb in E; apply Z.ltb_ge in E]
           | |- context [(?x <? 0)%Z] =>
               let E := fresh in
               destruct (x <? 0)%Z eqn:E;
               [apply Z.ltb_lt in E | apply Z.ltb_ge in E]
           end; try lia; simpl;
    try rewrite (P1 ltac:(lia)); try rewrite (N1 ltac:(lia));
    try rewrite (P2 ltac:(lia)); try rewrite (N2 ltac:(lia));
    subst; try ring.
Qed.

Lemma net_force_body_coulomb (primary_charge : DynamicCharge.t) (total : vec)
    (charge : StationaryCharge.t) :
  (0 < DynamicCharge.radius primary_charge)%Z ->
  DynamicCharge.position primary_charge <> StationaryCharge.position charge ->
  net_force_body "electrostatic" primary_charge total charge
  = Ok (vadd total (coulomb primary_charge charge)).
Proof.
  intros Hr Hpos.
  unfold net_force_body. rewrite (angle_calc_ok _ _ Hpos).
  unfold magnitude_and_attraction.
  change ("electrostatic" =? "gravitational")%string with false.
  change ("electrostatic" =? "electrostatic")%string with true.
  cbv iota.
  rewrite (electrostatic_softened (DynamicCharge.upcast primary_charge) charge Hr).
  cbn [rbind fst snd]. f_equal.
  destruct (softened_distance_pos (DynamicCharge.upcast primary_charge) charge Hr)
    as [HT HS].
  assert (Hd := hyp_calc_pos _ _ Hpos).
  set (qp := DynamicCharge.charge primary_charge) in *.
  set (qc := StationaryCharge.charge charge) in *.
  set (flag := negb _).
  set (S := softened_distance _ _) in *.
  change (StationaryCharge.charge (DynamicCharge.upcast primary_charge)) with qp.
  set (m := 20 * Rabs (IZR qp) * Rabs (IZR qc) / S ^ 2).
  destruct (resolve_contribution flag m _ _ total Hpos) as [Hx Hy].
  set (after := resolve flag _ m _ _ total) in *.
  assert (Hm : Rabs m = 20 * (Rabs (IZR qp) * Rabs (IZR qc)) / S ^ 2).
  { unfold m. rewrite Rabs_pos_eq; [field; lra |].
    apply inverse_square_antitone with (x := S); try lra.
    assert (H1 := Rabs_pos (IZR qp)). assert (H2 := Rabs_pos (IZR qc)).
    apply Rmult_le_pos; [lra | exact H2]. }
  assert (Hs := signed_product qp qc). fold flag in Hs.
  rewrite Hm in Hx, Hy. unfold contribution in Hx, Hy. simpl fst in Hx, Hy.
  simpl snd in Hx, Hy.
  rewrite (surjective_pairing after). unfold vadd, coulomb.
  fold qp qc S. cbn [fst snd].
  set (d := hyp_calc _ _) in *.
  set (s := if flag then 1 else -1) in *.
  f_equal.
  - replace (fst after)
      with (fst total
            + s * (Rabs (IZR qp) * Rabs (IZR qc))
              * (20 / S ^ 2 / d
                 * (fst (StationaryCharge.position charge)
                    - fst (DynamicCharge.position primary_charge)))).
    + rewrite Hs. field. lra.
    + transitivity (fst total + (fst after - fst total)); [| ring].
      rewrite Hx. field. lra.
  - replace (snd after)
      with (snd total
            + s * (Rabs (IZR qp) * Rabs (IZR qc))
              * (20 / S ^ 2 / d
                 * (snd (StationaryCharge.position charge)
                    - snd (DynamicCharge.position primary_charge)))).
    + rewrite Hs. field. lra.
    + transitivity (snd total + (snd after - snd total)); [| ring].
      rewrite Hy. field. lra.
Qed.

Lemma net_force_body_newton (primary_charge : DynamicCharge.t) (total : vec)
    (charge : StationaryCharge.t) :
  (0 < DynamicCharge.radius primary_charge)%Z ->
  DynamicCharge.position primary_charge <> StationaryCharge.position charge ->
  net_force_body "gravitational" primary_charge total charge
  = Ok (vadd total (newton primary_charge charge)).
Proof.
  intros Hr Hpos.
  unfold net_force_body. rewrite (angle_calc_ok _ _ Hpos).
  unfold magnitude_and_attraction.
  change ("gravitational" =? "gravitational")%string with true.
  cbv iota.
  rewrite (gravitational_softened (DynamicCharge.upcast primary_charge) charge Hr).
  cbn [rbind fst snd]. f_equal.
  destruct (softened_distance_pos (DynamicCharge.upcast primary_charge) charge Hr)
    as [HT HS].
  assert (Hd := hyp_calc_pos _ _ Hpos).
  change (StationaryCharge.mass (DynamicCharge.upcast primary_charge))
    with (DynamicCharge.mass primary_charge).
  set (K := 2 / 100 * IZR (DynamicCharge.mass primary_charge)
            * IZR (StationaryCharge.mass charge)).
  set (S := softened_distance _ _) in *.
  destruct (resolve_contribution true (K / S ^ 2) _ _ total Hpos) as [Hx Hy].
  set (after := resolve true _ (K / S ^ 2) _ _ total) in *.
  assert (Hm : Rabs (K / S ^ 2) = Rabs K / S ^ 2).
  { unfold Rdiv. rewrite Rabs_mult. f_equal.
    apply Rabs_pos_eq. left. apply Rinv_0_lt_compat, pow_lt. lra. }
  rewrite Hm in Hx, Hy. unfold contribution in Hx, Hy.
  simpl fst in Hx, Hy. simpl snd in Hx, Hy.
  rewrite (surjective_pairing after). unfold vadd, newton.
  fold K S. cbn [fst snd].
  set (d := hyp_calc _ _) in *.
  f_equal.
  - transitivity (fst total + (fst after - fst total)); [ring |].
    rewrite Hx. field. lra.
  - transitivity (snd total + (snd after - snd total)); [ring |].
    rewrite Hy. field. lra.
Qed.

Lemma for_each_sum {A : Type} (body : vec -> A -> result vec) (f : A -> vec)
    (l : list A) :
  (forall (total : vec) (x : A), In x l -> body total x = Ok (vadd total (f x))) ->
  forall total : vec,
    for_each body l total = Ok (fold_left vadd (map f l) total).
Proof.
  induction l as [| x l IH]; intros Hbody total; simpl.
  - reflexivity.
  - rewrite Hbody by now left. simpl.
    apply IH. intros t y Hy. apply Hbody. now right.
Qed.

(** X6.  When no charge lies at the position of the particle, the net
    electrostatic force is the sum over the charges of Coulomb's law with the
    softened distance, a vector along the line through the particle and the
    charge, and the net gravitational force is the sum of the pulls towards
    the charges: resolving each axis by a comparison of coordinates gives
    the true vector sum. *)
Theorem net_force_calc_closed_form (primary_charge : DynamicCharge.t)
    (charges : list StationaryCharge.t) :
  (0 < DynamicCharge.radius primary_charge)%Z ->
  Forall (fun charge => DynamicCharge.position primary_charge
                        <> StationaryCharge.position charge) charges ->
  net_force_calc "electrostatic" primary_charge charges
  = Ok (vsum (map (coulomb primary_charge) charges))
  /\ net_force_calc "gravitational" primary_charge charges
     = Ok (vsum (map (newton primary_charge) charges)).
Proof.
  intros Hr Hall. rewrite Forall_forall in Hall.
  unfold net_force_calc, vsum. split; apply for_each_sum; intros total c Hc.
  - apply net_force_body_coulomb; [exact Hr | now apply Hall].
  - apply net_force_body_newton; [exact Hr | now apply Hall].
Qed.

Lemma net_force_calc_closed_form_witness :
  net_force_calc "electrostatic" DynamicCharge.init
                 [StationaryCharge.init 1 (100, 300)]
  = Ok (vsum (map (coulomb DynamicCharge.init)
                  [StationaryCharge.init 1 (100, 300)])).
Proof.
  apply (net_force_calc_closed_form DynamicCharge.init
           [StationaryCharge.init 1 (100, 300)]).
  - simpl. lia.
  - constructor; [| constructor].
    simpl. intros H. apply (f_equal fst) in H. simpl in H. lra.
Defined.

(** ** The lag between a force and the position *)

Lemma moves_cons (force : vec) (rest : list vec) (self : DynamicCharge.t) :
  DynamicCharge.mass self <> 0%Z ->
  moves (force :: rest) self
  = moves rest (fst (DynamicCharge.move force self)).
Proof.
  intros Hm. simpl. unfold mbind.
  rewrite (move_ok self force Hm). reflexivity.
Qed.

Lemma move_mass (force : vec) (self : DynamicCharge.t) :
  DynamicCharge.mass (fst (DynamicCharge.move force self))
  = DynamicCharge.mass self.
Proof. apply (move_keeps self force). Qed.

(** X7.  A force given to [move] reaches the position two calls later: with
    a mass that is not zero, the position after two calls does not depend on
    the two forces, and after three calls it depends on the first force
    only. *)
Theorem force_reaches_position_late (self : DynamicCharge.t) (f1 f2 f3 : vec) :
  DynamicCharge.mass self <> 0%Z ->
  let p := DynamicCharge.position self in
  let v := DynamicCharge.velocity self in
  let a := DynamicCharge.acceleration self in
  let m := IZR (DynamicCharge.mass self) in
  let two := fst (moves [f1; f2] self) in
  let three := fst (moves [f1; f2; f3] self) in
  snd (moves [f1; f2; f3] self) = Ok tt
  /\ fst (DynamicCharge.position two) = fst p + 2 * fst v + fst a
  /\ snd (DynamicCharge.position two) = snd p + 2 * snd v + snd a
  /\ fst (DynamicCharge.position three)
     = fst p + 3 * fst v + 2 * fst a + fst f1 / m
  /\ snd (DynamicCharge.position three)
     = snd p + 3 * snd v + 2 * snd a + snd f1 / m.
Proof.
  intros Hm p v a m two three. unfold two, three.
  assert (Hm1 : DynamicCharge.mass (fst (DynamicCharge.move f1 self)) <> 0%Z)
    by now rewrite move_mass.
  assert (Hm2 : DynamicCharge.mass
                  (fst (DynamicCharge.move f2 (fst (DynamicCharge.move f1 self))))
                <> 0%Z)
    by now rewrite move_mass.
  rewrite !moves_cons by assumption.
  rewrite (move_ok _ f3 Hm2), (move_ok _ f2 Hm1), (move_ok _ f1 Hm).
  cbn [fst snd moves mret DynamicCharge.position DynamicCharge.velocity
       DynamicCharge.acceleration DynamicCharge.mass].
  fold p v a m.
  split; [reflexivity |]. repeat split; unfold Rdiv; ring.
Qed.

Lemma force_reaches_position_late_witness :
  fst (DynamicCharge.position
         (fst (moves [(3, 4); (5, 6); (7, 8)] DynamicCharge.init)))
  = 50 + 3 * 0 + 2 * 0 + 3 / IZR 1.
Proof.
  destruct (force_reaches_position_late DynamicCharge.init (3, 4) (5, 6) (7, 8))
    as (_ & _ & _ & H & _).
  - simpl. discriminate.
  - exact H.
Defined.

(** X8.  [reset] puts the particle at the launch point with zero velocity
    and acceleration and leaves its charge, mass and radius; after it the
    particle stays at the launch point for two calls of [move], whatever
    the forces, and the third call moves it by the first force divided by
    the mass. *)
Theorem reset_then_moves (self : DynamicCharge.t) (f1 f2 f3 : vec) :
  DynamicCharge.mass self <> 0%Z ->
  let fresh := DynamicCharge.reset self in
  DynamicCharge.charge fresh = DynamicCharge.charge self
  /\ DynamicCharge.mass fresh = DynamicCharge.mass self
  /\ DynamicCharge.radius fresh = DynamicCharge.radius self
  /\ DynamicCharge.reset fresh = fresh
  /\ fst (DynamicCharge.position (fst (moves [f1; f2] fresh))) = 50
  /\ snd (DynamicCharge.position (fst (moves [f1; f2] fresh))) = 300
  /\ fst (DynamicCharge.position (fst (moves [f1; f2; f3] fresh)))
     = 50 + fst f1 / IZR (DynamicCharge.mass self)
  /\ snd (DynamicCharge.position (fst (moves [f1; f2; f3] fresh)))
     = 300 + snd f1 / IZR (DynamicCharge.mass self).
Proof.
  intros Hm fresh.
  assert (Hmf : DynamicCharge.mass fresh <> 0%Z) by exact Hm.
  assert (Hm1 : DynamicCharge.mass (fst (DynamicCharge.move f1 fresh)) <> 0%Z)
    by now rewrite move_mass.
  assert (Hm2 : DynamicCharge.mass
                  (fst (DynamicCharge.move f2 (fst (DynamicCharge.move f1 fresh))))
                <> 0%Z)
    by now rewrite move_mass.
  rewrite !moves_cons by assumption.
  rewrite (move_ok _ f3 Hm2), (move_ok _ f2 Hm1), (move_ok _ f1 Hmf).
  cbn [fst snd moves mret DynamicCharge.position DynamicCharge.velocity
       DynamicCharge.acceleration DynamicCharge.mass].
  change (DynamicCharge.position fresh) with (50, 300).
  change (DynamicCharge.velocity fresh) with (0, 0).
  change (DynamicCharge.acceleration fresh) with (0, 0).
  change (DynamicCharge.mass fresh) with (DynamicCharge.mass self).
  cbn [fst snd].
  repeat split; try reflexivity; unfold Rdiv; ring.
Qed.

Lemma reset_then_moves_witness :
  fst (DynamicCharge.position
         (fst (moves [(3, 4); (5, 6)] (DynamicCharge.reset DynamicCharge.init))))
  = 50.
Proof.
  destruct (reset_then_moves DynamicCharge.init (3, 4) (5, 6) (7, 8))
    as (_ & _ & _ & _ & H & _).
  - simpl. discriminate.
  - exact H.
Defined.

(** ** Removing the charges that fell off the field *)

Lemma remove_fallen_ind (P : list StationaryCharge.t -> Prop) :
  P [] ->
  (forall c rest, fallen c = false -> P rest -> P (c :: rest)) ->
  (forall c, fallen c = true -> P [c]) ->
  (forall c next rest, fallen c = true -> P rest -> P (c :: next :: rest)) ->
  forall l, P l.
Proof.
  intros Hnil Hlive Hlast Hskip.
  assert (H : forall (n : nat) (l : list StationaryCharge.t),
             (List.length l <= n)%nat -> P l).
  { intros n. induction n as [| n IH]; intros l Hlen.
    - destruct l; [exact Hnil | simpl in Hlen; lia].
    - destruct l as [| c rest]; [exact Hnil |].
      simpl in Hlen. destruct (fallen c) eqn:E.
      + destruct rest as [| next rest']; [now apply Hlast |].
        apply Hskip; [exact E |]. apply IH. simpl in Hlen. lia.
      + apply Hlive; [exact E |]. apply IH. lia. }
  intros l. apply (H (List.length l)). lia.
Qed.

Lemma remove_fallen_live (c : StationaryCharge.t) (rest : list StationaryCharge.t) :
  fallen c = false -> remove_fallen (c :: rest) = c :: remove_fallen rest.
Proof.
  intros E.
  change (remove_fallen (c :: rest))
    with (if fallen c
          then match rest with
               | [] => []
               | next :: rest' => next :: remove_fallen rest'
               end
          else c :: remove_fallen rest).
  now rewrite E.
Qed.

Lemma remove_fallen_last (c : StationaryCharge.t) :
  fallen c = true -> remove_fallen [c] = [].
Proof.
  intros E.
  change (remove_fallen [c]) with (if fallen c then [] else [c]).
  now rewrite E.
Qed.

Lemma remove_fallen_skip (c next : StationaryCharge.t)
    (rest : list StationaryCharge.t) :
  fallen c = true ->
  remove_fallen (c :: next :: rest) = next :: remove_fallen rest.
Proof.
  intros E.
  change (remove_fallen (c :: next :: rest))
    with (if fallen c then next :: remove_fallen rest
          else c :: remove_fallen (next :: rest)).
  now rewrite E.
Qed.

Lemma live_true (c : StationaryCharge.t) : fallen c = false -> live c = true.
Proof. intros E. unfold live. now rewrite E. Qed.

Lemma live_false (c : StationaryCharge.t) : fallen c = true -> live c = false.
Proof. intros E. unfold live. now rewrite E. Qed.

Lemma filter_live_remove_fallen (l : list StationaryCharge.t) :
  filter live (remove_fallen l) = filter live l.
Proof.
  induction l as [| c rest E IH | c E | c next rest E IH] using remove_fallen_ind.
  - reflexivity.
  - rewrite remove_fallen_live by exact E. cbn [filter]. now rewrite IH.
  - rewrite remove_fallen_last by exact E. cbn [filter].
    now rewrite (live_false c E).
  - rewrite remove_fallen_skip by exact E. cbn [filter].
    rewrite (live_false c E). now rewrite IH.
Qed.

Lemma remove_fallen_In (l : list StationaryCharge.t) (x : StationaryCharge.t) :
  In x (remove_fallen l) -> In x l.
Proof.
  induction l as [| c rest E IH | c E | c next rest E IH] using remove_fallen_ind.
  - intros [].
  - rewrite remove_fallen_live by exact E. cbn [In]. tauto.
  - rewrite remove_fallen_last by exact E. intros [].
  - rewrite remove_fallen_skip by exact E. cbn [In]. tauto.
Qed.

Lemma remove_fallen_length (l : list StationaryCharge.t) :
  (List.length (remove_fallen l) <= List.length l)%nat
  /\ (existsb fallen l = true ->
      (List.length (remove_fallen l) < List.length l)%nat).
Proof.
  induction l as [| c rest E IH | c E | c next rest E IH] using remove_fallen_ind.
  - split; [cbn; lia | discriminate].
  - rewrite remove_fallen_live by exact E. cbn [List.length existsb]. rewrite E.
    cbn [orb]. destruct IH as [IH1 IH2].
    split; [lia |]. intros H. apply IH2 in H. lia.
  - rewrite remove_fallen_last by exact E. cbn [List.length]. split; lia.
  - rewrite remove_fallen_skip by exact E. cbn [List.length].
    destruct IH as [IH1 _]. split; lia.
Qed.

Lemma remove_fallen_fixed (l : list StationaryCharge.t) :
  existsb fallen l = false -> remove_fallen l = l /\ filter live l = l.
Proof.
  induction l as [| c rest IH]; intros H; cbn [existsb] in H.
  - split; reflexivity.
  - apply orb_false_iff in H. destruct H as [E H].
    rewrite remove_fallen_live by exact E.
    destruct (IH H) as [IH1 IH2]. cbn [filter]. rewrite (live_true c E).
    now rewrite IH1, IH2.
Qed.

(** X9.  One pass of the removal loop never removes a charge that is held
    or on the field and keeps their order, adds nothing, and changes the
    list exactly when some charge has fallen, in which case the list gets
    shorter. *)
Theorem remove_fallen_spares_live (l : list StationaryCharge.t) :
  filter live (remove_fallen l) = filter live l
  /\ (forall x, In x (remove_fallen l) -> In x l)
  /\ (existsb fallen l = false -> remove_fallen l = l)
  /\ (existsb fallen l = true ->
      (List.length (remove_fallen l) < List.length l)%nat).
Proof.
  split; [apply filter_live_remove_fallen |].
  split; [apply remove_fallen_In |].
  split; [intros H; now apply remove_fallen_fixed |].
  apply remove_fallen_length.
Qed.

Lemma remove_fallen_spares_live_witness :
  remove_fallen [StationaryCharge.init 1 (100, 300)]
  = [StationaryCharge.init 1 (100, 300)].
Proof.
  apply (remove_fallen_spares_live [StationaryCharge.init 1 (100, 300)]).
  unfold existsb, fallen. cbn [StationaryCharge.clicked StationaryCharge.init negb].
  now rewrite andb_false_r.
Defined.

Lemma fallen_live_length (l : list StationaryCharge.t) :
  (List.length (filter fallen l) + List.length (filter live l)
   = List.length l)%nat.
Proof.
  induction l as [| c l IH]; [reflexivity |].
  cbn [filter]. unfold live at 1.
  destruct (fallen c); cbn [negb List.length]; lia.
Qed.

Lemma no_fallen (l : list StationaryCharge.t) :
  List.length (filter fallen l) = 0%nat -> existsb fallen l = false.
Proof.
  induction l as [| c l IH]; [reflexivity |].
  cbn [filter existsb]. destruct (fallen c); cbn [List.length orb].
  - discriminate.
  - exact IH.
Qed.

Lemma remove_fallen_progress (l : list StationaryCharge.t) :
  existsb fallen l = true ->
  (List.length (filter fallen (remove_fallen l))
   < List.length (filter fallen l))%nat.
Proof.
  intros H.
  assert (H1 := fallen_live_length l).
  assert (H2 := fallen_live_length (remove_fallen l)).
  rewrite filter_live_remove_fallen in H2.
  destruct (remove_fallen_length l) as [_ Hlt]. specialize (Hlt H). lia.
Qed.

(** X10.  Because the list is changed while it is being walked, one pass
    steps over the charge that follows a removed one, so a fallen charge
    right behind another fallen charge survives the pass; repeating the pass
    as many times as there are fallen charges leaves exactly the charges
    that are held or on the field. *)
Theorem remove_fallen_eventually :
  (forall (c next : StationaryCharge.t) (rest : list StationaryCharge.t),
      fallen c = true ->
      remove_fallen (c :: next :: rest) = next :: remove_fallen rest)
  /\ (forall (n : nat) (l : list StationaryCharge.t),
         (List.length (filter fallen l) <= n)%nat ->
         Nat.iter n remove_fallen l = filter live l).
Proof.
  split; [exact remove_fallen_skip |].
  intros n. induction n as [| n IH]; intros l Hn.
  - change (Nat.iter 0 remove_fallen l) with l.
    symmetry. apply remove_fallen_fixed, no_fallen. lia.
  - rewrite Nat.iter_succ_r.
    destruct (existsb fallen l) eqn:E.
    + rewrite IH.
      * apply filter_live_remove_fallen.
      * assert (H := remove_fallen_progress l E). lia.
    + destruct (remove_fallen_fixed l E) as [H1 H2].
      rewrite H1. apply IH.
      assert (H := fallen_live_length l). rewrite H2 in H. lia.
Qed.

Lemma remove_fallen_eventually_witness :
  Nat.iter 2 remove_fallen
    [StationaryCharge.with_clicked (StationaryCharge.init 1 (100, 650)) false;
     StationaryCharge.with_clicked (StationaryCharge.init (-1) (200, 650)) false]
  = filter live
      [StationaryCharge.with_clicked (StationaryCharge.init 1 (100, 650)) false;
       StationaryCharge.with_clicked (StationaryCharge.init (-1) (200, 650)) false].
Proof.
  apply (proj2 remove_fallen_eventually).
  apply Nat.le_trans
    with (List.length
            [StationaryCharge.with_clicked (StationaryCharge.init 1 (100, 650)) false;
             StationaryCharge.with_clicked (StationaryCharge.init (-1) (200, 650)) false]).
  - assert (H := fallen_live_length
                   [StationaryCharge.with_clicked (StationaryCharge.init 1 (100, 650)) false;
                    StationaryCharge.with_clicked (StationaryCharge.init (-1) (200, 650)) false]).
    lia.
  - simpl. lia.
Defined.

(** ** Sliders *)

Lemma round_div_exact (k d : Z) : (0 < d)%Z -> round_div (k * d) d = k.
Proof.
  intros Hd.
  assert (H := round_div_bounds (k * d) d k k Hd). lia.
Qed.

Lemma round_div_monotone (n1 n2 d : Z) :
  (0 < d)%Z -> (n1 <= n2)%Z -> (round_div n1 d <= round_div n2 d)%Z.
Proof.
  intros Hd Hn. unfold round_div.
  replace (d <? 0)%Z with false by (symmetry; apply Z.ltb_ge; lia).
  rewrite (Z.abs_eq d) by lia.
  assert (Hd1 := Z.div_mod n1 d ltac:(lia)).
  assert (Hm1 := Z.mod_pos_bound n1 d Hd).
  assert (Hd2 := Z.div_mod n2 d ltac:(lia)).
  assert (Hm2 := Z.mod_pos_bound n2 d Hd).
  assert (Hq : (n1 / d <= n2 / d)%Z) by (apply Z.div_le_mono; lia).
  set (q1 := (n1 / d)%Z) in *. set (r1 := (n1 mod d)%Z) in *.
  set (q2 := (n2 / d)%Z) in *. set (r2 := (n2 mod d)%Z) in *.
  destruct (Z.eq_dec q1 q2) as [E | N].
  - assert (r1 <= r2)%Z by nia. rewrite <- E.
    destruct (2 * r1 <? d)%Z eqn:A1; [apply Z.ltb_lt in A1 | apply Z.ltb_ge in A1];
      destruct (2 * r2 <? d)%Z eqn:A2; [apply Z.ltb_lt in A2 | apply Z.ltb_ge in A2
                                       | apply Z.ltb_lt in A2 | apply Z.ltb_ge in A2];
      try lia.
    + destruct (d <? 2 * r2)%Z; [lia |]. destruct (Z.even q1); lia.
    + destruct (d <? 2 * r1)%Z eqn:B1;
        [apply Z.ltb_lt in B1 | apply Z.ltb_ge in B1];
        destruct (d <? 2 * r2)%Z eqn:B2;
        [apply Z.ltb_lt in B2 | apply Z.ltb_ge in B2
         | apply Z.ltb_lt in B2 | apply Z.ltb_ge in B2];
        try lia; destruct (Z.even q1); lia.
  - assert (q1 + 1 <= q2)%Z by lia.
    destruct (2 * r1 <? d)%Z; destruct (2 * r2 <? d)%Z;
      destruct (d <? 2 * r1)%Z; destruct (d <? 2 * r2)%Z;
      destruct (Z.even q1); destruct (Z.even q2); lia.
Qed.

(** X11.  [get_val] raises [ZeroDivisionError] for a slider of width zero.
    For a positive width it is the start of the domain with the knob at the
    left end of the track and the stop with the knob at the right end, and,
    the start not exceeding the stop, it never decreases when the knob moves
    to the right. *)
Theorem get_val_monotone (w : Slider.t) :
  (Slider.width w = 0%Z -> Slider.get_val w = Raise ZeroDivisionError)
  /\ ((0 < Slider.width w)%Z ->
      Slider.get_val (Slider.with_current_position w (fst (Slider.position w)))
      = Ok (start (Slider.domain w))
      /\ Slider.get_val
           (Slider.with_current_position w
              (fst (Slider.position w) + Slider.width w))
         = Ok (stop (Slider.domain w))
      /\ ((start (Slider.domain w) <= stop (Slider.domain w))%Z ->
          forall x1 x2 : Z,
            (x1 <= x2)%Z ->
            exists v1 v2 : Z,
              Slider.get_val (Slider.with_current_position w x1) = Ok v1
              /\ Slider.get_val (Slider.with_current_position w x2) = Ok v2
              /\ (v1 <= v2)%Z)).
Proof.
  split.
  - intros H. unfold Slider.get_val. now rewrite H.
  - intros Hw.
    assert (Hne : (Slider.width w =? 0)%Z = false) by (apply Z.eqb_neq; lia).
    unfold Slider.get_val. cbn [Slider.width Slider.with_current_position
      Slider.domain Slider.current_position Slider.position].
    rewrite Hne. split; [| split].
    + f_equal. rewrite Z.sub_diag, Z.mul_0_r.
      assert (H := round_div_bounds 0 (Slider.width w) 0 0 Hw). lia.
    + f_equal.
      replace (fst (Slider.position w) + Slider.width w - fst (Slider.position w))%Z
        with (Slider.width w) by lia.
      rewrite (round_div_exact _ (Slider.width w) Hw). lia.
    + intros Hdom x1 x2 Hx. do 2 eexists.
      split; [reflexivity |]. split; [reflexivity |].
      apply Z.add_le_mono_r, round_div_monotone; [exact Hw | nia].
Qed.

Lemma get_val_monotone_witness :
  Slider.get_val
    (Slider.with_current_position mass_slider_init
       (fst (Slider.position mass_slider_init)))
  = Ok 1%Z
  /\ exists v1 v2 : Z,
       Slider.get_val (Slider.with_current_position mass_slider_init 330) = Ok v1
       /\ Slider.get_val (Slider.with_current_position mass_slider_init 400) = Ok v2
       /\ (v1 <= v2)%Z.
Proof.
  destruct (proj2 (get_val_monotone mass_slider_init)) as (H1 & _ & H3).
  - simpl. lia.
  - split; [exact H1 |]. apply H3.
    + simpl. lia.
    + lia.
Defined.

(** X12.  A [MOUSEMOTION] never takes the knob of a slider off its track
    and never changes the track or the domain: the knob follows the mouse
    when the slider is held and the mouse is over the track, and otherwise
    the slider is left as it is. *)
Theorem drag_stays_on_track (w : Slider.t) (pos : Z * Z) :
  (on_track w -> on_track (Slider.drag w pos))
  /\ Slider.position (Slider.drag w pos) = Slider.position w
  /\ Slider.width (Slider.drag w pos) = Slider.width w
  /\ Slider.domain (Slider.drag w pos) = Slider.domain w
  /\ Slider.clicked (Slider.drag w pos) = Slider.clicked w
  /\ (Slider.clicked w = true ->
      (fst (Slider.position w) <= fst pos
       <= fst (Slider.position w) + Slider.width w)%Z ->
      Slider.current_position (Slider.drag w pos) = fst pos)
  /\ (Slider.clicked w = false
      \/ (fst pos < fst (Slider.position w))%Z
      \/ (fst (Slider.position w) + Slider.width w < fst pos)%Z ->
      Slider.drag w pos = w).
Proof.
  unfold Slider.drag, on_track.
  destruct (Slider.clicked w) eqn:Ec;
    destruct (fst (Slider.position w) <=? fst pos)%Z eqn:E1;
    destruct (fst pos <=? fst (Slider.position w) + Slider.width w)%Z eqn:E2;
    cbn [andb];
    try apply Z.leb_le in E1; try apply Z.leb_le in E2;
    try apply Z.leb_gt in E1; try apply Z.leb_gt in E2;
    cbn [Slider.position Slider.width Slider.domain Slider.clicked
         Slider.current_position Slider.with_current_position];
    repeat split; try tauto; try lia; try congruence;
    intros; try lia; try reflexivity;
    repeat match goal with H : _ \/ _ |- _ => destruct H end;
    try discriminate; try lia.
Qed.

Lemma drag_stays_on_track_witness :
  (on_track (Slider.drag (Slider.with_clicked level_slider_init true) (575, 0)%Z))
  /\ Slider.current_position
       (Slider.drag (Slider.with_clicked level_slider_init true) (575, 0)%Z)
     = 575%Z
  /\ Slider.drag (Slider.with_clicked level_slider_init true) (700, 0)%Z
     = Slider.with_clicked level_slider_init true.
Proof.
  destruct (drag_stays_on_track (Slider.with_clicked level_slider_init true)
                                (575, 0)%Z) as (H1 & _ & _ & _ & _ & H2 & _).
  destruct (drag_stays_on_track (Slider.with_clicked level_slider_init true)
                                (700, 0)%Z) as (_ & _ & _ & _ & _ & _ & H3).
  split; [| split].
  - apply H1. unfold on_track. simpl. lia.
  - apply H2; [reflexivity | simpl; lia].
  - apply H3. right. right. simpl. lia.
Defined.

(** ** The collision test and the disc of the particle *)

(** X13.  The collision test never misses the disc of the particle: when
    some point of the rectangle lies within the radius of the centre, the
    test holds.  The bounding square is larger than the disc, so near a
    corner the test also holds for a disc that does not touch the
    rectangle. *)
Theorem detect_collision_covers_disc :
  (forall (p : DynamicCharge.t) (obs : Obstacle.t) (x y : R),
      (0 <= DynamicCharge.radius p)%Z ->
      IZR (fst (Obstacle.position obs)) <= x
      <= IZR (fst (Obstacle.position obs) + fst (Obstacle.dimensions obs)) ->
      IZR (snd (Obstacle.position obs)) <= y
      <= IZR (snd (Obstacle.position obs) + snd (Obstacle.dimensions obs)) ->
      (x - fst (DynamicCharge.position p)) ^ 2
      + (y - snd (DynamicCharge.position p)) ^ 2
      <= IZR (DynamicCharge.radius p) ^ 2 ->
      DynamicCharge.detect_collision p obs = true)
  /\ (exists (p : DynamicCharge.t) (obs : Obstacle.t),
         DynamicCharge.detect_collision p obs = true
         /\ forall x y : R,
              IZR (fst (Obstacle.position obs)) <= x
              <= IZR (fst (Obstacle.position obs) + fst (Obstacle.dimensions obs)) ->
              IZR (snd (Obstacle.position obs)) <= y
              <= IZR (snd (Obstacle.position obs) + snd (Obstacle.dimensions obs)) ->
              IZR (DynamicCharge.radius p) ^ 2
              < (x - fst (DynamicCharge.position p)) ^ 2
                + (y - snd (DynamicCharge.position p)) ^ 2).
Proof.
  split.
  - intros p obs x y Hr Hx Hy Hdisc.
    apply detect_collision_true_iff.
    apply IZR_le in Hr.
    set (r := IZR (DynamicCharge.radius p)) in *.
    set (px := fst (DynamicCharge.position p)) in *.
    set (py := snd (DynamicCharge.position p)) in *.
    assert (Hsx : 0 <= (x - px) ^ 2) by apply pow2_ge_0.
    assert (Hsy : 0 <= (y - py) ^ 2) by apply pow2_ge_0.
    assert (Hax : - r <= x - px <= r) by (split; nra).
    assert (Hay : - r <= y - py <= r) by (split; nra).
    lra.
  - exists (DynamicCharge.with_position DynamicCharge.init (0, 0)),
           (Obstacle.init 8 8 5 5 (0, 0, 0)%Z).
    split.
    + apply detect_collision_true_iff. simpl. lra.
    + simpl. intros x y Hx Hy. nra.
Qed.

Lemma detect_collision_covers_disc_witness :
  DynamicCharge.detect_collision
    (DynamicCharge.with_position DynamicCharge.init (100, 100))
    (Obstacle.init 105 100 20 20 (0, 0, 0)%Z) = true.
Proof.
  apply (proj1 detect_collision_covers_disc
           (DynamicCharge.with_position DynamicCharge.init (100, 100))
           (Obstacle.init 105 100 20 20 (0, 0, 0)%Z) 105 100).
  - simpl. lia.
  - simpl. lra.
  - simpl. lra.
  - simpl. lra.
Defined.

(** ** One frame of the game screen *)

Lemma check_obstacles_spec (p : DynamicCharge.t) (obstacles : list Obstacle.t)
    (running : bool) :
  check_obstacles p obstacles running
  = running && negb (existsb (DynamicCharge.detect_collision p) obstacles).
Proof.
  unfold check_obstacles. revert running.
  induction obstacles as [| obs l IH]; intros running; cbn [fold_left existsb].
  - now rewrite andb_true_r.
  - rewrite IH. destruct (DynamicCharge.detect_collision p obs); cbn [orb negb].
    + now rewrite andb_false_r.
    + reflexivity.
Qed.

Lemma net_force_calc_raise_kind (force_type : string)
    (primary_charge : DynamicCharge.t) (charges : list StationaryCharge.t)
    (e : exn) :
  net_force_calc force_type primary_charge charges = Raise e ->
  e = ZeroDivisionError.
Proof.
  intros H.
  destruct (net_force_calc_outcome force_type primary_charge charges)
    as [Hok Hraise].
  destruct (Forall_Exists_dec
              (fun charge => StationaryCharge.position charge
                             <> DynamicCharge.position primary_charge)
              (fun charge =>
                 match vec_eq_dec (StationaryCharge.position charge)
                                  (DynamicCharge.position primary_charge) with
                 | left E => right (fun N => N E)
                 | right N => left N
                 end) charges) as [Hall | Hex].
  - destruct (Hok Hall) as (total & Htotal). congruence.
  - rewrite Hraise in H; [congruence |].
    apply Exists_exists in Hex. apply Exists_exists.
    destruct Hex as (c & Hin & Hc). exists c. split; [exact Hin |].
    destruct (vec_eq_dec (StationaryCharge.position c)
                         (DynamicCharge.position primary_charge)); tauto.
Qed.

Lemma integrate_stopped (s : state) : run s = false -> integrate s = Ok s.
Proof. intros H. unfold integrate. now rewrite H. Qed.

Lemma integrate_running (s : state) (g e : vec) :
  run s = true ->
  DynamicCharge.mass (primary_charge s) <> 0%Z ->
  net_force_calc "gravitational" (primary_charge s) (charges s) = Ok g ->
  net_force_calc "electrostatic" (primary_charge s) (charges s) = Ok e ->
  integrate s
  = Ok (set_primary_charge
          (set_e_force (set_g_force s [fst g; snd g]) [fst e; snd e])
          (fst (DynamicCharge.move (fst g + fst e, snd g + snd e)
                                   (primary_charge s)))).
Proof.
  intros Hrun Hm Hg He. unfold integrate. rewrite Hrun, Hg.
  cbn [rbind]. cbv zeta.
  change (charges (set_g_force s [fst g; snd g])) with (charges s).
  change (primary_charge (set_g_force s [fst g; snd g])) with (primary_charge s).
  rewrite He. cbn [rbind]. cbv zeta.
  change (primary_charge (set_e_force (set_g_force s [fst g; snd g])
                                      [fst e; snd e]))
    with (primary_charge s).
  rewrite (move_ok _ _ Hm). reflexivity.
Qed.

Lemma integrate_raise_kind (s : state) (e : exn) :
  DynamicCharge.mass (primary_charge s) <> 0%Z ->
  integrate s = Raise e -> e = ZeroDivisionError.
Proof.
  intros Hm H. unfold integrate in H.
  destruct (run s); [| discriminate].
  destruct (net_force_calc "gravitational" _ _) as [g | x] eqn:Eg;
    cbn [rbind] in H.
  - cbv zeta in H.
    destruct (net_force_calc "electrostatic" _ _) as [f | x] eqn:Ee;
      cbn [rbind] in H.
    + rewrite move_ok in H by exact Hm. discriminate.
    + injection H as <-. now apply net_force_calc_raise_kind in Ee.
  - injection H as <-. now apply net_force_calc_raise_kind in Eg.
Qed.

Lemma integrate_frame (s s' : state) :
  integrate s = Ok s' ->
  play s' = play s /\ run s' = run s /\ charges s' = charges s
  /\ level_slider s' = level_slider s /\ mass_slider s' = mass_slider s
  /\ charge_slider s' = charge_slider s /\ active_level s' = active_level s.
Proof.
  unfold integrate. intros H.
  destruct (run s) eqn:Er;
    [| injection H as <-; repeat split; exact Er].
  destruct (net_force_calc "gravitational" _ _) as [g | x];
    cbn [rbind] in H; [| discriminate].
  cbv zeta in H.
  destruct (net_force_calc "electrostatic" _ _) as [f | x];
    cbn [rbind] in H; [| discriminate].
  destruct (DynamicCharge.move _ _) as [p [u | x]]; [| discriminate].
  injection H as <-. repeat split. exact Er.
Qed.

(** What the frame does after the integration. *)
Lemma game_update_finish (s : state) (obstacles : list Obstacle.t) (s1 : state) :
  well_formed s ->
  getitem levels (active_level s) = Ok obstacles ->
  integrate (set_charges
               (set_run s (check_obstacles (primary_charge s) obstacles (run s)))
               (remove_fallen (charges s))) = Ok s1 ->
  exists m q : Z,
    Slider.get_val (mass_slider s) = Ok m
    /\ Slider.get_val (charge_slider s) = Ok q
    /\ game_update s
       = Ok (let s2 := set_primary_charge s1
                         (DynamicCharge.with_charge
                            (DynamicCharge.with_mass (primary_charge s1) m) q) in
             if DynamicCharge.detect_collision (primary_charge s2) goal
             then set_run s2 false else s2).
Proof.
  intros Hs Hobs Hint.
  destruct (get_val_of mass_slider_init (mass_slider s)) as (m & Hm & _);
    [simpl; lia | simpl; lia | apply (wf_mass_slider s Hs) |].
  destruct (get_val_of charge_slider_init (charge_slider s)) as (q & Hq & _);
    [simpl; lia | simpl; lia | apply (wf_charge_slider s Hs) |].
  exists m, q. split; [exact Hm |]. split; [exact Hq |].
  destruct (integrate_frame _ _ Hint) as (_ & _ & _ & _ & Hms & Hcs & _).
  cbn [mass_slider charge_slider set_charges set_run] in Hms, Hcs.
  unfold game_update. rewrite Hobs. cbn [rbind]. cbv zeta.
  change (charges (set_run s (check_obstacles (primary_charge s) obstacles
                                              (run s))))
    with (charges s).
  rewrite Hint. cbn [rbind].
  rewrite Hms, Hm. cbn [rbind].
  change (charge_slider
            (set_primary_charge s1
               (DynamicCharge.with_mass (primary_charge s1) m)))
    with (charge_slider s1).
  rewrite Hcs, Hq. cbn [rbind]. reflexivity.
Qed.

(** X14.  In a well-formed state, a frame of the game screen in which the
    run flag is off, or in which the particle touches an obstacle of the
    level, never raises, even with a charge at the position of the
    particle: it leaves the run flag off and the position, velocity and
    acceleration of the particle as they were, removes fallen charges, and
    copies the values of the two sliders into the mass and the charge. *)
Theorem stopped_frame_freezes (s : state) (obstacles : list Obstacle.t) :
  well_formed s ->
  getitem levels (active_level s) = Ok obstacles ->
  run s = false
  \/ existsb (DynamicCharge.detect_collision (primary_charge s)) obstacles = true ->
  exists s' : state,
    game_update s = Ok s'
    /\ run s' = false
    /\ DynamicCharge.position (primary_charge s')
       = DynamicCharge.position (primary_charge s)
    /\ DynamicCharge.velocity (primary_charge s')
       = DynamicCharge.velocity (primary_charge s)
    /\ DynamicCharge.acceleration (primary_charge s')
       = DynamicCharge.acceleration (primary_charge s)
    /\ charges s' = remove_fallen (charges s)
    /\ Slider.get_val (mass_slider s) = Ok (DynamicCharge.mass (primary_charge s'))
    /\ Slider.get_val (charge_slider s)
       = Ok (DynamicCharge.charge (primary_charge s')).
Proof.
  intros Hs Hobs Hstop.
  assert (Hrun : check_obstacles (primary_charge s) obstacles (run s) = false).
  { rewrite check_obstacles_spec.
    destruct Hstop as [H | H]; rewrite H; [reflexivity | apply andb_false_r]. }
  set (s0 := set_charges
               (set_run s (check_obstacles (primary_charge s) obstacles (run s)))
               (remove_fallen (charges s))).
  assert (Hint : integrate s0 = Ok s0).
  { apply integrate_stopped. unfold s0. cbn [run set_charges set_run].
    exact Hrun. }
  destruct (game_update_finish s obstacles s0 Hs Hobs Hint)
    as (m & q & Hm & Hq & Hupdate).
  eexists. split; [exact Hupdate |]. cbv zeta.
  destruct (DynamicCharge.detect_collision _ goal);
    (split; [cbn [run set_run set_primary_charge]; try reflexivity;
             unfold s0; cbn [run set_charges set_run]; exact Hrun |]);
    repeat split; try reflexivity; assumption.
Qed.

Lemma stopped_frame_freezes_witness :
  exists s' : state,
    game_update (set_play initial_state true) = Ok s'
    /\ run s' = false
    /\ DynamicCharge.position (primary_charge s')
       = DynamicCharge.position (primary_charge (set_play initial_state true)).
Proof.
  destruct (stopped_frame_freezes (set_play initial_state true) [])
    as (s' & H1 & H2 & H3 & _).
  - apply wf_set_play, well_formed_initial.
  - reflexivity.
  - left. reflexivity.
  - exists s'. split; [exact H1 |]. split; [exact H2 | exact H3].
Defined.

(** X15.  In a well-formed state, a frame in which the run flag is on, the
    particle touches no obstacle of the level and no remaining charge lies
    at the position of the particle never raises: the position advances by
    the velocity, the velocity by the acceleration, the new acceleration is
    the sum of the gravitational pulls and of the Coulomb forces of the
    remaining charges divided by the mass the particle had in this frame,
    and the run flag stays on unless the particle now touches the goal. *)
Theorem running_frame_integrates (s : state) (obstacles : list Obstacle.t) :
  well_formed s ->
  getitem levels (active_level s) = Ok obstacles ->
  run s = true ->
  existsb (DynamicCharge.detect_collision (primary_charge s)) obstacles = false ->
  Forall (fun charge => DynamicCharge.position (primary_charge s)
                        <> StationaryCharge.position charge)
         (remove_fallen (charges s)) ->
  let p := primary_charge s in
  let l := remove_fallen (charges s) in
  let force := vadd (vsum (map (newton p) l)) (vsum (map (coulomb p) l)) in
  exists s' : state,
    game_update s = Ok s'
    /\ DynamicCharge.position (primary_charge s')
       = (fst (DynamicCharge.position p) + fst (DynamicCharge.velocity p),
          snd (DynamicCharge.position p) + snd (DynamicCharge.velocity p))
    /\ DynamicCharge.velocity (primary_charge s')
       = (fst (DynamicCharge.velocity p) + fst (DynamicCharge.acceleration p),
          snd (DynamicCharge.velocity p) + snd (DynamicCharge.acceleration p))
    /\ DynamicCharge.acceleration (primary_charge s')
       = (fst force / IZR (DynamicCharge.mass p),
          snd force / IZR (DynamicCharge.mass p))
    /\ run s' = negb (DynamicCharge.detect_collision (primary_charge s') goal)
    /\ charges s' = l.
Proof.
  intros Hs Hobs Hrun Hfree Hall p l force.
  assert (Hrunning : check_obstacles p obstacles (run s) = true).
  { rewrite check_obstacles_spec. unfold p. now rewrite Hrun, Hfree. }
  set (s0 := set_charges (set_run s (check_obstacles p obstacles (run s))) l).
  assert (Hr : (0 < DynamicCharge.radius p)%Z).
  { unfold p. rewrite (wf_radius s Hs). lia. }
  assert (Hm : DynamicCharge.mass p <> 0%Z).
  { assert (H := wf_mass s Hs). unfold p. lia. }
  assert (He : net_force_calc "electrostatic" p l
               = Ok (vsum (map (coulomb p) l))).
  { unfold net_force_calc, vsum. apply for_each_sum. intros total c Hc.
    apply net_force_body_coulomb; [exact Hr |].
    rewrite Forall_forall in Hall. now apply Hall. }
  assert (Hg : net_force_calc "gravitational" p l
               = Ok (vsum (map (newton p) l))).
  { unfold net_force_calc, vsum. apply for_each_sum. intros total c Hc.
    apply net_force_body_newton; [exact Hr |].
    rewrite Forall_forall in Hall. now apply Hall. }
  assert (Hint := integrate_running s0 _ _ Hrunning Hm Hg He).
  destruct (game_update_finish s obstacles _ Hs Hobs Hint)
    as (m & q & _ & _ & Hupdate).
  eexists. split; [exact Hupdate |]. cbv zeta.
  set (s2 := set_primary_charge _ _).
  assert (H2 : DynamicCharge.position (primary_charge s2)
               = (fst (DynamicCharge.position p) + fst (DynamicCharge.velocity p),
                  snd (DynamicCharge.position p) + snd (DynamicCharge.velocity p))
               /\ DynamicCharge.velocity (primary_charge s2)
                  = (fst (DynamicCharge.velocity p)
                     + fst (DynamicCharge.acceleration p),
                     snd (DynamicCharge.velocity p)
                     + snd (DynamicCharge.acceleration p))
               /\ DynamicCharge.acceleration (primary_charge s2)
                  = (fst force / IZR (DynamicCharge.mass p),
                     snd force / IZR (DynamicCharge.mass p))
               /\ run s2 = true /\ charges s2 = l).
  { unfold s2.
    cbn [primary_charge set_primary_charge set_run set_e_force set_g_force].
    rewrite (move_ok (primary_charge s0) _ Hm).
    repeat split; try reflexivity.
    unfold s0. cbn [run set_primary_charge set_e_force set_g_force
                    set_charges set_run].
    exact Hrunning. }
  destruct H2 as (Hpos & Hvel & Hacc & Hrun2 & Hch).
  destruct (DynamicCharge.detect_collision (primary_charge s2) goal) eqn:E.
  - change (primary_charge (set_run s2 false)) with (primary_charge s2).
    rewrite E. repeat split; assumption || reflexivity.
  - rewrite E. repeat split; assumption.
Qed.

Lemma well_formed_at_goal : well_formed at_goal.
Proof.
  unfold at_goal. apply wf_set_primary_charge.
  - simpl. lia.
  - simpl. lia.
  - reflexivity.
  - apply wf_set_run, wf_set_play, well_formed_initial.
Qed.

Lemma running_frame_integrates_witness :
  exists s' : state,
    game_update at_goal = Ok s'
    /\ DynamicCharge.position (primary_charge s')
       = (fst (DynamicCharge.position (primary_charge at_goal))
          + fst (DynamicCharge.velocity (primary_charge at_goal)),
          snd (DynamicCharge.position (primary_charge at_goal))
          + snd (DynamicCharge.velocity (primary_charge at_goal))).
Proof.
  destruct (running_frame_integrates at_goal []) as (s' & H1 & H2 & _).
  - exact well_formed_at_goal.
  - reflexivity.
  - reflexivity.
  - reflexivity.
  - constructor.
  - exists s'. split; [exact H1 | exact H2].
Defined.

(** X16.  In a well-formed state, a frame in which the run flag is on, the
    particle touches no obstacle of the level and some remaining charge lies
    exactly at the position of the particle raises [ZeroDivisionError]. *)
Theorem running_frame_crashes (s : state) (obstacles : list Obstacle.t) :
  well_formed s ->
  getitem levels (active_level s) = Ok obstacles ->
  run s = true ->
  existsb (DynamicCharge.detect_collision (primary_charge s)) obstacles = false ->
  Exists (fun charge => StationaryCharge.position charge
                        = DynamicCharge.position (primary_charge s))
         (remove_fallen (charges s)) ->
  game_update s = Raise ZeroDivisionError.
Proof.
  intros Hs Hobs Hrun Hfree Hex.
  assert (Hrunning : check_obstacles (primary_charge s) obstacles (run s) = true).
  { rewrite check_obstacles_spec. now rewrite Hrun, Hfree. }
  unfold game_update. rewrite Hobs. cbn [rbind]. cbv zeta.
  unfold integrate.
  cbn [run primary_charge charges set_charges set_run].
  rewrite Hrunning.
  destruct (net_force_calc_outcome "gravitational" (primary_charge s)
              (remove_fallen (charges s))) as [_ Hraise].
  rewrite (Hraise Hex). reflexivity.
Qed.

Lemma running_frame_crashes_witness :
  game_update
    (set_charges (set_run (set_play initial_state true) true)
                 [StationaryCharge.init 1 launch_point])
  = Raise ZeroDivisionError.
Proof.
  apply (running_frame_crashes
           (set_charges (set_run (set_play initial_state true) true)
                        [StationaryCharge.init 1 launch_point]) []).
  - apply wf_set_charges.
    + constructor; [apply placed_init | constructor].
    + apply wf_set_run, wf_set_play, well_formed_initial.
  - reflexivity.
  - reflexivity.
  - reflexivity.
  - assert (H : existsb fallen [StationaryCharge.init 1 launch_point] = false).
    { unfold existsb, fallen.
      cbn [StationaryCharge.clicked StationaryCharge.init negb].
      now rewrite andb_false_r. }
    cbn [charges set_charges].
    rewrite (proj1 (remove_fallen_fixed _ H)).
    constructor. reflexivity.
Defined.

(** ** The exceptions of the game loop *)

Lemma for_each_raise {A S : Type} (P : S -> Prop) (body : S -> A -> result S) :
  (forall s x s', body s x = Ok s' -> P s -> P s') ->
  forall (l : list A) (s : S) (e : exn),
    for_each body l s = Raise e -> P s ->
    exists (s1 : S) (x : A), P s1 /\ body s1 x = Raise e.
Proof.
  intros Hbody l. induction l as [| x l IH]; intros s e H Hs; simpl in H.
  - discriminate.
  - destruct (body s x) as [s1 | e1] eqn:E; cbn [rbind] in H.
    + apply (IH s1 e H). now apply (Hbody s x).
    + injection H as <-. now exists s, x.
Qed.

Lemma coincident_or_not (p : DynamicCharge.t) (l : list StationaryCharge.t) :
  Forall (fun charge => StationaryCharge.position charge
                        <> DynamicCharge.position p) l
  \/ Exists (fun charge => StationaryCharge.position charge
                           = DynamicCharge.position p) l.
Proof.
  induction l as [| c l [IH | IH]].
  - left. constructor.
  - destruct (vec_eq_dec (StationaryCharge.position c) (DynamicCharge.position p))
      as [E | N].
    + right. now constructor.
    + left. now constructor.
  - right. now apply Exists_cons_tl.
Qed.

Lemma home_event_raise (s : state) (ev : event) (e : exn) :
  well_formed s -> home_event s ev = Raise e -> e = SystemExit.
Proof.
  intros Hs H.
  destruct ev as [| pos button | pos button | pos |]; simpl in H;
    try discriminate.
  - now injection H as <-.
  - destruct (button =? 1)%Z; [| discriminate].
    destruct (Button.detect_click play_button pos).
    + destruct (get_val_of level_slider_init (level_slider s)) as (v & Hv & _);
        [simpl; lia | simpl; lia | apply (wf_level_slider s Hs) |].
      rewrite Hv in H. discriminate.
    + destruct (Button.detect_click quit_button pos);
        [now injection H as <- |].
      destruct (Slider.detect_click (level_slider s) pos); discriminate.
Qed.

Lemma game_event_raise (s : state) (ev : event) (e : exn) :
  game_event s ev = Raise e -> e = SystemExit.
Proof.
  intros H.
  destruct ev as [| pos button | pos button | pos |]; simpl in H;
    try discriminate.
  - now injection H as <-.
  - destruct (button =? 1)%Z; discriminate.
Qed.

Lemma game_update_raise_cause (s : state) (obstacles : list Obstacle.t) (e : exn) :
  well_formed s ->
  getitem levels (active_level s) = Ok obstacles ->
  game_update s = Raise e ->
  e = ZeroDivisionError
  /\ run s = true
  /\ existsb (DynamicCharge.detect_collision (primary_charge s)) obstacles = false
  /\ Exists (fun charge => StationaryCharge.position charge
                           = DynamicCharge.position (primary_charge s))
            (remove_fallen (charges s)).
Proof.
  intros Hs Hobs H.
  set (s0 := set_charges
               (set_run s (check_obstacles (primary_charge s) obstacles (run s)))
               (remove_fallen (charges s))).
  assert (Hm : DynamicCharge.mass (primary_charge s0) <> 0%Z).
  { assert (Hb := wf_mass s Hs). unfold s0. cbn [primary_charge set_charges set_run].
    lia. }
  destruct (integrate s0) as [s1 | e1] eqn:Eint.
  { destruct (game_update_finish s obstacles s1 Hs Hobs Eint)
      as (m & q & _ & _ & Hok). congruence. }
  assert (He : e = e1).
  { unfold game_update in H. rewrite Hobs in H. cbn [rbind] in H. cbv zeta in H.
    change (charges (set_run s (check_obstacles (primary_charge s) obstacles
                                                (run s))))
      with (charges s) in H.
    fold s0 in H. rewrite Eint in H. cbn [rbind] in H. congruence. }
  subst e1. split; [exact (integrate_raise_kind s0 e Hm Eint) |].
  destruct (check_obstacles (primary_charge s) obstacles (run s)) eqn:Erun.
  - rewrite check_obstacles_spec in Erun.
    apply andb_true_iff in Erun. destruct Erun as [Hrun Hfree].
    apply negb_true_iff in Hfree.
    split; [exact Hrun |]. split; [exact Hfree |].
    destruct (coincident_or_not (primary_charge s) (remove_fallen (charges s)))
      as [Hall | Hex]; [| exact Hex].
    exfalso.
    destruct (net_force_calc_outcome "gravitational" (primary_charge s0)
                (charges s0)) as [Hg _].
    destruct (net_force_calc_outcome "electrostatic" (primary_charge s0)
                (charges s0)) as [Hel _].
    destruct (Hg Hall) as (g & Eg). destruct (Hel Hall) as (f & Ef).
    rewrite (integrate_running s0 g f) in Eint; try assumption;
      [discriminate |].
    unfold s0. cbn [run set_charges set_run]. reflexivity.
  - exfalso. rewrite integrate_stopped in Eint; [discriminate |].
    unfold s0. cbn [run set_charges set_run]. reflexivity.
Qed.

(** X18.  Every state that the game loop reaches from the initial state is
    well formed: the three sliders keep their tracks and domains with the
    knob on the track, the active level is between 0 and 3, the particle has
    radius 10, a mass between 1 and 100 and a charge between -25 and 25,
    and every placed charge has radius 10, mass 1 and charge 1 or -1; hence
    [move] cannot raise for the particle of such a state. *)
Theorem reachable_states (queues : list (list event)) (s : state) :
  game_loop queues initial_state = Ok s ->
  slider_of level_slider_init (level_slider s)
  /\ slider_of mass_slider_init (mass_slider s)
  /\ slider_of charge_slider_init (charge_slider s)
  /\ (0 <= active_level s <= 3)%Z
  /\ DynamicCharge.radius (primary_charge s) = 10%Z
  /\ (1 <= DynamicCharge.mass (primary_charge s) <= 100)%Z
  /\ (-25 <= DynamicCharge.charge (primary_charge s) <= 25)%Z
  /\ Forall placed (charges s)
  /\ forall force : vec,
       snd (DynamicCharge.move force (primary_charge s)) = Ok tt.
Proof.
  intros H. apply game_loop_well_formed in H.
  destruct H as [Hl Hm Hc Ha Hmass Hcharge Hr Hch].
  split; [exact Hl |]. split; [exact Hm |]. split; [exact Hc |].
  split; [exact Ha |]. split; [exact Hr |]. split; [exact Hmass |].
  split; [exact Hcharge |]. split; [exact Hch |].
  intros force. apply move_acceleration. lia.
Qed.

Lemma reachable_states_witness :
  exists s : state,
    game_loop [[MOUSEBUTTONDOWN (540, 310)%Z 1]] initial_state = Ok s
    /\ (1 <= DynamicCharge.mass (primary_charge s) <= 100)%Z
    /\ Forall placed (charges s).
Proof.
  eexists. split; [reflexivity |].
  destruct (reachable_states [[MOUSEBUTTONDOWN (540, 310)%Z 1]] _ eq_refl)
    as (_ & _ & _ & _ & _ & Hm & _ & Hc & _).
  split; [exact Hm | exact Hc].
Defined.

(** ** The layout of the widgets *)

Lemma button_hit (b : Button.t) (pos : Z * Z) :
  Button.detect_click b pos = true ->
  (fst (Button.position b) <= fst pos
   <= fst (Button.position b) + fst (Button.dimensions b))%Z
  /\ (snd (Button.position b) <= snd pos
      <= snd (Button.position b) + snd (Button.dimensions b))%Z.
Proof.
  unfold Button.detect_click.
  rewrite !andb_true_iff, !Z.leb_le. tauto.
Qed.

Lemma slider_hit (w0 w : Slider.t) (pos : Z * Z) :
  slider_of w0 w ->
  Slider.detect_click w pos = true ->
  (fst (Slider.position w0) - Slider.radius w0 <= fst pos
   <= fst (Slider.position w0) + Slider.width w0 + Slider.radius w0)%Z
  /\ (snd (Slider.position w0) - Slider.radius w0 <= snd pos
      <= snd (Slider.position w0) + Slider.radius w0)%Z.
Proof.
  intros (Hp & Hw & _ & Hr & Ht). unfold on_track in Ht.
  unfold Slider.detect_click.
  rewrite !andb_true_iff, !Z.leb_le. rewrite <- Hp, <- Hw, <- Hr. lia.
Qed.

(** X19.  In a well-formed state a click answers to at most one widget of
    the screen that is shown: the six buttons and the two slider knobs of
    the game screen do not overlap, nor do the two buttons and the knob of
    the home screen. *)
Theorem one_widget_per_click (s : state) (pos : Z * Z) :
  well_formed s ->
  (count_true (widgets_hit s pos) <= 1)%nat
  /\ (count_true (home_widgets_hit s pos) <= 1)%nat.
Proof.
  intros Hs.
  assert (Hm := slider_hit _ _ pos (wf_mass_slider s Hs)).
  assert (Hc := slider_hit _ _ pos (wf_charge_slider s Hs)).
  assert (Hl := slider_hit _ _ pos (wf_level_slider s Hs)).
  assert (B1 := button_hit add_positive_charges pos).
  assert (B2 := button_hit add_negative_charge pos).
  assert (B3 := button_hit run_button pos).
  assert (B4 := button_hit reset_button pos).
  assert (B5 := button_hit clear_button pos).
  assert (B6 := button_hit home_button pos).
  assert (B7 := button_hit play_button pos).
  assert (B8 := button_hit quit_button pos).
  cbn in Hm, Hc, Hl, B1, B2, B3, B4, B5, B6, B7, B8.
  unfold count_true, widgets_hit, home_widgets_hit.
  split.
  - destruct (Button.detect_click add_positive_charges pos);
      destruct (Button.detect_click add_negative_charge pos);
      destruct (Button.detect_click run_button pos);
      destruct (Button.detect_click reset_button pos);
      destruct (Button.detect_click clear_button pos);
      destruct (Button.detect_click home_button pos);
      destruct (Slider.detect_click (mass_slider s) pos);
      destruct (Slider.detect_click (charge_slider s) pos);
      cbn [filter List.length]; lia.
  - destruct (Button.detect_click play_button pos);
      destruct (Button.detect_click quit_button pos);
      destruct (Slider.detect_click (level_slider s) pos);
      cbn [filter List.length]; lia.
Qed.

Lemma one_widget_per_click_witness :
  (count_true (widgets_hit initial_state (660, 660)%Z) <= 1)%nat.
Proof.
  apply (one_widget_per_click initial_state (660, 660)%Z).
  exact well_formed_initial.
Defined.

(** ** What the clicks of the game screen do *)

Lemma left_click_run (pos : Z * Z) (s : state) :
  run (left_click pos s)
  = if Button.detect_click reset_button pos then false
    else if Button.detect_click home_button pos then false
    else if Button.detect_click run_button pos then true
    else run s.
Proof.
  unfold left_click, block. cbn [fold_left].
  destruct (Button.detect_click reset_button pos);
    destruct (Button.detect_click home_button pos);
    destruct (Button.detect_click run_button pos);
    destruct (Button.detect_click clear_button pos);
    destruct (Button.detect_click add_positive_charges pos);
    destruct (Button.detect_click add_negative_charge pos);
    repeat match goal with
           | |- context [if Slider.detect_click ?w ?p then _ else _] =>
               destruct (Slider.detect_click w p)
           end; reflexivity.
Qed.

Lemma left_click_primary_charge (pos : Z * Z) (s : state) :
  primary_charge (left_click pos s)
  = if Button.detect_click reset_button pos
       || Button.detect_click home_button pos
    then DynamicCharge.reset (primary_charge s)
    else primary_charge s.
Proof.
  unfold left_click, block. cbn [fold_left].
  destruct (Button.detect_click reset_button pos);
    destruct (Button.detect_click home_button pos);
    destruct (Button.detect_click run_button pos);
    destruct (Button.detect_click clear_button pos);
    destruct (Button.detect_click add_positive_charges pos);
    destruct (Button.detect_click add_negative_charge pos);
    repeat match goal with
           | |- context [if Slider.detect_click ?w ?p then _ else _] =>
               destruct (Slider.detect_click w p)
           end; reflexivity.
Qed.

Lemma left_click_play (pos : Z * Z) (s : state) :
  play (left_click pos s)
  = if Button.detect_click home_button pos then false else play s.
Proof.
  unfold left_click, block. cbn [fold_left].
  destruct (Button.detect_click reset_button pos);
    destruct (Button.detect_click home_button pos);
    destruct (Button.detect_click run_button pos);
    destruct (Button.detect_click clear_button pos);
    destruct (Button.detect_click add_positive_charges pos);
    destruct (Button.detect_click add_negative_charge pos);
    repeat match goal with
           | |- context [if Slider.detect_click ?w ?p then _ else _] =>
               destruct (Slider.detect_click w p)
           end; reflexivity.
Qed.

Lemma run_button_alone (pos : Z * Z) :
  Button.detect_click run_button pos = true ->
  Button.detect_click reset_button pos = false
  /\ Button.detect_click home_button pos = false.
Proof.
  intros H. apply button_hit in H. cbn in H.
  split; apply not_true_is_false; intros H'; apply button_hit in H';
    cbn in H'; lia.
Qed.

(** X20.  Among the events of the game screen only a left click on the run
    button turns the run flag on, and such a click always does; a left
    click on the reset or the home button turns it off.  A queue of events
    without a click on the run button therefore leaves a stopped game
    stopped. *)
Theorem run_flag_after_events :
  (forall (pos : Z * Z) (s : state),
      Button.detect_click run_button pos = true ->
      run (left_click pos s) = true)
  /\ (forall (pos : Z * Z) (s : state),
         Button.detect_click reset_button pos = true
         \/ Button.detect_click home_button pos = true ->
         run (left_click pos s) = false)
  /\ (forall (events : list event) (s s' : state),
         forallb (fun ev => negb (run_click ev)) events = true ->
         run s = false ->
         for_each game_event events s = Ok s' ->
         run s' = false).
Proof.
  split; [| split].
  - intros pos s H. rewrite left_click_run.
    destruct (run_button_alone pos H) as [H1 H2]. now rewrite H, H1, H2.
  - intros pos s H. rewrite left_click_run.
    destruct (Button.detect_click reset_button pos); [reflexivity |].
    destruct H as [H | H]; [discriminate | now rewrite H].
  - exact events_keep_stopped.
Qed.

Lemma run_flag_after_events_witness :
  run (left_click (660, 660)%Z initial_state) = true
  /\ run (left_click (760, 660)%Z (set_run initial_state true)) = false.
Proof.
  destruct run_flag_after_events as (H1 & H2 & _).
  split.
  - apply H1. reflexivity.
  - apply H2. left. reflexivity.
Defined.

(** X21.  A left click on the reset button puts the particle back at the
    launch point with zero velocity and acceleration and stays on the game
    screen; a left click on the home button does the same and leaves the
    game screen; any other left click leaves the particle and the screen as
    they are. *)
Theorem reset_and_home_clicks (pos : Z * Z) (s : state) :
  (Button.detect_click reset_button pos = true ->
   primary_charge (left_click pos s) = DynamicCharge.reset (primary_charge s)
   /\ play (left_click pos s) = play s)
  /\ (Button.detect_click home_button pos = true ->
      primary_charge (left_click pos s) = DynamicCharge.reset (primary_charge s)
      /\ play (left_click pos s) = false)
  /\ (Button.detect_click reset_button pos = false ->
      Button.detect_click home_button pos = false ->
      primary_charge (left_click pos s) = primary_charge s
      /\ play (left_click pos s) = play s).
Proof.
  rewrite left_click_primary_charge, left_click_play.
  split; [| split].
  - intros H. rewrite H. cbn [orb]. split; [reflexivity |].
    destruct (Button.detect_click home_button pos) eqn:E; [| reflexivity].
    apply button_hit in H. apply button_hit in E. cbn in H, E. lia.
  - intros H. rewrite H, orb_true_r. split; reflexivity.
  - intros H1 H2. rewrite H1, H2. split; reflexivity.
Qed.

Lemma reset_and_home_clicks_witness :
  primary_charge (left_click (760, 660)%Z at_goal)
  = DynamicCharge.reset (primary_charge at_goal)
  /\ play (left_click (1060, 660)%Z at_goal) = false.
Proof.
  destruct (reset_and_home_clicks (760, 660)%Z at_goal) as (H1 & _ & _).
  destruct (reset_and_home_clicks (1060, 660)%Z at_goal) as (_ & H2 & _).
  split.
  - apply H1. reflexivity.
  - apply H2. reflexivity.
Defined.

Lemma left_click_charges (pos : Z * Z) (s : state) :
  charges (left_click pos s)
  = let l1 := map (fun charge =>
                     if StationaryCharge.detect_click charge pos
                     then StationaryCharge.with_clicked charge true
                     else charge)
                  (charges s) in
    let l2 := if Button.detect_click add_positive_charges pos
              then l1 ++ [StationaryCharge.init 1 (pos_to_vec pos)] else l1 in
    let l3 := if Button.detect_click add_negative_charge pos
              then l2 ++ [StationaryCharge.init (-1) (pos_to_vec pos)] else l2 in
    if Button.detect_click clear_button pos then [] else l3.
Proof.
  unfold left_click, block. cbn [fold_left].
  destruct (Button.detect_click reset_button pos);
    destruct (Button.detect_click home_button pos);
    destruct (Button.detect_click run_button pos);
    destruct (Button.detect_click clear_button pos);
    destruct (Button.detect_click add_positive_charges pos);
    destruct (Button.detect_click add_negative_charge pos);
    repeat match goal with
           | |- context [if Slider.detect_click ?w ?p then _ else _] =>
               destruct (Slider.detect_click w p)
           end; reflexivity.
Qed.

Lemma motion_charges (pos : Z * Z) (s : state) :
  charges (motion pos s)
  = map (fun charge =>
           if StationaryCharge.clicked charge
           then StationaryCharge.with_position charge (pos_to_vec pos)
           else charge)
        (charges s).
Proof. reflexivity. Qed.

Lemma release_charges (s : state) :
  charges (release s)
  = map (fun charge => StationaryCharge.with_clicked charge false) (charges s).
Proof. reflexivity. Qed.

Lemma map_unchanged {A : Type} (f : A -> A) (l : list A) :
  Forall (fun x => f x = x) l -> map f l = l.
Proof.
  induction 1 as [| x l Hx _ IH]; cbn [map]; [reflexivity |].
  now rewrite Hx, IH.
Qed.

Lemma add_button_alone (pos : Z * Z) :
  (Button.detect_click add_positive_charges pos = true ->
   Button.detect_click add_negative_charge pos = false
   /\ Button.detect_click clear_button pos = false)
  /\ (Button.detect_click add_negative_charge pos = true ->
      Button.detect_click add_positive_charges pos = false
      /\ Button.detect_click clear_button pos = false).
Proof.
  split; intros H; apply button_hit in H; cbn in H;
    split; apply not_true_is_false; intros H'; apply button_hit in H';
    cbn in H'; lia.
Qed.

Lemma place_drag_release_charges (q : Z) (pos pos' : Z * Z) (s : state) :
  Forall (fun charge =>
            StationaryCharge.clicked charge = false
            /\ StationaryCharge.detect_click charge pos = false)
         (charges s) ->
  charges (left_click pos s)
  = map (fun charge =>
           if StationaryCharge.detect_click charge pos
           then StationaryCharge.with_clicked charge true
           else charge)
        (charges s) ++ [StationaryCharge.init q (pos_to_vec pos)] ->
  charges (release (motion pos' (left_click pos s)))
  = charges s
    ++ [StationaryCharge.with_clicked
          (StationaryCharge.with_position
             (StationaryCharge.init q (pos_to_vec pos)) (pos_to_vec pos'))
          false].
Proof.
  intros Hall Hclick.
  assert (H1 : map (fun charge =>
                      if StationaryCharge.detect_click charge pos
                      then StationaryCharge.with_clicked charge true
                      else charge) (charges s) = charges s).
  { apply map_unchanged. eapply Forall_impl; [| exact Hall].
    intros c [_ Hc]. cbv beta. now rewrite Hc. }
  assert (H2 : map (fun charge =>
                      if StationaryCharge.clicked charge
                      then StationaryCharge.with_position charge (pos_to_vec pos')
                      else charge) (charges s) = charges s).
  { apply map_unchanged. eapply Forall_impl; [| exact Hall].
    intros c [Hc _]. cbv beta. now rewrite Hc. }
  assert (H3 : map (fun charge => StationaryCharge.with_clicked charge false)
                   (charges s) = charges s).
  { apply map_unchanged. eapply Forall_impl; [| exact Hall].
    intros c [Hc _]. cbv beta. destruct c. cbn in Hc. subst. reflexivity. }
  rewrite H1 in Hclick.
  rewrite release_charges, motion_charges, Hclick, !map_app, H2, H3.
  reflexivity.
Qed.

(** X22.  Placing a charge: when no charge is held and none lies under the
    mouse, a left click on the plus (minus) button, a mouse motion to [pos']
    and the release of the button add exactly one charge of value 1 (-1) at
    [pos'], not held, behind the charges that were there, and leave those
    as they were. *)
Theorem place_drag_release (pos pos' : Z * Z) (s : state) :
  Forall (fun charge =>
            StationaryCharge.clicked charge = false
            /\ StationaryCharge.detect_click charge pos = false)
         (charges s) ->
  (Button.detect_click add_positive_charges pos = true ->
   exists s' : state,
     for_each game_event
       [MOUSEBUTTONDOWN pos 1; MOUSEMOTION pos'; MOUSEBUTTONUP pos' 1] s = Ok s'
     /\ charges s'
        = charges s
          ++ [StationaryCharge.mk (pos_to_vec pos') 1 1 10 false
                                  (Some (255, 0, 0)%Z)])
  /\ (Button.detect_click add_negative_charge pos = true ->
      exists s' : state,
        for_each game_event
          [MOUSEBUTTONDOWN pos 1; MOUSEMOTION pos'; MOUSEBUTTONUP pos' 1] s = Ok s'
        /\ charges s'
           = charges s
             ++ [StationaryCharge.mk (pos_to_vec pos') (-1) 1 10 false
                                     (Some (0, 0, 255)%Z)]).
Proof.
  intros Hall.
  destruct (add_button_alone pos) as [Hplus Hminus].
  split; intros H.
  - destruct (Hplus H) as [Hn Hc].
    exists (release (motion pos' (left_click pos s))).
    split; [reflexivity |].
    rewrite (place_drag_release_charges 1 pos pos' s Hall); [reflexivity |].
    rewrite left_click_charges, H, Hn, Hc. reflexivity.
  - destruct (Hminus H) as [Hp Hc].
    exists (release (motion pos' (left_click pos s))).
    split; [reflexivity |].
    rewrite (place_drag_release_charges (-1) pos pos' s Hall); [reflexivity |].
    rewrite left_click_charges, H, Hp, Hc. reflexivity.
Qed.

Lemma place_drag_release_witness :
  exists s' : state,
    for_each game_event
      [MOUSEBUTTONDOWN (60, 660)%Z 1; MOUSEMOTION (400, 300)%Z;
       MOUSEBUTTONUP (400, 300)%Z 1] (set_play initial_state true) = Ok s'
    /\ charges s'
       = [StationaryCharge.mk (pos_to_vec (400, 300)%Z) 1 1 10 false
                              (Some (255, 0, 0)%Z)].
Proof.
  destruct (place_drag_release (60, 660)%Z (400, 300)%Z
              (set_play initial_state true)) as [H _].
  - constructor.
  - apply H. reflexivity.
Defined.

(** ** The home screen *)

Lemma home_events_frame (events : list event) (s s' : state) :
  for_each home_event events s = Ok s' ->
  run s' = run s /\ charges s' = charges s
  /\ primary_charge s' = primary_charge s
  /\ mass_slider s' = mass_slider s /\ charge_slider s' = charge_slider s
  /\ (play s = true -> play s' = true).
Proof.
  revert s. induction events as [| ev events IH]; intros s H; simpl in H.
  - injection H as <-. repeat split; auto.
  - destruct (home_event s ev) as [s1 | e] eqn:E; cbn [rbind] in H;
      [| discriminate].
    destruct (IH s1 H) as (H1 & H2 & H3 & H4 & H5 & H6).
    assert (Hstep : run s1 = run s /\ charges s1 = charges s
                    /\ primary_charge s1 = primary_charge s
                    /\ mass_slider s1 = mass_slider s
                    /\ charge_slider s1 = charge_slider s
                    /\ (play s = true -> play s1 = true)).
    { destruct ev as [| pos button | pos button | pos |]; simpl in E.
      - discriminate.
      - destruct (button =? 1)%Z;
          [| injection E as <-; repeat split; auto].
        destruct (Button.detect_click play_button pos).
        + destruct (Slider.get_val (level_slider s)); cbn [rbind] in E;
            [| discriminate].
          injection E as <-. repeat split; auto.
        + destruct (Button.detect_click quit_button pos); [discriminate |].
          destruct (Slider.detect_click (level_slider s) pos);
            injection E as <-; repeat split; auto.
      - injection E as <-. repeat split; auto.
      - injection E as <-. repeat split; auto.
      - injection E as <-. repeat split; auto. }
    destruct Hstep as (S1 & S2 & S3 & S4 & S5 & S6).
    repeat split; try congruence. auto.
Qed.

(** X23.  The home screen touches nothing of the game: whatever events it
    handles, the run flag, the placed charges, the particle and the mass and
    charge sliders stay as they were, and a left click on the play button
    (with a well-formed state) enters the game screen with the value of the
    level slider as the active level. *)
Theorem home_screen_frame :
  (forall (events : list event) (s s' : state),
      play s = false ->
      iteration s events = Ok s' ->
      run s' = run s /\ charges s' = charges s
      /\ primary_charge s' = primary_charge s
      /\ mass_slider s' = mass_slider s /\ charge_slider s' = charge_slider s)
  /\ (forall (pos : Z * Z) (s : state),
         well_formed s ->
         Button.detect_click play_button pos = true ->
         exists s' : state,
           home_event s (MOUSEBUTTONDOWN pos 1) = Ok s'
           /\ play s' = true
           /\ Slider.get_val (level_slider s) = Ok (active_level s')
           /\ level_slider s' = level_slider s).
Proof.
  split.
  - intros events s s' Hplay H. unfold iteration in H. rewrite Hplay in H.
    cbn [negb] in H.
    destruct (home_events_frame events s s' H) as (H1 & H2 & H3 & H4 & H5 & _).
    repeat split; assumption.
  - intros pos s Hs Hclick.
    destruct (get_val_of level_slider_init (level_slider s)) as (v & Hv & _);
      [simpl; lia | simpl; lia | apply (wf_level_slider s Hs) |].
    exists (set_play (set_active_level s v) true).
    cbn [home_event]. change (1 =? 1)%Z with true. cbv iota.
    rewrite Hclick, Hv. cbn [rbind]. repeat split.
Qed.

Lemma home_screen_frame_witness :
  exists s' : state,
    home_event initial_state (MOUSEBUTTONDOWN (540, 310)%Z 1) = Ok s'
    /\ play s' = true
    /\ Slider.get_val (level_slider initial_state) = Ok (active_level s').
Proof.
  destruct (proj2 home_screen_frame (540, 310)%Z initial_state)
    as (s' & H1 & H2 & H3 & _).
  - exact well_formed_initial.
  - reflexivity.
  - exists s'. split; [exact H1 |]. split; [exact H2 | exact H3].
Defined.

Lemma hyp_calc_metric_witness :
  hyp_calc (3, 4) (3, 4) = 0
  /\ hyp_calc (0, 0) (30, 40) <= hyp_calc (0, 0) (3, 4) + hyp_calc (3, 4) (30, 40).
Proof.
  split.
  - apply (hyp_calc_metric (3, 4) (3, 4) (3, 4)). reflexivity.
  - apply (hyp_calc_metric (0, 0) (3, 4) (30, 40)).
Defined.

(** ** The goal and the events of the same iteration *)





(** ** The exceptions of the net force, the drawing call included *)

Lemma for_each_app {A S : Type} (body : S -> A -> result S) (l1 l2 : list A)
    (s : S) :
  for_each body (l1 ++ l2) s
  = (s1 <- for_each body l1 s ;; for_each body l2 s1)%result.
Proof.
  revert s. induction l1 as [| x l1 IH]; intros s; cbn [app for_each rbind].
  - reflexivity.
  - destruct (body s x) as [s1 | e]; cbn [rbind]; [apply IH | reflexivity].
Qed.

Lemma net_force_pass_passable (force_type : string)
    (primary_charge : DynamicCharge.t) (total : vec)
    (charge : StationaryCharge.t) :
  passable primary_charge charge ->
  exists after : vec,
    net_force_pass force_type primary_charge total charge = Ok after
    /\ net_force_body force_type primary_charge total charge = Ok after.
Proof.
  intros [Hpos Hcolor].
  destruct (net_force_body_ok force_type primary_charge total charge)
    as (after & Hafter); [intros E; now apply Hpos |].
  exists after. split; [| exact Hafter].
  unfold net_force_pass, draw_force_line. rewrite Hafter. cbn [rbind].
  destruct (StationaryCharge.color charge); [reflexivity | contradiction].
Qed.

Lemma net_force_pass_coincident (force_type : string)
    (primary_charge : DynamicCharge.t) (total : vec)
    (charge : StationaryCharge.t) :
  StationaryCharge.position charge = DynamicCharge.position primary_charge ->
  net_force_pass force_type primary_charge total charge
  = Raise ZeroDivisionError.
Proof.
  intros Hpos. unfold net_force_pass.
  now rewrite (net_force_body_coincident _ _ _ _ Hpos).
Qed.

Lemma net_force_pass_colourless (force_type : string)
    (primary_charge : DynamicCharge.t) (total : vec)
    (charge : StationaryCharge.t) :
  StationaryCharge.position charge <> DynamicCharge.position primary_charge ->
  StationaryCharge.color charge = None ->
  net_force_pass force_type primary_charge total charge
  = Raise AttributeError.
Proof.
  intros Hpos Hcolor.
  destruct (net_force_body_ok force_type primary_charge total charge)
    as (after & Hafter); [intros E; now apply Hpos |].
  unfold net_force_pass, draw_force_line. rewrite Hafter, Hcolor. reflexivity.
Qed.

Lemma net_force_passes_passable (force_type : string)
    (primary_charge : DynamicCharge.t) (l : list StationaryCharge.t) :
  Forall (passable primary_charge) l ->
  forall total : vec,
  exists after : vec,
    for_each (net_force_pass force_type primary_charge) l total = Ok after
    /\ for_each (net_force_body force_type primary_charge) l total = Ok after.
Proof.
  induction 1 as [| c l Hc _ IH]; intros total; cbn [for_each].
  - exists total. split; reflexivity.
  - destruct (net_force_pass_passable force_type primary_charge total c Hc)
      as (t & Hpass & Hbody).
    rewrite Hpass, Hbody. cbn [rbind]. apply IH.
Qed.

Lemma first_impassable (primary_charge : DynamicCharge.t)
    (l : list StationaryCharge.t) :
  Forall (passable primary_charge) l
  \/ exists (before : list StationaryCharge.t) (charge : StationaryCharge.t)
            (rest : list StationaryCharge.t),
       l = before ++ charge :: rest
       /\ Forall (passable primary_charge) before
       /\ (StationaryCharge.position charge
           = DynamicCharge.position primary_charge
           \/ (StationaryCharge.position charge
               <> DynamicCharge.position primary_charge
               /\ StationaryCharge.color charge = None)).
Proof.
  induction l as [| c l IH].
  - left. constructor.
  - destruct (vec_eq_dec (StationaryCharge.position c)
                         (DynamicCharge.position primary_charge)) as [E | N].
    + right. exists [], c, l. repeat split; [constructor | now left].
    + destruct (StationaryCharge.color c) as [col |] eqn:Ecol.
      * assert (Hc : passable primary_charge c).
        { split; [exact N | rewrite Ecol; discriminate]. }
        destruct IH as [IH | (before & x & rest & Hl & Hb & Hx)].
        -- left. now constructor.
        -- right. exists (c :: before), x, rest. subst l.
           repeat split; [now constructor | exact Hx].
      * right. exists [], c, l. repeat split; [constructor | right; now split].
Qed.

Lemma net_force_calc_drawn_at (force_type : string)
    (primary_charge : DynamicCharge.t)
    (before : list StationaryCharge.t) (charge : StationaryCharge.t)
    (rest : list StationaryCharge.t) :
  Forall (passable primary_charge) before ->
  (StationaryCharge.position charge = DynamicCharge.position primary_charge ->
   net_force_calc_drawn force_type primary_charge (before ++ charge :: rest)
   = Raise ZeroDivisionError)
  /\ (StationaryCharge.position charge <> DynamicCharge.position primary_charge ->
      StationaryCharge.color charge = None ->
      net_force_calc_drawn force_type primary_charge (before ++ charge :: rest)
      = Raise AttributeError).
Proof.
  intros Hbefore. unfold net_force_calc_drawn. rewrite for_each_app.
  destruct (net_force_passes_passable force_type primary_charge before Hbefore
              (0, 0)) as (t & Ht & _).
  rewrite Ht. cbn [rbind for_each]. split.
  - intros E. now rewrite (net_force_pass_coincident _ _ _ _ E).
  - intros N Hc. now rewrite (net_force_pass_colourless _ _ _ _ N Hc).
Qed.

(** X5.  The loop of [net_force_calc], its drawing call included, returns
    a vector exactly when every charge lies away from the particle and has
    a colour, and then the vector is the one [net_force_calc] computes.  It
    raises [ZeroDivisionError] exactly when the first charge that is not
    such lies at the position of the particle, [AttributeError] exactly
    when that charge lies elsewhere and has no colour, and nothing else. *)
Theorem net_force_calc_raises (force_type : string)
    (primary_charge : DynamicCharge.t) (charges : list StationaryCharge.t) :
  ((exists total : vec,
       net_force_calc_drawn force_type primary_charge charges = Ok total)
   <-> Forall (passable primary_charge) charges)
  /\ (forall total : vec,
         net_force_calc_drawn force_type primary_charge charges = Ok total ->
         net_force_calc force_type primary_charge charges = Ok total)
  /\ (net_force_calc_drawn force_type primary_charge charges
      = Raise ZeroDivisionError
      <-> exists before charge rest,
            charges = before ++ charge :: rest
            /\ Forall (passable primary_charge) before
            /\ StationaryCharge.position charge
               = DynamicCharge.position primary_charge)
  /\ (net_force_calc_drawn force_type primary_charge charges
      = Raise AttributeError
      <-> exists before charge rest,
            charges = before ++ charge :: rest
            /\ Forall (passable primary_charge) before
            /\ StationaryCharge.position charge
               <> DynamicCharge.position primary_charge
            /\ StationaryCharge.color charge = None)
  /\ (forall e : exn,
         net_force_calc_drawn force_type primary_charge charges = Raise e ->
         e = ZeroDivisionError \/ e = AttributeError).
Proof.
  assert (Hgood : Forall (passable primary_charge) charges ->
                  exists total : vec,
                    net_force_calc_drawn force_type primary_charge charges
                    = Ok total
                    /\ net_force_calc force_type primary_charge charges
                       = Ok total).
  { intros H. apply (net_force_passes_passable force_type primary_charge
                       charges H (0, 0)). }
  assert (Hbad : forall before charge rest,
             charges = before ++ charge :: rest ->
             Forall (passable primary_charge) before ->
             (StationaryCharge.position charge
              = DynamicCharge.position primary_charge ->
              net_force_calc_drawn force_type primary_charge charges
              = Raise ZeroDivisionError)
             /\ (StationaryCharge.position charge
                 <> DynamicCharge.position primary_charge ->
                 StationaryCharge.color charge = None ->
                 net_force_calc_drawn force_type primary_charge charges
                 = Raise AttributeError)).
  { intros before charge rest -> Hb. now apply net_force_calc_drawn_at. }
  destruct (first_impassable primary_charge charges)
    as [Hall | (before & c & rest & Hl & Hb & Hc)].
  - destruct (Hgood Hall) as (total & Hdrawn & Hcalc).
    split; [split; [intros _; exact Hall | intros _; now exists total] |].
    split; [intros t Ht; congruence |].
    split; [split; [intros H; congruence |] |].
    { intros (b & x & r & Hx & Hbx & Ex).
      destruct (Hbad b x r Hx Hbx) as [H1 _]. exact (H1 Ex). }
    split; [split; [intros H; congruence |] |].
    { intros (b & x & r & Hx & Hbx & Nx & Cx).
      destruct (Hbad b x r Hx Hbx) as [_ H2]. exact (H2 Nx Cx). }
    intros e H. congruence.
  - destruct (Hbad before c rest Hl Hb) as [Hzero Hattr].
    assert (Hnot : ~ Forall (passable primary_charge) charges).
    { intros Hall. destruct (Hgood Hall) as (total & Hdrawn & _).
      destruct Hc as [E | [N C]].
      - rewrite (Hzero E) in Hdrawn. discriminate.
      - rewrite (Hattr N C) in Hdrawn. discriminate. }
    split.
    { split; [| intros H; contradiction].
      intros (total & Ht). exfalso.
      destruct Hc as [E | [N C]].
      - rewrite (Hzero E) in Ht. discriminate.
      - rewrite (Hattr N C) in Ht. discriminate. }
    split.
    { intros t Ht. exfalso. destruct Hc as [E | [N C]].
      - rewrite (Hzero E) in Ht. discriminate.
      - rewrite (Hattr N C) in Ht. discriminate. }
    split.
    { split.
      - intros H. destruct Hc as [E | [N C]].
        + now exists before, c, rest.
        + rewrite (Hattr N C) in H. discriminate.
      - intros (b & x & r & Hx & Hbx & Ex).
        destruct (Hbad b x r Hx Hbx) as [H1 _]. exact (H1 Ex). }
    split.
    { split.
      - intros H. destruct Hc as [E | [N C]].
        + rewrite (Hzero E) in H. discriminate.
        + now exists before, c, rest.
      - intros (b & x & r & Hx & Hbx & Nx & Cx).
        destruct (Hbad b x r Hx Hbx) as [_ H2]. exact (H2 Nx Cx). }
    intros e H. destruct Hc as [E | [N C]].
    + rewrite (Hzero E) in H. left. congruence.
    + rewrite (Hattr N C) in H. right. congruence.
Qed.

Lemma net_force_calc_raises_witness :
  (exists total : vec,
      net_force_calc_drawn "electrostatic" DynamicCharge.init
                           [StationaryCharge.init 1 (100, 300)] = Ok total)
  /\ net_force_calc_drawn "electrostatic" DynamicCharge.init
       ([StationaryCharge.init 1 (100, 300)]
        ++ StationaryCharge.init (-1) launch_point :: [])
     = Raise ZeroDivisionError
  /\ net_force_calc_drawn "electrostatic" DynamicCharge.init
       ([StationaryCharge.init 1 (100, 300)]
        ++ StationaryCharge.init 0 (200, 300) :: [])
     = Raise AttributeError.
Proof.
  assert (H100 : passable DynamicCharge.init (StationaryCharge.init 1 (100, 300))).
  { split; [| discriminate].
    simpl. intros H. apply (f_equal fst) in H. simpl in H. lra. }
  split; [| split].
  - apply (net_force_calc_raises "electrostatic" DynamicCharge.init
             [StationaryCharge.init 1 (100, 300)]).
    constructor; [exact H100 | constructor].
  - apply (net_force_calc_raises "electrostatic" DynamicCharge.init
             ([StationaryCharge.init 1 (100, 300)]
              ++ StationaryCharge.init (-1) launch_point :: [])).
    exists [StationaryCharge.init 1 (100, 300)],
           (StationaryCharge.init (-1) launch_point), [].
    split; [reflexivity |]. split; [| reflexivity].
    constructor; [exact H100 | constructor].
  - apply (net_force_calc_raises "electrostatic" DynamicCharge.init
             ([StationaryCharge.init 1 (100, 300)]
              ++ StationaryCharge.init 0 (200, 300) :: [])).
    exists [StationaryCharge.init 1 (100, 300)],
           (StationaryCharge.init 0 (200, 300)), [].
    split; [reflexivity |]. split; [constructor; [exact H100 | constructor] |].
    split; [| reflexivity].
    simpl. intros H. apply (f_equal fst) in H. simpl in H. lra.
Defined.

(** ** Where the game loop raises *)

Lemma for_each_raise_at {A S : Type} (body : S -> A -> result S)
    (l : list A) (s : S) (e : exn) :
  for_each body l s = Raise e ->
  exists (done : list A) (x : A) (rest : list A) (s1 : S),
    l = done ++ x :: rest
    /\ for_each body done s = Ok s1
    /\ body s1 x = Raise e.
Proof.
  revert s. induction l as [| x l IH]; intros s H; cbn [for_each] in H.
  - discriminate.
  - destruct (body s x) as [s1 | e1] eqn:E; cbn [rbind] in H.
    + destruct (IH s1 H) as (done & y & rest & s2 & -> & Hdone & Hy).
      exists (x :: done), y, rest, s2. split; [reflexivity |].
      split; [| exact Hy]. cbn [for_each]. rewrite E. exact Hdone.
    + injection H as <-. exists [], x, l, s. now repeat split.
Qed.

Lemma remove_fallen_coloured (l : list StationaryCharge.t) :
  Forall (fun charge => StationaryCharge.color charge <> None) l ->
  Forall (fun charge => StationaryCharge.color charge <> None)
         (remove_fallen l).
Proof.
  rewrite !Forall_forall. intros H x Hx. apply H, remove_fallen_In, Hx.
Qed.

Lemma home_event_charges (s : state) (ev : event) (s' : state) :
  home_event s ev = Ok s' -> charges s' = charges s.
Proof.
  intros H.
  destruct ev as [| pos button | pos button | pos |]; simpl in H.
  - discriminate.
  - destruct (button =? 1)%Z; [| now inversion H].
    destruct (Button.detect_click play_button pos).
    + destruct (Slider.get_val (level_slider s)) as [v | x];
        cbn [rbind] in H; [now inversion H | discriminate].
    + destruct (Button.detect_click quit_button pos); [discriminate |].
      destruct (Slider.detect_click (level_slider s) pos); now inversion H.
  - now inversion H.
  - now inversion H.
  - now inversion H.
Qed.

Lemma home_event_coloured (s : state) (ev : event) (s' : state) :
  home_event s ev = Ok s' -> coloured s -> coloured s'.
Proof.
  intros H Hs. unfold coloured. now rewrite (home_event_charges s ev s' H).
Qed.

Lemma coloured_cond (c : bool) (s1 s2 : state) :
  coloured s1 -> coloured s2 -> coloured (if c then s1 else s2).
Proof. now destruct c. Qed.

Lemma left_click_coloured (pos : Z * Z) (s : state) :
  coloured s -> coloured (left_click pos s).
Proof.
  apply block_invariant. clear s. unfold coloured.
  repeat apply Forall_cons; try apply Forall_nil; intros s Hs.
  - cbn [charges set_charges]. apply Forall_map.
    eapply Forall_impl; [| exact Hs].
    intros c Hc. now destruct (StationaryCharge.detect_click c pos).
  - apply coloured_cond; [| exact Hs]. unfold coloured.
    cbn [charges set_charges]. apply Forall_app. split; [exact Hs |].
    constructor; [discriminate | constructor].
  - apply coloured_cond; [| exact Hs]. unfold coloured.
    cbn [charges set_charges]. apply Forall_app. split; [exact Hs |].
    constructor; [discriminate | constructor].
  - apply coloured_cond; [| exact Hs]. exact Hs.
  - apply coloured_cond; [| exact Hs]. exact Hs.
  - apply coloured_cond; [| exact Hs]. exact Hs.
  - apply coloured_cond; [| exact Hs]. exact Hs.
  - apply coloured_cond; [| exact Hs]. exact Hs.
  - apply coloured_cond; [| exact Hs]. constructor.
Qed.

Lemma release_coloured (s : state) : coloured s -> coloured (release s).
Proof.
  apply block_invariant. clear s. unfold coloured.
  repeat apply Forall_cons; try apply Forall_nil; intros s Hs.
  - cbn [charges set_charges]. apply Forall_map.
    eapply Forall_impl; [| exact Hs]. intros c Hc. exact Hc.
  - exact Hs.
  - exact Hs.
Qed.

Lemma motion_coloured (pos : Z * Z) (s : state) :
  coloured s -> coloured (motion pos s).
Proof.
  apply block_invariant. clear s. unfold coloured.
  repeat apply Forall_cons; try apply Forall_nil; intros s Hs.
  - cbn [charges set_charges]. apply Forall_map.
    eapply Forall_impl; [| exact Hs].
    intros c Hc. now destruct (StationaryCharge.clicked c).
  - exact Hs.
  - exact Hs.
Qed.

Lemma game_event_coloured (s : state) (ev : event) (s' : state) :
  game_event s ev = Ok s' -> coloured s -> coloured s'.
Proof.
  intros H Hs.
  destruct ev as [| pos button | pos button | pos |]; simpl in H.
  - discriminate.
  - destruct (button =? 1)%Z; inversion H; subst;
      [now apply left_click_coloured | exact Hs].
  - inversion H; subst. now apply release_coloured.
  - inversion H; subst. now apply motion_coloured.
  - now inversion H; subst.
Qed.

Lemma game_update_charges (s s' : state) :
  game_update s = Ok s' -> charges s' = remove_fallen (charges s).
Proof.
  unfold game_update. intros H.
  destruct (getitem levels (active_level s)) as [obstacles | e];
    cbn [rbind] in H; [| discriminate].
  cbv zeta in H.
  destruct (integrate _) as [s1 | e] eqn:E1; cbn [rbind] in H; [| discriminate].
  destruct (integrate_frame _ _ E1) as (_ & _ & Hc & _).
  cbn [charges set_charges] in Hc.
  destruct (Slider.get_val (mass_slider s1)) as [m | e];
    cbn [rbind] in H; [| discriminate].
  destruct (Slider.get_val _) as [q | e]; cbn [rbind] in H; [| discriminate].
  injection H as <-.
  destruct (DynamicCharge.detect_collision _ goal); exact Hc.
Qed.

Lemma iteration_coloured (s : state) (events : list event) (s' : state) :
  iteration s events = Ok s' -> coloured s -> coloured s'.
Proof.
  unfold iteration. intros H Hs.
  destruct (negb (play s)).
  - revert H Hs. apply for_each_invariant. exact home_event_coloured.
  - destruct (game_update s) as [s1 | e] eqn:E; cbn [rbind] in H; [| discriminate].
    assert (Hs1 : coloured s1).
    { unfold coloured. rewrite (game_update_charges s s1 E).
      now apply remove_fallen_coloured. }
    revert H Hs1. apply for_each_invariant. exact game_event_coloured.
Qed.

Lemma game_loop_coloured (queues : list (list event)) (s : state) :
  game_loop queues initial_state = Ok s -> coloured s.
Proof.
  intros H.
  apply (for_each_invariant coloured iteration iteration_coloured
           queues initial_state s H).
  constructor.
Qed.

Lemma home_event_raise_quit (s : state) (ev : event) (e : exn) :
  well_formed s -> home_event s ev = Raise e -> quit_event false ev = true.
Proof.
  intros Hs H.
  destruct ev as [| pos button | pos button | pos |]; simpl in H;
    try discriminate; [reflexivity |].
  cbn [quit_event negb andb].
  destruct (button =? 1)%Z; [| discriminate].
  destruct (Button.detect_click play_button pos).
  - destruct (get_val_of level_slider_init (level_slider s)) as (v & Hv & _);
      [simpl; lia | simpl; lia | apply (wf_level_slider s Hs) |].
    rewrite Hv in H. discriminate.
  - destruct (Button.detect_click quit_button pos); [reflexivity |].
    destruct (Slider.detect_click (level_slider s) pos); discriminate.
Qed.

Lemma game_event_raise_quit (s : state) (ev : event) (e : exn) :
  game_event s ev = Raise e -> ev = QUIT.
Proof.
  intros H.
  destruct ev as [| pos button | pos button | pos |]; simpl in H;
    try discriminate; [reflexivity |].
  destruct (button =? 1)%Z; discriminate.
Qed.

Lemma existsb_middle {A : Type} (f : A -> bool) (before : list A) (x : A)
    (rest : list A) :
  f x = true -> existsb f (before ++ x :: rest) = true.
Proof.
  intros H. rewrite existsb_app. cbn [existsb]. rewrite H.
  now rewrite orb_true_r.
Qed.

Lemma coincident_drawn (force_type : string) (p : DynamicCharge.t)
    (l : list StationaryCharge.t) :
  Forall (fun charge => StationaryCharge.color charge <> None) l ->
  Exists (fun charge => StationaryCharge.position charge
                        = DynamicCharge.position p) l ->
  net_force_calc_drawn force_type p l = Raise ZeroDivisionError.
Proof.
  intros Hcol Hex.
  destruct (first_impassable p l)
    as [Hall | (before & c & rest & Hl & Hb & [E | [N C]])].
  - exfalso. apply Exists_exists in Hex. destruct Hex as (x & Hx & Ex).
    rewrite Forall_forall in Hall. destruct (Hall x Hx) as [Nx _].
    now apply Nx.
  - subst l. now apply net_force_calc_drawn_at.
  - exfalso. subst l. rewrite Forall_forall in Hcol.
    apply (Hcol c); [apply in_elt | exact C].
Qed.

(** X17.  When the game loop, started in the initial state, raises, the
    exception comes from one iteration: the iterations before it end in a
    state [s], in which every charge has a colour, and the iteration that
    starts in [s] raises.  The exception is [SystemExit], and then the
    events of that iteration hold a quit (closing the window, or on the home
    screen a left click on the quit button), or it is [ZeroDivisionError],
    and then [s] is on the game screen with the run flag on, the particle
    touches no obstacle of the level, a charge that stays on the field lies
    at the position of the particle, and the frame's first net force, its
    drawing included, raises it.  The loop raises nothing else. *)
Theorem game_loop_exceptions (queues : list (list event)) (e : exn) :
  game_loop queues initial_state = Raise e ->
  exists (done : list (list event)) (events : list event)
         (rest : list (list event)) (s : state),
    queues = done ++ events :: rest
    /\ game_loop done initial_state = Ok s
    /\ iteration s events = Raise e
    /\ coloured s
    /\ ((e = SystemExit /\ existsb (quit_event (play s)) events = true)
        \/ (e = ZeroDivisionError
            /\ play s = true /\ run s = true
            /\ (exists obstacles : list Obstacle.t,
                   getitem levels (active_level s) = Ok obstacles
                   /\ existsb (DynamicCharge.detect_collision (primary_charge s))
                              obstacles = false)
            /\ Exists (fun charge => StationaryCharge.position charge
                                     = DynamicCharge.position (primary_charge s))
                      (remove_fallen (charges s))
            /\ net_force_calc_drawn "gravitational" (primary_charge s)
                 (remove_fallen (charges s)) = Raise ZeroDivisionError
            /\ game_update s = Raise ZeroDivisionError)).
Proof.
  intros H. unfold game_loop in H.
  destruct (for_each_raise_at iteration queues initial_state e H)
    as (done & events & rest & s & Hq & Hdone & Hit).
  exists done, events, rest, s.
  assert (Hs : well_formed s) by exact (game_loop_well_formed done s Hdone).
  assert (Hc : coloured s) by exact (game_loop_coloured done s Hdone).
  split; [exact Hq |]. split; [exact Hdone |]. split; [exact Hit |].
  split; [exact Hc |].
  unfold iteration in Hit.
  destruct (play s) eqn:Eplay; cbn [negb] in Hit.
  - destruct (game_update s) as [s1 | e1] eqn:Eupdate; cbn [rbind] in Hit.
    + left.
      destruct (for_each_raise_at game_event events s1 e Hit)
        as (before & ev & after & s2 & -> & _ & Hev).
      split; [exact (game_event_raise s2 ev e Hev) |].
      apply existsb_middle.
      now rewrite (game_event_raise_quit s2 ev e Hev).
    + injection Hit as <-. right.
      destruct (levels_getitem (active_level s) (wf_active_level s Hs))
        as (obstacles & Hobs).
      destruct (game_update_raise_cause s obstacles e1 Hs Hobs Eupdate)
        as (-> & Hrun & Hfree & Hex).
      split; [reflexivity |]. split; [reflexivity |]. split; [exact Hrun |].
      split; [now exists obstacles |]. split; [exact Hex |].
      split; [| reflexivity].
      apply coincident_drawn; [| exact Hex].
      now apply remove_fallen_coloured.
  - left.
    destruct (for_each_raise_at home_event events s e Hit)
      as (before & ev & after & s2 & -> & Hbefore & Hev).
    assert (Hs2 : well_formed s2).
    { exact (for_each_invariant well_formed home_event home_event_well_formed
               before s s2 Hbefore Hs). }
    split; [exact (home_event_raise s2 ev e Hs2 Hev) |].
    apply existsb_middle. exact (home_event_raise_quit s2 ev e Hs2 Hev).
Qed.

Lemma game_loop_exceptions_witness :
  exists (done : list (list event)) (events : list event)
         (rest : list (list event)) (s : state),
    [[MOUSEMOTION (3, 4)%Z]; [MOUSEMOTION (3, 4)%Z; QUIT]; []]
    = done ++ events :: rest
    /\ game_loop done initial_state = Ok s
    /\ iteration s events = Raise SystemExit
    /\ existsb (quit_event (play s)) events = true.
Proof.
  destruct (game_loop_exceptions
              [[MOUSEMOTION (3, 4)%Z]; [MOUSEMOTION (3, 4)%Z; QUIT]; []]
              SystemExit eq_refl)
    as (done & events & rest & s & Hq & Hdone & Hit & _ & [[_ Hquit] | [Hz _]]).
  - exists done, events, rest, s. now repeat split.
  - discriminate Hz.
Defined.
